(** * The LaTeX micro-parser of [scripts/utils.py]

    A shallow embedding of [find_matching_brace], [extract_latex_args] and
    [parse_cventry], and the properties of the specification that concern
    them.

    Modelling conventions.
    - A Python [str] is a [list ascii]; every element stands for one
      character (code points below 256).
    - A Python [int] is a [Z].  Indexing and slicing follow Python: a
      negative index counts from the end, an index outside the string raises
      [IndexError], slice bounds are clamped.
    - A call either returns, raises, or runs out of the fuel given to one of
      its [while] loops; the last outcome is shown never to happen. *)

From Stdlib Require Import String Ascii ZArith List Bool Lia.
Import ListNotations.
Open Scope Z_scope.

(** ** Outcomes of a call *)

Inductive exn : Set := IndexError.

Inductive outcome (A : Type) : Type :=
| Returns (a : A)
| Raises (e : exn)
| OutOfFuel.

Arguments Returns {A} a.
Arguments Raises {A} e.
Arguments OutOfFuel {A}.

Definition bind {A B : Type} (m : outcome A) (k : A -> outcome B) : outcome B :=
  match m with
  | Returns a => k a
  | Raises e => Raises e
  | OutOfFuel => OutOfFuel
  end.

Notation "x <- m ;; k" := (bind m (fun x => k))
  (at level 61, m at next level, right associativity).

(** A [while] loop over a state [St]: [cond] is the loop test, [body] one
    iteration.  Each iteration consumes one unit of fuel. *)
Section While.
Context {St : Type}.
Variable cond : St -> outcome bool.
Variable body : St -> outcome St.

Fixpoint while (fuel : nat) (s : St) : outcome St :=
  b <- cond s ;;
  if b : bool then
    match fuel with
    | O => OutOfFuel
    | S fuel' => s' <- body s ;; while fuel' s'
    end
  else Returns s.
End While.

(** ** Python strings *)

Definition str := list ascii.

Definition len (s : str) : Z := Z.of_nat (length s).

(** [s[i]] *)
Definition py_index (s : str) (i : Z) : outcome ascii :=
  let j := if i <? 0 then i + len s else i in
  if (j <? 0) || (len s <=? j) then Raises IndexError
  else match nth_error s (Z.to_nat j) with
       | Some c => Returns c
       | None => Raises IndexError
       end.

(** The adjustment of one slice bound: negative bounds count from the end,
    then the bound is clamped to [0, len s]. *)
Definition slice_bound (s : str) (i : Z) : Z :=
  let j := if i <? 0 then i + len s else i in
  Z.max 0 (Z.min j (len s)).

(** [s[i:j]] *)
Definition py_slice (s : str) (i j : Z) : str :=
  let lo := slice_bound s i in
  let hi := slice_bound s j in
  firstn (Z.to_nat (hi - lo)) (skipn (Z.to_nat lo) s).

(** [s[i:]] *)
Definition py_slice_from (s : str) (i : Z) : str :=
  skipn (Z.to_nat (slice_bound s i)) s.

Definition chr (n : nat) : ascii := ascii_of_nat n.

Definition backslash : ascii := chr 92.
Definition lbrace : ascii := chr 123.
Definition rbrace : ascii := chr 125.
Definition space : ascii := chr 32.
Definition newline : ascii := chr 10.
Definition tab : ascii := chr 9.

Definition lit (s : string) : str := list_ascii_of_string s.

(** ** [find_matching_brace] *)

(** The inner loop: [while temp_pos >= 0 and text[temp_pos] == '\\'].
    State: [(temp_pos, num_backslashes)]. *)
Definition backslash_cond (text : str) (s : Z * Z) : outcome bool :=
  let '(temp_pos, _) := s in
  if temp_pos >=? 0 then
    c <- py_index text temp_pos ;; Returns (Ascii.eqb c backslash)
  else Returns false.

Definition backslash_body (s : Z * Z) : outcome (Z * Z) :=
  let '(temp_pos, num_backslashes) := s in
  Returns (temp_pos - 1, num_backslashes + 1).

Definition count_backslashes (text : str) (pos : Z) : outcome Z :=
  s <- while (backslash_cond text) backslash_body
             (Z.to_nat pos) (pos - 1, 0) ;;
  Returns (snd s).

(** The outer loop: [while pos < len(text) and count > 0].
    State: [(pos, count)]. *)
Definition brace_cond (text : str) (s : Z * Z) : outcome bool :=
  let '(pos, count) := s in
  Returns ((pos <? len text) && (count >? 0)).

Definition brace_body (text : str) (s : Z * Z) : outcome (Z * Z) :=
  let '(pos, count) := s in
  char <- py_index text pos ;;
  num_backslashes <- count_backslashes text pos ;;
  let is_escaped := (num_backslashes mod 2 =? 1) in
  let count' :=
    if negb is_escaped then
      if Ascii.eqb char lbrace then count + 1
      else if Ascii.eqb char rbrace then count - 1
      else count
    else count in
  Returns (pos + 1, count').

Definition find_matching_brace (text : str) (start_pos : Z) : outcome Z :=
  if match text with [] => true | _ => false end || (start_pos >=? len text)
  then Returns (-1)
  else
    s <- while (brace_cond text) (brace_body text)
               (Z.to_nat (len text - start_pos)) (start_pos, 1) ;;
    let '(pos, count) := s in
    Returns (if count =? 0 then pos else -1).

(** ** [extract_latex_args] *)

(** [c in ' \n\t'] for a one-character string [c]. *)
Definition is_blank (c : ascii) : bool :=
  Ascii.eqb c space || Ascii.eqb c newline || Ascii.eqb c tab.

(** The whitespace loop: [while pos < len(text) and text[pos] in ' \n\t']. *)
Definition skip_cond (text : str) (pos : Z) : outcome bool :=
  if pos <? len text then
    c <- py_index text pos ;; Returns (is_blank c)
  else Returns false.

Definition skip_body (pos : Z) : outcome Z := Returns (pos + 1).

Definition skip_whitespace (text : str) (pos : Z) : outcome Z :=
  while (skip_cond text) skip_body (Z.to_nat (len text - pos)) pos.

(** The [for arg_num in range(1, num_args + 1)] loop, with [n] iterations
    left; each [return None, start] leaves the loop early. *)
Fixpoint extract_loop (text : str) (start : Z) (n : nat)
    (args : list str) (pos : Z) : outcome (option (list str) * Z) :=
  match n with
  | O => Returns (Some args, pos)
  | S n' =>
    pos <- skip_whitespace text pos ;;
    if pos >=? len text then Returns (None, start)
    else
      c <- py_index text pos ;;
      if negb (Ascii.eqb c lbrace) then Returns (None, start)
      else
        end_ <- find_matching_brace text (pos + 1) ;;
        if end_ =? -1 then Returns (None, start)
        else
          extract_loop text start n'
            (args ++ [py_slice text (pos + 1) (end_ - 1)]) end_
  end.

Definition extract_latex_args (text : str) (start num_args : Z)
    : outcome (option (list str) * Z) :=
  if match text with [] => true | _ => false end
     || (start >=? len text) || (num_args <=? 0)
  then Returns (None, start)
  else extract_loop text start (Z.to_nat num_args) [] start.

(** ** The two regular expressions *)

(** [strip_prefix p s] is what follows [p] when [s] starts with [p]. *)
Fixpoint strip_prefix (p s : str) : option str :=
  match p, s with
  | [], _ => Some s
  | a :: p', b :: s' => if Ascii.eqb a b then strip_prefix p' s' else None
  | _ :: _, [] => None
  end.

(** [re.search]: the match at the leftmost position where the pattern
    matches; [match_here] matches the pattern at the head of a string. *)
Section Search.
Context {M : Type}.
Variable match_here : str -> option M.

Fixpoint re_search_from (i : Z) (s : str) : option (Z * M) :=
  match match_here s with
  | Some m => Some (i, m)
  | None =>
    match s with
    | [] => None
    | _ :: s' => re_search_from (i + 1) s'
    end
  end.

Definition re_search (s : str) : option (Z * M) := re_search_from 0 s.
End Search.

Definition cventry_marker : str := lit "\cventry".

(** The pattern [r'\\cventry'] at the head of [s]; the value is the length
    of the match. *)
Definition cventry_here (s : str) : option Z :=
  match strip_prefix cventry_marker s with
  | Some _ => Some (len cventry_marker)
  | None => None
  end.

(** [re.search(r'\\cventry', s)], as [(match.start(), match.end())]. *)
Definition search_cventry (s : str) : option (Z * Z) :=
  match re_search cventry_here s with
  | Some (i, n) => Some (i, i + n)
  | None => None
  end.

(** [[^}]+] is greedy and is followed by a [}] in both places of the
    pattern, so it can only match the whole run of characters other than
    [}]: [span_not_rbrace s] splits [s] after that run. *)
Fixpoint span_not_rbrace (s : str) : str * str :=
  match s with
  | [] => ([], [])
  | c :: s' =>
    if Ascii.eqb c rbrace then ([], s)
    else let (g, r) := span_not_rbrace s' in (c :: g, r)
  end.

(** The pattern [r'\\href\{([^}]+)\}\{([^}]+)\}'] at the head of [s]; the
    value is [(group(1), group(2))]. *)
Definition href_here (s : str) : option (str * str) :=
  match strip_prefix (lit "\href{") s with
  | None => None
  | Some s1 =>
    let (g1, r1) := span_not_rbrace s1 in
    match g1 with
    | [] => None
    | _ :: _ =>
      match strip_prefix (lit "}{") r1 with
      | None => None
      | Some s2 =>
        let (g2, r2) := span_not_rbrace s2 in
        match g2 with
        | [] => None
        | _ :: _ =>
          match strip_prefix (lit "}") r2 with
          | None => None
          | Some _ => Some (g1, g2)
          end
        end
      end
    end
  end.

Definition search_href (s : str) : option (str * str) :=
  match re_search href_here s with
  | Some (_, groups) => Some groups
  | None => None
  end.

(** ** [str.strip] *)

(** [c.isspace()] on the characters below 256. *)
Definition py_isspace (c : ascii) : bool :=
  let n := nat_of_ascii c in
  ((9 <=? n) && (n <=? 13) || (28 <=? n) && (n <=? 32)
   || (n =? 133) || (n =? 160))%nat.

Fixpoint lstrip (s : str) : str :=
  match s with
  | [] => []
  | c :: s' => if py_isspace c then lstrip s' else s
  end.

Definition rstrip (s : str) : str := rev (lstrip (rev s)).

Definition strip (s : str) : str := rstrip (lstrip s).

(** ** [parse_cventry] *)

(** The dictionary appended to [entries]; its five keys are fixed. *)
Record entry : Type := {
  title : str;
  tech : str;
  link_url : str;
  link_text : str;
  content : str
}.

(** Lines 247-253: the URL and the link text found in the third argument. *)
Definition split_link (link_content : str) : str * str :=
  match search_href link_content with
  | Some (g1, g2) => (g1, g2)
  | None => ([], link_content)
  end.

(** Lines 255-261. *)
Definition make_entry (title tech link_content content : str) : entry :=
  let (url, link_text) := split_link link_content in
  {| title := strip title;
     tech := strip tech;
     link_url := strip url;
     link_text := strip link_text;
     content := strip content |}.

(** What one iteration of [while True] does from the cursor [pos]. *)
Inductive step_result : Type :=
| Break
| Parsed (e : entry) (end_pos : Z)
| Skipped (next_pos : Z).

(** [if args and len(args) == 4] holds exactly for a list of four strings,
    which the next line unpacks. *)
Definition cventry_step (text : str) (pos : Z) : outcome step_result :=
  match search_cventry (py_slice_from text pos) with
  | None => Returns Break
  | Some (_, match_end) =>
    let match_pos := pos + match_end in
    r <- extract_latex_args text match_pos 4 ;;
    match r with
    | (Some [title; tech; link_content; content], end_pos) =>
      Returns (Parsed (make_entry title tech link_content content) end_pos)
    | _ => Returns (Skipped (match_pos + 1))
    end
  end.

Fixpoint cventry_loop (fuel : nat) (text : str) (entries : list entry)
    (pos : Z) : outcome (list entry) :=
  r <- cventry_step text pos ;;
  match r with
  | Break => Returns entries
  | Parsed e end_pos =>
    match fuel with
    | O => OutOfFuel
    | S fuel' => cventry_loop fuel' text (entries ++ [e]) end_pos
    end
  | Skipped next_pos =>
    match fuel with
    | O => OutOfFuel
    | S fuel' => cventry_loop fuel' text entries next_pos
    end
  end.

(** [text] is [None] for an absent document ([not text] holds for [None]
    and for the empty string). *)
Definition parse_cventry (text : option str) : outcome (list entry) :=
  match text with
  | None => Returns []
  | Some [] => Returns []
  | Some t => cventry_loop (length t) t [] 0
  end.

(** ** The notions of the specification *)

(** The character at offset [i] of the document, for an offset inside it. *)
Definition char_at (text : str) (i : Z) : option ascii :=
  if i <? 0 then None else nth_error text (Z.to_nat i).

(** The number of consecutive backslashes immediately preceding offset [i]. *)
Fixpoint backslash_run (text : str) (i : nat) : nat :=
  match i with
  | O => O
  | S j =>
    match nth_error text j with
    | Some c => if Ascii.eqb c backslash then S (backslash_run text j) else O
    | None => O
    end
  end.

Definition preceding_backslashes (text : str) (i : Z) : Z :=
  Z.of_nat (backslash_run text (Z.to_nat i)).

(** A character is escaped when that number is odd. *)
Definition escaped (text : str) (i : Z) : bool :=
  Z.odd (preceding_backslashes text i).

Definition unescaped (text : str) (i : Z) (c : ascii) : Prop :=
  char_at text i = Some c /\ escaped text i = false.

(** What the character at offset [i] adds to the brace depth. *)
Definition depth_change (text : str) (i : Z) : Z :=
  match char_at text i with
  | Some c =>
    if escaped text i then 0
    else if Ascii.eqb c lbrace then 1
    else if Ascii.eqb c rbrace then -1
    else 0
  | None => 0
  end.

(** The depth after the [n] characters that follow [start], from depth 1. *)
Fixpoint depth_from (text : str) (start : Z) (n : nat) : Z :=
  match n with
  | O => 1
  | S n' => depth_from text start n' + depth_change text (start + Z.of_nat n')
  end.

(** The running depth once the characters of [start, k) are scanned. *)
Definition depth (text : str) (start k : Z) : Z :=
  depth_from text start (Z.to_nat (k - start)).

(** [e] is the offset immediately after the unescaped closing brace that
    brings the depth to zero for the first time. *)
Definition closes_at (text : str) (start e : Z) : Prop :=
  start < e <= len text
  /\ unescaped text (e - 1) rbrace
  /\ depth text start e = 0
  /\ forall k, start <= k < e -> depth text start k > 0.

(** The depth never reaches zero before the text is exhausted. *)
Definition never_closes (text : str) (start : Z) : Prop :=
  forall k, start < k <= len text -> depth text start k <> 0.

(** A run of space, tab or newline characters fills [pos, o). *)
Definition blank_run (text : str) (pos o : Z) : Prop :=
  pos <= o
  /\ forall k, pos <= k < o ->
     exists c, char_at text k = Some c
               /\ (c = space \/ c = tab \/ c = newline).

(** The characters at the offsets of [i, j). *)
Definition between (text : str) (i j : Z) : str :=
  firstn (Z.to_nat (j - i)) (skipn (Z.to_nat i) text).

(** [args_from text pos args end_]: from [pos] the document holds the
    brace groups [args], one after the other, each after a run of blanks,
    and the last closing brace is at [end_ - 1]. *)
Inductive args_from (text : str) : Z -> list str -> Z -> Prop :=
| args_done (pos : Z) : args_from text pos [] pos
| args_next (pos o e : Z) (rest : list str) (end_ : Z) :
    blank_run text pos o ->
    char_at text o = Some lbrace ->
    closes_at text (o + 1) e ->
    args_from text e rest end_ ->
    args_from text pos (between text (o + 1) (e - 1) :: rest) end_.

(** The marker token occurs at offset [i] of the document. *)
Definition marker_at (text : str) (i : Z) : bool :=
  (0 <=? i)
  && match strip_prefix cventry_marker (skipn (Z.to_nat i) text) with
     | Some _ => true
     | None => false
     end.

(** The offsets [a, a + 1, ..., b - 1]. *)
Definition offsets (a b : Z) : list Z :=
  map (fun k => a + Z.of_nat k) (seq 0 (Z.to_nat (b - a))).

(** The marker occurrences of the document, in document order. *)
Definition occurrences (text : str) : list Z :=
  filter (marker_at text) (offsets 0 (len text + 1)).

(** The record of the occurrence at [i] and the offset after its last
    argument, when the four arguments can be extracted there. *)
Definition entry_at (text : str) (i : Z) : option (entry * Z) :=
  match extract_latex_args text (i + len cventry_marker) 4 with
  | Returns (Some [title; tech; link_content; content], end_pos) =>
    Some (make_entry title tech link_content content, end_pos)
  | _ => None
  end.

Definition well_formed (text : str) (i : Z) : bool :=
  match entry_at text i with Some _ => true | None => false end.

Definition record_at (text : str) (i : Z) : list entry :=
  match entry_at text i with Some (e, _) => [e] | None => [] end.

(** The records of the well-formed occurrences among the offsets of
    [a, b), in document order. *)
Definition records_in (text : str) (a b : Z) : list entry :=
  flat_map (record_at text) (filter (marker_at text) (offsets a b)).

Definition well_formed_records (text : str) : list entry :=
  flat_map (record_at text) (occurrences text).

(** The records the scan yields from the cursor [pos]: it goes to the next
    occurrence; a well-formed one yields its record and moves the cursor
    after its last argument, a malformed one moves it one character past
    the marker. *)
Inductive scan_from (text : str) : Z -> list entry -> Prop :=
| scan_break (pos : Z) :
    (forall k, pos <= k -> marker_at text k = false) ->
    scan_from text pos []
| scan_parsed (pos i : Z) (e : entry) (end_pos : Z) (rest : list entry) :
    pos <= i -> marker_at text i = true ->
    (forall k, pos <= k < i -> marker_at text k = false) ->
    entry_at text i = Some (e, end_pos) ->
    scan_from text end_pos rest ->
    scan_from text pos (e :: rest)
| scan_skipped (pos i : Z) (rest : list entry) :
    pos <= i -> marker_at text i = true ->
    (forall k, pos <= k < i -> marker_at text k = false) ->
    entry_at text i = None ->
    scan_from text (i + len cventry_marker + 1) rest ->
    scan_from text pos rest.

(** No marker occurrence starts inside the arguments of a well-formed
    occurrence, nor right after the marker of a malformed one. *)
Definition separated (text : str) : Prop :=
  forall i, marker_at text i = true ->
  match entry_at text i with
  | Some (_, end_pos) => forall j, i < j < end_pos -> marker_at text j = false
  | None => marker_at text (i + len cventry_marker) = false
  end.

(** A string has no leading and no trailing whitespace. *)
Definition trimmed (s : str) : Prop :=
  (forall c r, s = c :: r -> py_isspace c = false)
  /\ (forall c r, s = r ++ [c] -> py_isspace c = false).

Definition trimmed_entry (e : entry) : Prop :=
  trimmed (title e) /\ trimmed (tech e) /\ trimmed (link_url e)
  /\ trimmed (link_text e) /\ trimmed (content e).

(** What the pattern of [search_href] takes at the head of [s]: its two
    groups [url] and [label] are non-empty and hold no closing brace. *)
Definition href_pattern_here (s url label : str) : Prop :=
  url <> [] /\ label <> []
  /\ ~ In rbrace url /\ ~ In rbrace label
  /\ exists post,
       s = lit "\href{" ++ url ++ lit "}{" ++ label ++ lit "}" ++ post.

(** The leftmost place of [s] where the pattern matches, with its groups. *)
Definition first_href_pattern (s url label : str) : Prop :=
  exists k : nat,
    href_pattern_here (skipn k s) url label
    /\ forall k' u l, (k' < k)%nat -> ~ href_pattern_here (skipn k' s) u l.

Definition no_href_pattern (s : str) : Prop :=
  forall (k : nat) u l, ~ href_pattern_here (skipn k s) u l.



(** A link wrapper [\href{url}{label}] stands at offset [k] of the third
    argument [link]: each of its two arguments ends at the brace that
    matches its opening brace, as the Brace Matcher pairs them. *)
Definition link_wrapper_at (link : str) (k : nat) (url label : str) : Prop :=
  (exists post,
     skipn k link
     = lit "\href{" ++ url ++ lit "}{" ++ label ++ lit "}" ++ post)
  /\ closes_at link (Z.of_nat k + 6) (Z.of_nat k + 6 + len url + 1)
  /\ closes_at link (Z.of_nat k + 6 + len url + 2)
                    (Z.of_nat k + 6 + len url + 2 + len label + 1).



(** The invariant of the loop of [find_matching_brace] started at [start]. *)
Definition brace_inv (text : str) (start : Z) (s : Z * Z) : Prop :=
  let '(pos, count) := s in
  start <= pos <= len text
  /\ count = depth text start pos
  /\ 0 <= count
  /\ (forall k, start <= k < pos -> depth text start k > 0)
  /\ (count = 0 -> start < pos /\ unescaped text (pos - 1) rbrace).

(** [separated], as a check that can be run on a document. *)
Definition separatedb (text : str) : bool :=
  forallb
    (fun i =>
       negb (marker_at text i)
       || match entry_at text i with
          | Some (_, end_pos) =>
            forallb (fun j => negb (marker_at text j)) (offsets (i + 1) end_pos)
          | None => negb (marker_at text (i + len cventry_marker))
          end)
    (offsets 0 (len text + 1)).

(** The cursor after an iteration that does not leave the loop. *)
Definition next_cursor (r : step_result) : option Z :=
  match r with
  | Break => None
  | Parsed _ end_pos => Some end_pos
  | Skipped next_pos => Some next_pos
  end.

(** The offset that [text[pos]] reads. *)
Definition offset_read (text : str) (pos : Z) : Z :=
  if pos <? 0 then pos + len text else pos.

(** ** The statements of the specification *)

(** Brace Matcher, result: a success ends right after the first unescaped
    closing brace that brings the depth to zero, and the failure value is
    returned exactly when the depth never reaches zero. *)
Definition brace_matcher_claim (text : str) (start_pos : Z) : Prop :=
  (forall e, find_matching_brace text start_pos = Returns e -> e <> -1 ->
             closes_at text start_pos e)
  /\ (find_matching_brace text start_pos = Returns (-1)
      <-> never_closes text start_pos).

(** Brace Matcher, escape rule: the character read at a scanned position
    changes the depth as its escape parity tells. *)
Definition escape_rule_claim (text : str) (pos : Z) : Prop :=
  forall count c,
  py_index text pos = Returns c ->
  brace_body text (pos, count)
  = Returns (pos + 1, count + depth_change text (offset_read text pos)).

(** Argument Extractor, success: [num_args] brace groups, in order. *)
Definition extractor_claim (text : str) (start num_args : Z) : Prop :=
  forall args end_,
  1 <= num_args ->
  extract_latex_args text start num_args = Returns (Some args, end_) ->
  Z.of_nat (length args) = num_args /\ args_from text start args end_.

(** Argument Extractor, failure: a call that does not succeed returns the
    failure with the original [start]; an empty text, a [start] out of
    range and a [num_args] below one are such calls. *)
Definition extractor_failure_claim (text : str) (start num_args : Z) : Prop :=
  (text = [] \/ start < 0 \/ len text <= start \/ num_args <= 0 ->
   extract_latex_args text start num_args = Returns (None, start))
  /\ (extract_latex_args text start num_args = Returns (None, start)
      \/ exists args end_,
           extract_latex_args text start num_args = Returns (Some args, end_)
           /\ Z.of_nat (length args) = num_args).

(** Entry Scanner: the records of exactly the well-formed occurrences. *)
Definition scanner_claim (text : str) : Prop :=
  parse_cventry (Some text) = Returns (well_formed_records text).

(** Brace Matcher, position check. *)
Definition position_check_claim (text : str) (start_pos : Z) : Prop :=
  text = [] \/ ~ (0 <= start_pos <= len text) \/ len text <= start_pos ->
  find_matching_brace text start_pos = Returns (-1).



(** ** Documents used below *)

Definition doc_cventry : str := lit "\cventry{Title}{Tech}{Link}{Content}".

Definition doc_truncated : str := lit "\cventry{Title}{Tech}".

(** Two well-formed occurrences around a malformed one. *)
Definition doc_three : str :=
  lit "\cventry{a}{b}{c}{d} \cventry{oops \cventry{e}{f}{g}{h}".

(** The malformed marker is directly followed by the next occurrence. *)
Definition doc_adjacent : str :=
  lit "\cventry{a}{b}{c}{d}\cventry\cventry{e}{f}{g}{h}".



(** A wrapper whose label holds a brace group. *)
Definition doc_braced_label : str :=
  lit "\cventry{T}{X}{\href{http://x}{\textbf{Demo}}}{C}".

Definition doc_nested : str :=
  lit "\cventry{Title}{Java, Python}{\href{http://link.com}{Demo}}{Some content}".

(** The document of [test_parse_cventry]. *)
Definition doc_projects : str :=
  lit "
    \cventry{Project One}{Java, Spring}{\href{https://github.com/user/proj}{GitHub}}{
    \begin{itemize}
      \item Feature one
      \item Feature two
    \end{itemize}
    }
    
    \cventry{Project Two}{Python}{\href{https://example.com}{Demo}}{Description here}
    ".

(** Case analysis on the integer comparisons of the goal. *)
Ltac zcases :=
  repeat first
    [ rewrite Z.geb_leb
    | rewrite Z.gtb_ltb
    | match goal with
      | |- context [?a <? ?b] => destruct (Z.ltb_spec a b)
      | |- context [?a <=? ?b] => destruct (Z.leb_spec a b)
      | |- context [?a =? ?b] => destruct (Z.eqb_spec a b)
      end ];
  simpl.

(** ** [escape_latex_chars] *)

(** [s.replace(old, new)] with a non-empty [old]: the occurrences are
    taken from the left and do not overlap; [skip] counts the characters of
    an occurrence that are still to be passed. *)
Fixpoint replace_from (old new : str) (skip : nat) (s : str) : str :=
  match s with
  | [] => []
  | c :: s' =>
    match skip with
    | S k => replace_from old new k s'
    | O =>
      match strip_prefix old s with
      | Some _ => new ++ replace_from old new (length old - 1) s'
      | None => c :: replace_from old new 0 s'
      end
    end
  end.

(** [s.replace(old, new)]; an empty [old] matches before every character
    and at the end. *)
Definition py_replace (old new s : str) : str :=
  match old with
  | [] => new ++ flat_map (fun c => c :: new) s
  | _ :: _ => replace_from old new 0 s
  end.

(** The dictionary [latex_escapes], in the order of its items. *)
Definition latex_escapes : list (str * str) :=
  [ (lit "\", lit "\textbackslash{}");
    (lit "_", lit "\_");
    (lit "&", lit "\&");
    (lit "#", lit "\#");
    (lit "%", lit "\%");
    (lit "$", lit "\$");
    (lit "{", lit "\{");
    (lit "}", lit "\}");
    (lit "^", lit "\^{}");
    (lit "~", lit "\textasciitilde{}") ].

Definition escape_latex_chars (text : str) : str :=
  fold_left (fun t item => py_replace (fst item) (snd item) t)
            latex_escapes text.

(** What the ten replacements, one after the other, make of one
    character. *)
Definition escaped_char (c : ascii) : str :=
  if Ascii.eqb c backslash then lit "\textbackslash\{\}"
  else if Ascii.eqb c (chr 95) then lit "\_"
  else if Ascii.eqb c (chr 38) then lit "\&"
  else if Ascii.eqb c (chr 35) then lit "\#"
  else if Ascii.eqb c (chr 37) then lit "\%"
  else if Ascii.eqb c (chr 36) then lit "\$"
  else if Ascii.eqb c lbrace then lit "\{"
  else if Ascii.eqb c rbrace then lit "\}"
  else if Ascii.eqb c (chr 94) then lit "\^{}"
  else if Ascii.eqb c (chr 126) then lit "\textasciitilde{}"
  else [c].

(** The characters that [latex_escapes] has a key for. *)
Definition latex_special (c : ascii) : bool :=
  existsb (fun item => match fst item with
                       | [k] => Ascii.eqb c k
                       | _ => false
                       end) latex_escapes.

(** The special characters whose escape is a backslash and the character
    itself. *)
Definition backslash_escaped (c : ascii) : bool :=
  Ascii.eqb c (chr 95) || Ascii.eqb c (chr 38) || Ascii.eqb c (chr 35)
  || Ascii.eqb c (chr 37) || Ascii.eqb c (chr 36).

(** ** One forward pass over the braces *)

(** The escape state after a character: a backslash toggles it, any other
    character clears it. *)
Definition esc_step (esc : bool) (c : ascii) : bool :=
  if Ascii.eqb c backslash then negb esc else false.

(** The depth after a character read at depth [d] in the escape state
    [esc]. *)
Definition depth_step (esc : bool) (d : Z) (c : ascii) : Z :=
  if esc then d
  else if Ascii.eqb c lbrace then d + 1
  else if Ascii.eqb c rbrace then d - 1
  else d.

(** The number of characters of [s] read until the depth, [d] before [s],
    is zero for the first time. *)
Fixpoint scan_close (esc : bool) (d : Z) (s : str) : option Z :=
  match s with
  | [] => None
  | c :: s' =>
    let d' := depth_step esc d c in
    if d' =? 0 then Some 1
    else match scan_close (esc_step esc c) d' s' with
         | Some n => Some (n + 1)
         | None => None
         end
  end.

(** Every character of [s] that [backslash_escaped] names is read in the
    escape state. *)
Fixpoint specials_escaped (esc : bool) (s : str) : bool :=
  match s with
  | [] => true
  | c :: s' =>
    (negb (backslash_escaped c) || esc) && specials_escaped (esc_step esc c) s'
  end.

(** The brace groups [{f}] of the fields [fs], one after the other. *)
Definition brace_groups (fs : list str) : str :=
  flat_map (fun f => lbrace :: f ++ [rbrace]) fs.

(** A document written from rows of four fields: each row is a newline,
    the marker, and the four escaped fields in braces. *)
Definition cventry_row (row : str * str * str * str) : str :=
  let '(a, b, c, d) := row in
  newline :: cventry_marker
  ++ brace_groups (map escape_latex_chars [a; b; c; d]).

Definition cventry_rows (rows : list (str * str * str * str)) : str :=
  flat_map cventry_row rows.

(** The record read back from a row. *)
Definition row_entry (row : str * str * str * str) : entry :=
  let '(a, b, c, d) := row in
  {| title := escape_latex_chars (strip a);
     tech := escape_latex_chars (strip b);
     link_url := [];
     link_text := escape_latex_chars (strip c);
     content := escape_latex_chars (strip d) |}.

(** ** Further functions of [utils.py] and [generate_json.py] *)

Definition head_not_space (s : str) : bool :=
  match s with
  | x :: _ => negb (py_isspace x)
  | [] => false
  end.

(** ** [re.sub] *)

(** [re.sub(pattern, repl, s)] for a pattern that matches no empty string:
    the matches are taken from the left and do not overlap.  [match_here]
    matches the pattern at the head of a string and gives the replacement
    and the length of the match; [skip] counts the characters of a match
    that are still to be passed. *)
Section Sub.
Variable match_here : str -> option (str * nat).

Fixpoint re_sub_from (skip : nat) (s : str) : str :=
  match s with
  | [] => []
  | c :: s' =>
    match skip with
    | S k => re_sub_from k s'
    | O =>
      match match_here s with
      | Some (repl, n) => repl ++ re_sub_from (n - 1) s'
      | None => c :: re_sub_from 0 s'
      end
    end
  end.

Definition re_sub (s : str) : str := re_sub_from 0 s.
End Sub.

(** The longest prefix of characters that satisfy [p]. *)
Fixpoint take_while (p : ascii -> bool) (s : str) : str :=
  match s with
  | [] => []
  | c :: s' => if p c then c :: take_while p s' else []
  end.

Definition percent : ascii := chr 37.

(** [r'%.*'], replaced by nothing: [.] is any character but the newline. *)
Definition comment_here (s : str) : option (str * nat) :=
  match s with
  | c :: r =>
    if Ascii.eqb c percent
    then Some ([], S (length (take_while (fun x => negb (Ascii.eqb x newline)) r)))
    else None
  | [] => None
  end.

(** [r'\\NAME\{([^}]+)\}']: the group and the length of the match. *)
Definition command_group_here (name : str) (s : str) : option (str * nat) :=
  match strip_prefix (backslash :: name ++ [lbrace]) s with
  | None => None
  | Some s1 =>
    let (g, r) := span_not_rbrace s1 in
    match g with
    | [] => None
    | _ :: _ =>
      match strip_prefix [rbrace] r with
      | None => None
      | Some _ => Some (g, (length name + 2 + length g + 1)%nat)
      end
    end
  end.

(** Replaced by [r'\1']. *)
Definition unwrap_here (name : str) (s : str) : option (str * nat) :=
  command_group_here name s.

(** Replaced by nothing. *)
Definition drop_group_here (name : str) (s : str) : option (str * nat) :=
  match command_group_here name s with
  | Some (_, n) => Some ([], n)
  | None => None
  end.

(** [r'\\href\{([^}]+)\}\{([^}]+)\}'], replaced by [r'\2']. *)
Definition href_label_here (s : str) : option (str * nat) :=
  match href_here s with
  | Some (g1, g2) => Some (g2, (6 + length g1 + 2 + length g2 + 1)%nat)
  | None => None
  end.

(** The first of the alternatives [alts] that the string starts with. *)
Fixpoint first_literal (alts : list str) (s : str) : option nat :=
  match alts with
  | [] => None
  | a :: rest =>
    match strip_prefix a s with
    | Some _ => Some (length a)
    | None => first_literal rest s
    end
  end.

(** [r'\\(noindent|quad|hfill|par)'], replaced by nothing. *)
Definition spacing_here (s : str) : option (str * nat) :=
  match strip_prefix [backslash] s with
  | None => None
  | Some r =>
    match first_literal [lit "noindent"; lit "quad"; lit "hfill"; lit "par"] r with
    | Some n => Some ([], S n)
    | None => None
    end
  end.

(** [\d] on the characters below 256. *)
Definition is_digit (c : ascii) : bool :=
  let n := nat_of_ascii c in ((48 <=? n) && (n <=? 57))%nat.

(** [r'\\\\(\[\d+pt\])?'], replaced by a newline: two backslashes and,
    when it is there, the bracketed length. *)
Definition linebreak_here (s : str) : option (str * nat) :=
  match strip_prefix [backslash; backslash] s with
  | None => None
  | Some r =>
    match strip_prefix [chr 91] r with
    | None => Some ([newline], 2%nat)
    | Some r1 =>
      let digits := take_while is_digit r1 in
      match digits, strip_prefix (lit "pt]") (skipn (length digits) r1) with
      | _ :: _, Some _ => Some ([newline], (2 + 1 + length digits + 3)%nat)
      | _, _ => Some ([newline], 2%nat)
      end
    end
  end.

(** A literal pattern, replaced by [repl]. *)
Definition literal_here (pattern repl : str) (s : str) : option (str * nat) :=
  match strip_prefix pattern s with
  | Some _ => Some (repl, length pattern)
  | None => None
  end.

(** The length of the prefix of [w] that ends with its last newline. *)
Fixpoint upto_last_newline (w : str) : nat :=
  match w with
  | [] => O
  | c :: w' =>
    let n := upto_last_newline w' in
    if Ascii.eqb c newline then S n
    else match n with O => O | S _ => S n end
  end.

(** [r'\n\s*\n\s*\n+'], replaced by two newlines: [\s] takes newlines too,
    so from a newline the match runs to the last newline of the whitespace
    that follows, when that whitespace has two newlines or more. *)
Definition blank_lines_here (s : str) : option (str * nat) :=
  match s with
  | c :: r =>
    if Ascii.eqb c newline then
      let w := take_while py_isspace r in
      if (2 <=? count_occ ascii_dec w newline)%nat
      then Some ([newline; newline], S (upto_last_newline w))
      else None
    else None
  | [] => None
  end.

(** ** [clean_latex_to_plain] *)

Definition clean_latex_to_plain (text : str) : str :=
  let text := re_sub comment_here text in
  let text := re_sub (unwrap_here (lit "textbf")) text in
  let text := re_sub (unwrap_here (lit "textit")) text in
  let text := re_sub href_label_here text in
  let text := re_sub (unwrap_here (lit "section")) text in
  let text := re_sub spacing_here text in
  let text := re_sub (drop_group_here (lit "vspace")) text in
  let text := re_sub linebreak_here text in
  let text := re_sub (literal_here (lit "\item") []) text in
  let text := re_sub (literal_here (lit "\textbar{}") (lit "|")) text in
  let text := re_sub (drop_group_here (lit "begin")) text in
  let text := re_sub (drop_group_here (lit "end")) text in
  let text := re_sub blank_lines_here text in
  strip text.

(** ** [parse_projects_from_latex] *)

(** [s.split(sep)] for a one-character [sep]. *)
Fixpoint py_split (sep : ascii) (s : str) : list str :=
  match s with
  | [] => [[]]
  | c :: s' =>
    if Ascii.eqb c sep then [] :: py_split sep s'
    else match py_split sep s' with
         | piece :: pieces => (c :: piece) :: pieces
         | [] => [[c]]
         end
  end.

(** [sep.join(pieces)] *)
Fixpoint py_join (sep : ascii) (pieces : list str) : str :=
  match pieces with
  | [] => []
  | [piece] => piece
  | piece :: rest => piece ++ sep :: py_join sep rest
  end.

(** [s.startswith(prefix)] *)
Definition startswith (s prefix : str) : bool :=
  match strip_prefix prefix s with
  | Some _ => true
  | None => false
  end.

Definition comma : ascii := chr 44.

(** The dictionary appended to [projects]. *)
Record project : Type := {
  p_name : str;
  p_description : str;
  p_highlights : list str;
  p_keywords : list str;
  p_startDate : str;
  p_endDate : str;
  p_url : str;
  p_roles : list str;
  p_entity : str;
  p_type : str
}.

(** Lines 35-39: the lines of the cleaned content that are kept. *)
Definition highlights_of (content_plain : str) : list str :=
  filter (fun line =>
            match line with [] => false | _ :: _ => true end
            && negb (startswith line [backslash]))
         (map strip (py_split newline content_plain)).

(** Lines 32-56: the project of one entry. *)
Definition project_of (e : entry) : project :=
  let highlights := highlights_of (clean_latex_to_plain (content e)) in
  let tech_keywords := map strip (py_split comma (tech e)) in
  {| p_name := title e;
     p_description := match highlights with
                      | h :: _ => h
                      | [] => title e
                      end;
     p_highlights := highlights;
     p_keywords := tech_keywords;
     p_startDate := [];
     p_endDate := [];
     p_url := match link_url e with [] => [] | _ :: _ => link_url e end;
     p_roles := [lit "Developer"];
     p_entity := [];
     p_type := lit "application" |}.

(** [content] is what [read_file_safe] gave: [None] when the file could
    not be read. *)
Definition parse_projects_from_latex (content : option str)
    : outcome (list project) :=
  match content with
  | None => Returns []
  | Some [] => Returns []
  | Some (_ :: _) =>
    entries <- parse_cventry content ;;
    Returns (map project_of entries)
  end.

(** ** The profiles of [generate_json_resume] *)

(** [l[-1]] *)
Definition py_last (l : list str) : outcome str :=
  match rev l with
  | x :: _ => Returns x
  | [] => Raises IndexError
  end.

Definition slash : ascii := chr 47.

(** ["username": url.split('/')[-1]] *)
Definition profile_username (url : str) : outcome str :=
  py_last (py_split slash url).

(** [PERSONAL_INFO['linkedin']] and [PERSONAL_INFO['github']] of
    [config.py]. *)
Definition linkedin_url : str :=
  lit "https://www.linkedin.com/in/sumitranjanjha7/".

Definition github_url : str := lit "https://github.com/SumitWiki".

(** A character that starts none of the patterns of
    [clean_latex_to_plain]. *)
Definition plain_char (c : ascii) : bool :=
  negb (Ascii.eqb c backslash || Ascii.eqb c percent || Ascii.eqb c newline).

Definition not_percent (c : ascii) : Prop := c <> percent.

(** ** Regular expressions, for the patterns that are only tested *)

(** [validate_url] and [validate_email] only ask whether their pattern
    matches, so what matters of a pattern is the set of strings it
    matches. *)
Inductive regex : Type :=
| Never
| Eps
| Chars (p : ascii -> bool)
| Cat (r1 r2 : regex)
| Alt (r1 r2 : regex)
| Star (r : regex).

Inductive matches : regex -> str -> Prop :=
| matches_eps : matches Eps []
| matches_chars (p : ascii -> bool) (c : ascii) :
    p c = true -> matches (Chars p) [c]
| matches_cat (r1 r2 : regex) (s1 s2 : str) :
    matches r1 s1 -> matches r2 s2 -> matches (Cat r1 r2) (s1 ++ s2)
| matches_alt_l (r1 r2 : regex) (s : str) :
    matches r1 s -> matches (Alt r1 r2) s
| matches_alt_r (r1 r2 : regex) (s : str) :
    matches r2 s -> matches (Alt r1 r2) s
| matches_star_nil (r : regex) : matches (Star r) []
| matches_star_cons (r : regex) (s1 s2 : str) :
    matches r s1 -> matches (Star r) s2 -> matches (Star r) (s1 ++ s2).

Fixpoint nullable (r : regex) : bool :=
  match r with
  | Never => false
  | Eps => true
  | Chars _ => false
  | Cat r1 r2 => nullable r1 && nullable r2
  | Alt r1 r2 => nullable r1 || nullable r2
  | Star _ => true
  end.

Definition cat (r1 r2 : regex) : regex :=
  match r1, r2 with
  | Never, _ => Never
  | _, Never => Never
  | Eps, _ => r2
  | _, _ => Cat r1 r2
  end.

Definition alt (r1 r2 : regex) : regex :=
  match r1, r2 with
  | Never, _ => r2
  | _, Never => r1
  | _, _ => Alt r1 r2
  end.

(** What is left to match once the character [c] is read. *)
Fixpoint deriv (c : ascii) (r : regex) : regex :=
  match r with
  | Never => Never
  | Eps => Never
  | Chars p => if p c then Eps else Never
  | Cat r1 r2 =>
    if nullable r1 then alt (cat (deriv c r1) r2) (deriv c r2)
    else cat (deriv c r1) r2
  | Alt r1 r2 => alt (deriv c r1) (deriv c r2)
  | Star r1 => cat (deriv c r1) (Star r1)
  end.

Fixpoint accepts (r : regex) (s : str) : bool :=
  match s with
  | [] => nullable r
  | c :: s' => accepts (deriv c r) s'
  end.

(** The pieces of a pattern. *)
Definition Chr (c : ascii) : regex := Chars (Ascii.eqb c).

Fixpoint Lit (s : str) : regex :=
  match s with
  | [] => Eps
  | c :: s' => Cat (Chr c) (Lit s')
  end.

Definition Opt (r : regex) : regex := Alt r Eps.

Definition Plus (r : regex) : regex := Cat r (Star r).

(** [r{n}] *)
Fixpoint Times (n : nat) (r : regex) : regex :=
  match n with
  | O => Eps
  | S k => Cat r (Times k r)
  end.

(** [r{0,n}] *)
Fixpoint Upto (n : nat) (r : regex) : regex :=
  match n with
  | O => Eps
  | S k => Opt (Cat r (Upto k r))
  end.

(** [r{n,m}] *)
Definition Between (n m : nat) (r : regex) : regex :=
  Cat (Times n r) (Upto (m - n) r).

(** [r{n,}] *)
Definition AtLeast (n : nat) (r : regex) : regex :=
  Cat (Times n r) (Star r).

Definition in_range (lo hi : nat) (c : ascii) : bool :=
  let n := nat_of_ascii c in ((lo <=? n) && (n <=? hi))%nat.

Definition is_upper : ascii -> bool := in_range 65 90.
Definition is_lower : ascii -> bool := in_range 97 122.
Definition is_alpha (c : ascii) : bool := is_upper c || is_lower c.

Definition one_of (s : str) (c : ascii) : bool := existsb (Ascii.eqb c) s.

(** The other case of an ASCII letter; below 256 no other character has a
    case variant among the characters of the patterns. *)
Definition swapcase (c : ascii) : ascii :=
  if is_upper c then ascii_of_nat (nat_of_ascii c + 32)
  else if is_lower c then ascii_of_nat (nat_of_ascii c - 32)
  else c.

(** [re.IGNORECASE], on strings of code points below 256, which are the
    strings of [str]: a character class also takes the other case of an
    ASCII letter, and nothing more.  Beyond 256 the flag folds further:
    U+017F is taken where [s] is, and U+212A, U+0130 and U+0131 where
    [[A-Z]] is.  Strings with such characters are not strings of [str]. *)
Fixpoint ignore_case (r : regex) : regex :=
  match r with
  | Never => Never
  | Eps => Eps
  | Chars p => Chars (fun c => p c || p (swapcase c))
  | Cat r1 r2 => Cat (ignore_case r1) (ignore_case r2)
  | Alt r1 r2 => Alt (ignore_case r1) (ignore_case r2)
  | Star r1 => Star (ignore_case r1)
  end.

(** [re.compile('^' + r + '$').match(s) is not None]: [$] is the end of
    the string, or the place before a newline that ends the string. *)
Definition match_to_end (r : regex) (s : str) : bool :=
  accepts r s
  || match rev s with
     | c :: t => Ascii.eqb c newline && accepts r (rev t)
     | [] => false
     end.

(** ** [validate_email] *)

(** [[a-zA-Z0-9._%+-]] *)
Definition email_local_char (c : ascii) : bool :=
  is_lower c || is_upper c || is_digit c || one_of (lit "._%+-") c.

(** [[a-zA-Z0-9.-]] *)
Definition email_domain_char (c : ascii) : bool :=
  is_lower c || is_upper c || is_digit c || one_of (lit ".-") c.

(** [r'^[a-zA-Z0-9._%+-]+@[a-zA-Z0-9.-]+\.[a-zA-Z]{2,}$'] *)
Definition email_pattern : regex :=
  Cat (Plus (Chars email_local_char))
    (Cat (Chr (chr 64))
      (Cat (Plus (Chars email_domain_char))
        (Cat (Chr (chr 46))
             (AtLeast 2 (Chars (fun c => is_lower c || is_upper c)))))).

Definition validate_email (email : str) : bool :=
  match_to_end email_pattern email.

(** ** [validate_url] *)

(** [[A-Z0-9]] *)
Definition url_alnum (c : ascii) : bool := is_upper c || is_digit c.

(** [[A-Z0-9-]] *)
Definition url_label_char (c : ascii) : bool :=
  is_upper c || is_digit c || Ascii.eqb c (chr 45).

(** [(?:[A-Z0-9](?:[A-Z0-9-]{0,61}[A-Z0-9])?\.)+[A-Z]{2,6}\.?] *)
Definition url_domain : regex :=
  Cat (Plus (Cat (Chars url_alnum)
              (Cat (Opt (Cat (Between 0 61 (Chars url_label_char))
                             (Chars url_alnum)))
                   (Chr (chr 46)))))
    (Cat (Between 2 6 (Chars is_upper)) (Opt (Chr (chr 46)))).

(** [\d{1,3}\.\d{1,3}\.\d{1,3}\.\d{1,3}] *)
Definition url_ip : regex :=
  let octet := Between 1 3 (Chars is_digit) in
  let dot := Chr (chr 46) in
  Cat octet (Cat dot (Cat octet (Cat dot (Cat octet (Cat dot octet))))).

(** [\S] *)
Definition not_space (c : ascii) : bool := negb (py_isspace c).

(** The pattern of [validate_url], before [re.IGNORECASE]. *)
Definition url_pattern_cased : regex :=
  Cat (Lit (lit "http"))
    (Cat (Opt (Chr (chr 115)))
      (Cat (Lit (lit "://"))
        (Cat (Alt url_domain (Alt (Lit (lit "localhost")) url_ip))
          (Cat (Opt (Cat (Chr (chr 58)) (Plus (Chars is_digit))))
               (Alt (Opt (Chr slash))
                    (Cat (Chars (one_of (lit "/?")))
                         (Plus (Chars not_space)))))))).

Definition url_pattern : regex := ignore_case url_pattern_cased.

Definition validate_url (url : str) : bool := match_to_end url_pattern url.

Definition at_sign : ascii := chr 64.
Definition dot : ascii := chr 46.

(** An address [local@domain.tld]. *)
Definition email_shape (s : str) : Prop :=
  exists loc dom tld,
    s = loc ++ at_sign :: dom ++ dot :: tld
    /\ loc <> [] /\ forallb email_local_char loc = true
    /\ dom <> [] /\ forallb email_domain_char dom = true
    /\ (2 <= length tld)%nat
    /\ forallb (fun c => is_lower c || is_upper c) tld = true.

(** The 256 characters. *)
Definition all_chars : list ascii := map ascii_of_nat (seq 0 256).

(** Every character that a character class of [r] takes satisfies [P]. *)
Fixpoint chars_within (P : ascii -> bool) (r : regex) : bool :=
  match r with
  | Never | Eps => true
  | Chars p => forallb (fun c => implb (p c) (P c)) all_chars
  | Cat r1 r2 | Alt r1 r2 => chars_within P r1 && chars_within P r2
  | Star r1 => chars_within P r1
  end.

(** [s] is [l] up to the case of its letters. *)
Fixpoint eq_ci (l s : str) : bool :=
  match l, s with
  | [], [] => true
  | d :: l', c :: s' =>
    (Ascii.eqb d c || Ascii.eqb d (swapcase c)) && eq_ci l' s'
  | _, _ => false
  end.

(** ** The tests of the repository *)

Example test_find_matching_brace :
  find_matching_brace (lit "hello {world {nested} text} end") 7 = Returns 27
  /\ find_matching_brace (lit "hello {world") 7 = Returns (-1).
Proof. split; reflexivity. Qed.

Example test_extract_latex_args :
  extract_latex_args doc_cventry 8 4
  = Returns (Some [lit "Title"; lit "Tech"; lit "Link"; lit "Content"], 36)
  /\ extract_latex_args doc_nested 8 4
     = Returns (Some [lit "Title"; lit "Java, Python";
                      lit "\href{http://link.com}{Demo}";
                      lit "Some content"], 73).
Proof. split; reflexivity. Qed.

Example test_parse_cventry :
  match parse_cventry (Some doc_projects) with
  | Returns [e1; e2] =>
    title e1 = lit "Project One" /\ tech e1 = lit "Java, Spring"
    /\ link_url e1 = lit "https://github.com/user/proj"
    /\ link_text e1 = lit "GitHub"
    /\ title e2 = lit "Project Two" /\ link_url e2 = lit "https://example.com"
  | _ => False
  end.
Proof. vm_compute. repeat split. Qed.

Example test_edge_cases :
  find_matching_brace [] 0 = Returns (-1)
  /\ find_matching_brace (lit "hello \{not a brace\} {real brace}") 23
     = Returns 34
  /\ extract_latex_args [] 0 1 = Returns (None, 0)
  /\ parse_cventry (Some []) = Returns [].
Proof. repeat split; reflexivity. Qed.

Example test_double_backslash_braces :
  find_matching_brace (lit "hello \\{test} end") 9 = Returns 14
  /\ char_at (lit "hello \\{test} end") 13 = Some rbrace.
Proof. split; reflexivity. Qed.

Example test_escaped_closing_brace :
  find_matching_brace (lit "{a\}b}") 1 = Returns 6.
Proof. reflexivity. Qed.

Example test_truncated_input :
  extract_latex_args doc_truncated 8 4 = Returns (None, 8).
Proof. reflexivity. Qed.

(** ** The [while] rule *)

Section WhileRule.
Context {St : Type}.
Variable cond : St -> outcome bool.
Variable body : St -> outcome St.

Lemma while_fuel_mono (fuel fuel' : nat) (s : St) :
  (fuel <= fuel')%nat ->
  while cond body fuel s <> OutOfFuel ->
  while cond body fuel' s = while cond body fuel s.
Proof.
  revert fuel' s.
  induction fuel as [|fuel IH]; intros fuel' s Hle Hne.
  - destruct fuel' as [|fuel']; [reflexivity|].
    simpl in *. destruct (cond s) as [[|]| |]; simpl in *;
      try reflexivity; congruence.
  - destruct fuel' as [|fuel']; [lia|].
    simpl in *. destruct (cond s) as [[|]| |]; simpl in *;
      try reflexivity.
    destruct (body s) as [s'| |]; simpl in *; try reflexivity.
    apply IH; [lia|assumption].
Qed.

Variable Inv : St -> Prop.
Variable variant : St -> nat.

(** A loop whose test and body never run out of fuel, and whose variant
    is positive and decreases while the test holds, has enough fuel as soon
    as the fuel covers the variant. *)
Lemma while_fuel_enough (fuel : nat) (s : St) :
  (forall s, cond s <> OutOfFuel) ->
  (forall s, cond s = Returns true ->
             body s <> OutOfFuel /\ (0 < variant s)%nat
             /\ forall s', body s = Returns s' -> (variant s' < variant s)%nat) ->
  (variant s <= fuel)%nat ->
  while cond body fuel s <> OutOfFuel.
Proof.
  intros Hcond Hbody. revert s.
  induction fuel as [|fuel IH]; intros s Hv; simpl;
    pose proof (Hcond s) as Hc;
    destruct (cond s) as [[|]| |] eqn:Ec; simpl; try congruence.
  - destruct (Hbody s Ec) as (_ & Hpos & _). lia.
  - destruct (Hbody s Ec) as (Hb & _ & Hdec).
    destruct (body s) as [s'| |] eqn:Eb; simpl; try congruence.
    apply IH. specialize (Hdec s' eq_refl). lia.
Qed.

Hypothesis cond_returns : forall s, Inv s -> exists b, cond s = Returns b.
Hypothesis body_step :
  forall s, Inv s -> cond s = Returns true ->
  exists s', body s = Returns s' /\ Inv s' /\ (variant s' < variant s)%nat.

Lemma while_rule (fuel : nat) (s : St) :
  Inv s -> (variant s <= fuel)%nat ->
  exists s', while cond body fuel s = Returns s'
             /\ Inv s' /\ cond s' = Returns false.
Proof.
  revert s.
  induction fuel as [|fuel IH]; intros s HI Hv;
    destruct (cond_returns s HI) as [b Hb]; simpl; rewrite Hb; simpl;
    destruct b.
  - destruct (body_step s HI Hb) as (s' & _ & _ & Hlt). lia.
  - eauto.
  - destruct (body_step s HI Hb) as (s' & Hs' & HI' & Hlt).
    rewrite Hs'. simpl. apply IH; [assumption|lia].
  - eauto.
Qed.
End WhileRule.

(** ** Indexing inside the document *)

Lemma len_nonneg (s : str) : 0 <= len s.
Proof. unfold len. lia. Qed.

Lemma py_index_in_range (s : str) (i : Z) :
  0 <= i < len s ->
  exists c, py_index s i = Returns c /\ char_at s i = Some c.
Proof.
  intros Hi. unfold py_index, char_at. zcases; try lia.
  destruct (nth_error s (Z.to_nat i)) as [c|] eqn:En; [eauto|].
  apply nth_error_None in En. unfold len in *. lia.
Qed.

Lemma char_at_Some_range (s : str) (i : Z) (c : ascii) :
  char_at s i = Some c -> 0 <= i < len s.
Proof.
  unfold char_at, len. zcases; [discriminate|].
  intros E. assert (nth_error s (Z.to_nat i) <> None) as Hn by congruence.
  apply nth_error_Some in Hn. lia.
Qed.

Lemma char_at_of_nat (s : str) (j : nat) :
  char_at s (Z.of_nat j) = nth_error s j.
Proof.
  unfold char_at. zcases; [lia|]. now rewrite Nat2Z.id.
Qed.

(** ** The escape test *)

Lemma backslash_loop (text : str) (j fuel : nat) (num : Z) :
  (j <= fuel)%nat -> (j <= length text)%nat ->
  exists t,
    while (backslash_cond text) backslash_body fuel (Z.of_nat j - 1, num)
    = Returns (t, num + Z.of_nat (backslash_run text j)).
Proof.
  revert fuel num.
  induction j as [|j IH]; intros fuel num Hf Hl.
  - exists (-1). destruct fuel; simpl; f_equal; f_equal; lia.
  - destruct fuel as [|fuel]; [lia|].
    destruct (py_index_in_range text (Z.of_nat j)) as (c & Hc & Hat);
      [unfold len; lia|].
    rewrite char_at_of_nat in Hat.
    replace (Z.of_nat (S j) - 1) with (Z.of_nat j) by lia.
    cbn [while backslash_cond bind].
    destruct (Z.of_nat j >=? 0) eqn:E; [|lia].
    rewrite Hc. cbn [bind backslash_run]. rewrite Hat.
    destruct (Ascii.eqb c backslash).
    + cbn [backslash_body bind].
      destruct (IH fuel (num + 1)) as (t & Ht); [lia|lia|].
      exists t. rewrite Ht. f_equal. f_equal. lia.
    + exists (Z.of_nat j). f_equal. f_equal. lia.
Qed.

Lemma count_backslashes_spec (text : str) (pos : Z) :
  pos <= len text ->
  count_backslashes text pos = Returns (preceding_backslashes text pos).
Proof.
  intros Hp. unfold count_backslashes, preceding_backslashes.
  destruct (Z.le_gt_cases 0 pos) as [H0|H0].
  - destruct (backslash_loop text (Z.to_nat pos) (Z.to_nat pos) 0) as (t & Ht);
      [lia|unfold len in Hp; lia|].
    rewrite Z2Nat.id in Ht by assumption. rewrite Ht. reflexivity.
  - replace (Z.to_nat pos) with O by lia. simpl.
    destruct (pos - 1 >=? 0) eqn:E; [lia|]. reflexivity.
Qed.

Lemma odd_mod2 (n : Z) : (n mod 2 =? 1) = Z.odd n.
Proof.
  rewrite (Zmod_odd n). destruct (Z.odd n); reflexivity.
Qed.

(** The run counted by [backslash_run] consists of backslashes and is not
    preceded by one more. *)
Lemma backslash_run_le (text : str) (i : nat) : (backslash_run text i <= i)%nat.
Proof.
  induction i as [|i IH]; simpl; [lia|].
  destruct (nth_error text i) as [c|]; [|lia].
  destruct (Ascii.eqb c backslash); lia.
Qed.

Lemma backslash_run_all (text : str) (i j : nat) :
  (i - backslash_run text i <= j < i)%nat ->
  nth_error text j = Some backslash.
Proof.
  revert j. induction i as [|i IH]; intros j Hj; [lia|].
  simpl in Hj. destruct (nth_error text i) as [c|] eqn:Ec; [|lia].
  destruct (Ascii.eqb c backslash) eqn:Eb; [|lia].
  apply Ascii.eqb_eq in Eb. subst c.
  destruct (Nat.eq_dec j i) as [->|Hne]; [assumption|].
  apply IH. pose proof (backslash_run_le text i). lia.
Qed.

Lemma backslash_run_maximal (text : str) (i : nat) :
  (backslash_run text i < i)%nat ->
  nth_error text (i - backslash_run text i - 1) <> Some backslash.
Proof.
  induction i as [|i IH]; intros Hlt; [lia|].
  cbn [backslash_run] in *. destruct (nth_error text i) as [c|] eqn:Ec.
  - destruct (Ascii.eqb c backslash) eqn:Eb.
    + replace (S i - S (backslash_run text i) - 1)%nat
        with (i - backslash_run text i - 1)%nat by lia.
      apply IH. lia.
    + replace (S i - 0 - 1)%nat with i by lia. rewrite Ec.
      intros [= ->]. rewrite Ascii.eqb_refl in Eb. discriminate.
  - replace (S i - 0 - 1)%nat with i by lia. rewrite Ec. discriminate.
Qed.

(** ** One iteration of the brace loop *)

Lemma brace_body_spec (text : str) (pos count : Z) :
  0 <= pos < len text ->
  brace_body text (pos, count)
  = Returns (pos + 1, count + depth_change text pos).
Proof.
  intros Hp. unfold brace_body.
  destruct (py_index_in_range text pos Hp) as (c & Hc & Hat).
  rewrite Hc. cbn [bind].
  rewrite count_backslashes_spec by lia. cbn [bind].
  unfold depth_change, escaped. rewrite Hat, odd_mod2.
  destruct (Z.odd (preceding_backslashes text pos)); simpl.
  - f_equal. f_equal. lia.
  - destruct (Ascii.eqb c lbrace); [reflexivity|].
    destruct (Ascii.eqb c rbrace); f_equal; f_equal; lia.
Qed.

Lemma depth_change_bounds (text : str) (i : Z) :
  -1 <= depth_change text i <= 1.
Proof.
  unfold depth_change. destruct (char_at text i); [|lia].
  destruct (escaped text i); [lia|].
  destruct (Ascii.eqb _ lbrace); [lia|].
  destruct (Ascii.eqb _ rbrace); lia.
Qed.

Lemma depth_change_closing (text : str) (i : Z) :
  depth_change text i = -1 <-> unescaped text i rbrace.
Proof.
  unfold depth_change, unescaped. split.
  - destruct (char_at text i) as [c|]; [|lia].
    destruct (escaped text i); [lia|].
    destruct (Ascii.eqb c lbrace); [lia|].
    destruct (Ascii.eqb c rbrace) eqn:E; [|lia].
    apply Ascii.eqb_eq in E. subst. auto.
  - intros [-> ->]. reflexivity.
Qed.

Lemma depth_start (text : str) (start : Z) : depth text start start = 1.
Proof. unfold depth. now rewrite Z.sub_diag. Qed.

Lemma depth_succ (text : str) (start k : Z) :
  start <= k ->
  depth text start (k + 1) = depth text start k + depth_change text k.
Proof.
  intros Hk. unfold depth.
  replace (Z.to_nat (k + 1 - start)) with (S (Z.to_nat (k - start))) by lia.
  cbn [depth_from]. do 2 f_equal. lia.
Qed.

(** ** The brace loop *)

Lemma brace_loop_spec (text : str) (start : Z) (fuel : nat) :
  0 <= start <= len text ->
  (Z.to_nat (len text - start) <= fuel)%nat ->
  exists pos count,
    while (brace_cond text) (brace_body text) fuel (start, 1)
    = Returns (pos, count)
    /\ brace_inv text start (pos, count)
    /\ (pos < len text -> count = 0).
Proof.
  intros Hs Hf.
  destruct (while_rule (brace_cond text) (brace_body text)
              (brace_inv text start)
              (fun s => Z.to_nat (len text - fst s))) with (fuel := fuel)
              (s := (start, 1)) as ([pos count] & Hw & Hinv & Hc).
  - intros [pos count] _. simpl. eauto.
  - intros [pos count] (Hr & Hd & H0 & Hpre & Hz) Hc.
    simpl in Hc. injection Hc as Hc.
    apply andb_prop in Hc as [Hlt Hgt].
    apply Z.ltb_lt in Hlt. rewrite Z.gtb_ltb in Hgt. apply Z.ltb_lt in Hgt.
    exists (pos + 1, count + depth_change text pos).
    split; [apply brace_body_spec; lia|].
    pose proof (depth_change_bounds text pos) as Hb.
    split; [|simpl; lia].
    unfold brace_inv.
    split; [lia|]. split; [rewrite depth_succ by lia; lia|].
    split; [lia|]. split.
    + intros k Hk. destruct (Z.eq_dec k pos) as [->|Hne]; [lia|].
      apply Hpre. lia.
    + intros Hz'. split; [lia|].
      replace (pos + 1 - 1) with pos by lia.
      apply depth_change_closing. lia.
  - unfold brace_inv. rewrite depth_start.
    split; [lia|]. split; [reflexivity|]. split; [lia|].
    split; intros; lia.
  - simpl. assumption.
  - exists pos, count. split; [assumption|]. split; [assumption|].
    intros Hlt. simpl in Hc. injection Hc as Hc.
    destruct Hinv as (_ & _ & H0 & _).
    apply andb_false_iff in Hc as [Hc|Hc].
    + apply Z.ltb_ge in Hc. lia.
    + rewrite Z.gtb_ltb in Hc. apply Z.ltb_ge in Hc. lia.
Qed.

(** The two ways [find_matching_brace] ends from a position [0 <= start]. *)
Lemma find_matching_brace_cases (text : str) (start : Z) :
  0 <= start ->
  (exists e, find_matching_brace text start = Returns e
             /\ closes_at text start e)
  \/ (find_matching_brace text start = Returns (-1)
      /\ forall k, start <= k <= len text -> depth text start k > 0).
Proof.
  intros Hs. unfold find_matching_brace.
  destruct (start >=? len text) eqn:Eg.
  - right. rewrite orb_true_r. split; [reflexivity|].
    intros k Hk. rewrite Z.geb_leb in Eg. apply Z.leb_le in Eg.
    replace k with start by lia. rewrite depth_start. lia.
  - rewrite Z.geb_leb in Eg. apply Z.leb_gt in Eg.
    replace (match text with [] => true | _ :: _ => false end) with false
      by (destruct text; [unfold len in Eg; simpl in Eg; lia|reflexivity]).
    cbn [orb].
    destruct (brace_loop_spec text start (Z.to_nat (len text - start)))
      as (pos & count & Hw & (Hr & Hd & H0 & Hpre & Hz) & Hend); [lia|lia|].
    rewrite Hw. cbn [bind].
    destruct (Z.eqb_spec count 0) as [->|Hne].
    + left. exists pos. split; [reflexivity|].
      destruct Hz as [Hlt Hu]; [reflexivity|].
      unfold closes_at. repeat split; try lia; try apply Hu. assumption.
    + right. split; [reflexivity|].
      assert (pos = len text) as -> by (destruct (Z.lt_ge_cases pos (len text)); [exfalso; auto|lia]).
      intros k Hk. destruct (Z.eq_dec k (len text)) as [->|Hk'].
      * lia.
      * apply Hpre. lia.
Qed.

Lemma closes_at_unique (text : str) (start e e' : Z) :
  closes_at text start e -> closes_at text start e' -> e = e'.
Proof.
  intros (Hr & _ & Hd & Hpre) (Hr' & _ & Hd' & Hpre').
  destruct (Z.lt_trichotomy e e') as [Hlt|[Heq|Hgt]]; [|assumption|].
  - specialize (Hpre' e). lia.
  - specialize (Hpre e'). lia.
Qed.

(** From [0 <= start] the matcher returns, and returns [-1] or a position
    past [start]. *)
Lemma find_matching_brace_returns (text : str) (start : Z) :
  0 <= start ->
  exists e, find_matching_brace text start = Returns e
            /\ (e = -1 \/ closes_at text start e).
Proof.
  intros Hs. destruct (find_matching_brace_cases text start Hs)
    as [(e & He & Hc)|[He _]]; eauto.
Qed.

(** Whatever the start position, the fuel of the loops is enough. *)
Lemma py_index_fuel (s : str) (i : Z) : py_index s i <> OutOfFuel.
Proof.
  unfold py_index. destruct (_ || _); [discriminate|].
  destruct (nth_error _ _); discriminate.
Qed.

Lemma find_matching_brace_fuel (text : str) (start_pos : Z) :
  find_matching_brace text start_pos <> OutOfFuel.
Proof.
  unfold find_matching_brace. destruct (_ || _); [discriminate|].
  pose proof (while_fuel_enough (brace_cond text) (brace_body text)
                (fun s => Z.to_nat (len text - fst s))
                (Z.to_nat (len text - start_pos)) (start_pos, 1)) as H.
  destruct (while _ _ _ _) as [[pos count]| |]; simpl; try discriminate.
  exfalso. apply H; [| |simpl; lia|reflexivity]; clear H.
  - intros [pos count]. discriminate.
  - intros [pos count] Hc. simpl in Hc. injection Hc as Hc.
    apply andb_prop in Hc as [Hlt _]. apply Z.ltb_lt in Hlt.
    unfold brace_body.
    pose proof (py_index_fuel text pos) as Hi.
    destruct (py_index text pos) as [c| |]; simpl; try congruence;
      [|repeat split; try discriminate; lia].
    rewrite count_backslashes_spec by lia. simpl.
    repeat split; try discriminate; try lia.
    intros s' [= <-]. simpl. lia.
Qed.

Lemma skip_whitespace_fuel (text : str) (pos : Z) :
  skip_whitespace text pos <> OutOfFuel.
Proof.
  unfold skip_whitespace.
  apply (while_fuel_enough (skip_cond text) skip_body
           (fun o => Z.to_nat (len text - o))); [| |lia].
  - intros o. unfold skip_cond. destruct (o <? len text); [|discriminate].
    pose proof (py_index_fuel text o).
    destruct (py_index text o); simpl; congruence.
  - intros o Hc. unfold skip_cond in Hc.
    destruct (Z.ltb_spec o (len text)); [|discriminate].
    repeat split; try discriminate; try lia.
    intros s' [= <-]. lia.
Qed.

Lemma extract_latex_args_fuel (text : str) (start num_args : Z) :
  extract_latex_args text start num_args <> OutOfFuel.
Proof.
  unfold extract_latex_args. destruct (_ || _ || _); [discriminate|].
  generalize (@nil str) as args. generalize start at 2 as pos.
  induction (Z.to_nat num_args) as [|n IH]; intros pos args;
    [discriminate|].
  cbn [extract_loop].
  pose proof (skip_whitespace_fuel text pos).
  destruct (skip_whitespace text pos) as [o| |]; simpl; try congruence.
  destruct (o >=? len text); [discriminate|].
  pose proof (py_index_fuel text o).
  destruct (py_index text o) as [c| |]; simpl; try congruence.
  destruct (negb _); [discriminate|].
  pose proof (find_matching_brace_fuel text (o + 1)).
  destruct (find_matching_brace text (o + 1)) as [e| |]; simpl;
    try congruence.
  destruct (e =? -1); [discriminate|]. apply IH.
Qed.

(** ** The argument loop *)

Lemma slice_bound_in_range (s : str) (i : Z) :
  0 <= i <= len s -> slice_bound s i = i.
Proof. intros Hi. unfold slice_bound. zcases; lia. Qed.

Lemma py_slice_between (s : str) (i j : Z) :
  0 <= i <= len s -> 0 <= j <= len s -> py_slice s i j = between s i j.
Proof.
  intros Hi Hj. unfold py_slice, between.
  now rewrite !slice_bound_in_range by assumption.
Qed.

Lemma is_blank_spec (c : ascii) :
  is_blank c = true <-> c = space \/ c = tab \/ c = newline.
Proof.
  unfold is_blank. rewrite !orb_true_iff, !Ascii.eqb_eq. tauto.
Qed.

Lemma skip_whitespace_spec (text : str) (pos : Z) :
  0 <= pos ->
  exists o, skip_whitespace text pos = Returns o
            /\ blank_run text pos o
            /\ (o < len text ->
                exists c, char_at text o = Some c /\ is_blank c = false).
Proof.
  intros Hp.
  destruct (while_rule (skip_cond text) skip_body
              (fun o => blank_run text pos o)
              (fun o => Z.to_nat (len text - o)))
    with (fuel := Z.to_nat (len text - pos)) (s := pos)
    as (o & Hw & Hinv & Hc).
  - intros o [Hle _]. unfold skip_cond. zcases; [|eauto].
    destruct (py_index_in_range text o) as (c & -> & _); [lia|].
    simpl. eauto.
  - intros o [Hle Hall] Hc. unfold skip_cond in Hc.
    destruct (Z.ltb_spec o (len text)) as [Hlt|Hge]; [|discriminate].
    destruct (py_index_in_range text o) as (c & Hi & Hat); [lia|].
    rewrite Hi in Hc. simpl in Hc. injection Hc as Hc.
    exists (o + 1). split; [reflexivity|]. split; [|lia].
    split; [lia|]. intros k Hk.
    destruct (Z.eq_dec k o) as [->|Hne]; [|apply Hall; lia].
    exists c. split; [assumption|]. now apply is_blank_spec.
  - split; [lia|]. intros k Hk. lia.
  - lia.
  - exists o. split; [exact Hw|]. split; [exact Hinv|].
    intros Hlt. destruct Hinv as [Hle _]. unfold skip_cond in Hc.
    destruct (Z.ltb_spec o (len text)) as [_|Hge]; [|lia].
    destruct (py_index_in_range text o) as (c & Hi & Hat); [lia|].
    rewrite Hi in Hc. simpl in Hc. injection Hc as Hc. eauto.
Qed.

Lemma closes_at_range (text : str) (start e : Z) :
  closes_at text start e -> start + 1 <= e <= len text.
Proof. intros (Hr & _). lia. Qed.

Lemma args_from_length (text : str) (pos : Z) (args : list str) (end_ : Z) :
  args_from text pos args end_ ->
  pos + 2 * Z.of_nat (length args) <= end_.
Proof.
  induction 1 as [pos|pos o e rest end_ [Hb _] _ Hc _ IH].
  - simpl. lia.
  - apply closes_at_range in Hc. simpl length. lia.
Qed.

Lemma args_from_end (text : str) (pos : Z) (args : list str) (end_ : Z) :
  args_from text pos args end_ -> args <> [] -> end_ <= len text.
Proof.
  induction 1 as [pos|pos o e rest end_ _ _ Hc Hr IH]; [congruence|].
  intros _. destruct rest as [|a rest].
  - inversion Hr; subst. now apply closes_at_range in Hc.
  - apply IH. discriminate.
Qed.

(** The loop from a position [0 <= pos]: it returns, either the failure
    with the original [start] or [n] more arguments. *)
Lemma extract_loop_spec (text : str) (start : Z) (n : nat) :
  forall (args : list str) (pos : Z),
  0 <= pos ->
  extract_loop text start n args pos = Returns (None, start)
  \/ exists new end_,
       extract_loop text start n args pos = Returns (Some (args ++ new), end_)
       /\ length new = n
       /\ args_from text pos new end_.
Proof.
  induction n as [|n IH]; intros args pos Hp.
  - right. exists [], pos. rewrite app_nil_r. repeat split. constructor.
  - cbn [extract_loop].
    destruct (skip_whitespace_spec text pos Hp) as (o & -> & Hb & Hnb).
    cbn [bind]. destruct (Z.leb_spec (len text) o) as [Hge|Hlt].
    + rewrite Z.geb_leb. left.
      destruct (Z.leb_spec (len text) o); [reflexivity|lia].
    + rewrite Z.geb_leb. destruct (Z.leb_spec (len text) o); [lia|].
      destruct Hb as [Hle Hall].
      destruct (py_index_in_range text o) as (c & -> & Hat); [lia|].
      cbn [bind]. destruct (Ascii.eqb c lbrace) eqn:Ec; [|left; reflexivity].
      apply Ascii.eqb_eq in Ec. subst c. cbn [negb].
      destruct (find_matching_brace_cases text (o + 1))
        as [(e & -> & Hc)|[-> _]]; [lia| |left; reflexivity].
      cbn [bind]. pose proof (closes_at_range _ _ _ Hc) as Hr.
      destruct (Z.eqb_spec e (-1)) as [->|_]; [lia|].
      rewrite py_slice_between by lia.
      destruct (IH (args ++ [between text (o + 1) (e - 1)]) e)
        as [->|(new & end_ & -> & Hn & Ha)]; [lia|now left|].
      right. exists (between text (o + 1) (e - 1) :: new), end_.
      rewrite <- app_assoc. split; [reflexivity|].
      split; [simpl; now rewrite Hn|].
      econstructor; eauto. split; assumption.
Qed.

Lemma extract_latex_args_spec (text : str) (start num_args : Z) :
  0 <= start ->
  extract_latex_args text start num_args = Returns (None, start)
  \/ exists args end_,
       extract_latex_args text start num_args = Returns (Some args, end_)
       /\ Z.of_nat (length args) = num_args /\ 1 <= num_args
       /\ args_from text start args end_.
Proof.
  intros Hs. unfold extract_latex_args.
  destruct (_ || _ || _) eqn:Eg; [now left|].
  apply orb_false_iff in Eg as [_ En]. apply Z.leb_gt in En.
  destruct (extract_loop_spec text start (Z.to_nat num_args) [] start Hs)
    as [->|(new & end_ & -> & Hn & Ha)]; [now left|].
  right. exists new, end_. simpl. repeat split; try assumption; lia.
Qed.

(** What a returned value looks like, whatever the start position. *)
Lemma extract_loop_result (text : str) (start : Z) (n : nat) :
  forall (args : list str) (pos : Z) (r : option (list str)) (p : Z),
  extract_loop text start n args pos = Returns (r, p) ->
  match r with
  | None => p = start
  | Some l => length l = (length args + n)%nat
  end.
Proof.
  induction n as [|n IH]; intros args pos r p.
  - simpl. intros [= <- <-]. lia.
  - cbn [extract_loop].
    destruct (skip_whitespace text pos) as [o| |]; cbn [bind]; try discriminate.
    destruct (o >=? len text); [now intros [= <- <-]|].
    destruct (py_index text o) as [c| |]; cbn [bind]; try discriminate.
    destruct (negb (Ascii.eqb c lbrace)); [now intros [= <- <-]|].
    destruct (find_matching_brace text (o + 1)) as [e| |]; cbn [bind];
      try discriminate.
    destruct (e =? -1); [now intros [= <- <-]|].
    intros H. apply IH in H. destruct r; [|assumption].
    rewrite H, length_app. simpl. lia.
Qed.

Lemma extract_latex_args_result (text : str) (start num_args : Z)
    (r : option (list str)) (p : Z) :
  extract_latex_args text start num_args = Returns (r, p) ->
  match r with
  | None => p = start
  | Some l => Z.of_nat (length l) = num_args /\ 1 <= num_args
  end.
Proof.
  unfold extract_latex_args.
  destruct (_ || _ || _) eqn:Eg; [now intros [= <- <-]|].
  apply orb_false_iff in Eg as [_ En]. apply Z.leb_gt in En.
  intros H. apply extract_loop_result in H. destruct r; [|assumption].
  simpl in H. lia.
Qed.

(** Conversely the loop finds the brace groups that are there. *)
Lemma blank_run_stop (text : str) (pos o o' : Z) :
  blank_run text pos o -> char_at text o = Some lbrace ->
  blank_run text pos o' ->
  (o' < len text -> exists c, char_at text o' = Some c /\ is_blank c = false) ->
  o' = o.
Proof.
  intros [Hle Hall] Hopen [Hle' Hall'] Hstop.
  pose proof (char_at_Some_range _ _ _ Hopen) as Hr.
  destruct (Z.lt_trichotomy o' o) as [Hlt|[Heq|Hgt]]; [|assumption|].
  - destruct Hstop as (c & Hc & Hnb); [lia|].
    destruct (Hall o') as (c' & Hc' & Hb); [lia|].
    rewrite Hc in Hc'. injection Hc' as <-.
    apply is_blank_spec in Hb. congruence.
  - destruct (Hall' o) as (c & Hc & Hb); [lia|].
    rewrite Hopen in Hc. injection Hc as <-.
    apply is_blank_spec in Hb. discriminate Hb.
Qed.

Lemma find_matching_brace_closes (text : str) (start e : Z) :
  0 <= start -> closes_at text start e ->
  find_matching_brace text start = Returns e.
Proof.
  intros Hs Hc.
  destruct (find_matching_brace_cases text start Hs)
    as [(e' & He & Hc')|[_ Hpos]].
  - now rewrite (closes_at_unique _ _ _ _ Hc Hc').
  - destruct Hc as (Hr & _ & Hd & _). specialize (Hpos e). lia.
Qed.

Lemma extract_loop_complete (text : str) (start : Z) :
  forall (new : list str) (pos end_ : Z) (args : list str),
  args_from text pos new end_ -> 0 <= pos ->
  extract_loop text start (length new) args pos
  = Returns (Some (args ++ new), end_).
Proof.
  intros new pos end_ args Ha. revert args.
  induction Ha as [pos|pos o e rest end_ Hb Hopen Hc _ IH]; intros args Hp.
  - simpl. now rewrite app_nil_r.
  - cbn [length extract_loop].
    destruct (skip_whitespace_spec text pos Hp) as (o' & -> & Hb' & Hstop).
    cbn [bind].
    rewrite (blank_run_stop _ _ _ _ Hb Hopen Hb' Hstop).
    pose proof (char_at_Some_range _ _ _ Hopen) as Hr.
    rewrite Z.geb_leb. destruct (Z.leb_spec (len text) o); [lia|].
    destruct (py_index_in_range text o Hr) as (c & -> & Hat).
    rewrite Hopen in Hat. injection Hat as <-. cbn [bind].
    rewrite Ascii.eqb_refl. cbn [negb].
    rewrite (find_matching_brace_closes text (o + 1) e) by (assumption || lia).
    cbn [bind]. pose proof (closes_at_range _ _ _ Hc).
    destruct (Z.eqb_spec e (-1)); [lia|].
    rewrite py_slice_between by lia.
    rewrite IH by lia. now rewrite <- app_assoc.
Qed.

Lemma extract_latex_args_complete (text : str) (start : Z)
    (args : list str) (end_ : Z) :
  0 <= start -> args <> [] -> args_from text start args end_ ->
  extract_latex_args text start (Z.of_nat (length args))
  = Returns (Some args, end_).
Proof.
  intros Hs Hne Ha. unfold extract_latex_args.
  assert (start < len text) as Hlt.
  { inversion Ha as [|pos o e rest end' [Hle _] Hopen _ _]; subst;
      [congruence|].
    apply char_at_Some_range in Hopen. lia. }
  assert (1 <= Z.of_nat (length args)) as Hn
    by (destruct args; [congruence|simpl length; lia]).
  replace (match text with [] => true | _ :: _ => false end) with false
    by (destruct text; [unfold len in Hlt; simpl in Hlt; lia|reflexivity]).
  rewrite Z.geb_leb. destruct (Z.leb_spec (len text) start); [lia|].
  destruct (Z.leb_spec (Z.of_nat (length args)) 0); [lia|]. cbn [orb].
  rewrite Nat2Z.id.
  now rewrite (extract_loop_complete text start args start end_ [] Ha Hs).
Qed.

(** ** Searching *)

Section SearchFacts.
Context {M : Type}.
Variable match_here : str -> option M.

Lemma re_search_from_Some (s : str) :
  forall (i j : Z) (m : M),
  re_search_from match_here i s = Some (j, m) ->
  exists k : nat,
    j = i + Z.of_nat k /\ (k <= length s)%nat
    /\ match_here (skipn k s) = Some m
    /\ forall k', (k' < k)%nat -> match_here (skipn k' s) = None.
Proof.
  induction s as [|c s IH]; intros i j m; cbn [re_search_from].
  - destruct (match_here []) as [m'|] eqn:E; [|discriminate].
    intros [= <- <-]. exists O. repeat split; try assumption; try lia.
  - destruct (match_here (c :: s)) as [m'|] eqn:E.
    + intros [= <- <-]. exists O. repeat split; try assumption; simpl; lia.
    + intros H. apply IH in H as (k & -> & Hk & Hm & Hnone).
      exists (S k). repeat split; try assumption; try (simpl; lia).
      intros [|k'] Hlt; [assumption|]. apply Hnone. lia.
Qed.

Lemma re_search_from_None (s : str) :
  forall (i : Z),
  re_search_from match_here i s = None ->
  forall k : nat, match_here (skipn k s) = None.
Proof.
  induction s as [|c s IH]; intros i; cbn [re_search_from].
  - destruct (match_here []) eqn:E; [discriminate|].
    intros _ k. now rewrite skipn_nil.
  - destruct (match_here (c :: s)) eqn:E; [discriminate|].
    intros H [|k]; [assumption|]. simpl. eapply IH, H.
Qed.
End SearchFacts.

Lemma strip_prefix_Some (p s r : str) :
  strip_prefix p s = Some r <-> s = p ++ r.
Proof.
  revert s. induction p as [|a p IH]; intros s; simpl.
  - split; [now intros [= ->]|now intros ->].
  - destruct s as [|b s].
    + split; discriminate.
    + destruct (Ascii.eqb_spec a b) as [->|Hne].
      * rewrite IH. split; [now intros ->|now intros [= ->]].
      * split; [discriminate|]. intros [= <- _]. congruence.
Qed.

Lemma py_slice_from_skipn (text : str) (pos : Z) :
  0 <= pos -> py_slice_from text pos = skipn (Z.to_nat pos) text.
Proof.
  intros Hp. unfold py_slice_from, slice_bound.
  destruct (Z.ltb_spec pos 0); [lia|].
  destruct (Z.le_gt_cases pos (len text)) as [Hle|Hgt].
  - now rewrite Z.min_l, Z.max_r by lia.
  - rewrite Z.min_r, Z.max_r by (pose proof (len_nonneg text); lia).
    unfold len in *. rewrite Nat2Z.id.
    rewrite !skipn_all2 by lia. reflexivity.
Qed.

Lemma marker_at_room (text : str) (i : Z) :
  marker_at text i = true -> 0 <= i /\ i + len cventry_marker <= len text.
Proof.
  unfold marker_at. intros H. apply andb_prop in H as [H0 H].
  apply Z.leb_le in H0. split; [assumption|].
  destruct (strip_prefix _ _) as [r|] eqn:E; [|discriminate].
  apply strip_prefix_Some in E.
  apply (f_equal (@length ascii)) in E.
  rewrite length_skipn, length_app in E. unfold len.
  change (length cventry_marker) with 8%nat in *. lia.
Qed.

Lemma search_cventry_Some (text : str) (pos a b : Z) :
  0 <= pos ->
  search_cventry (py_slice_from text pos) = Some (a, b) ->
  0 <= a /\ b = a + len cventry_marker
  /\ marker_at text (pos + a) = true
  /\ forall k, pos <= k < pos + a -> marker_at text k = false.
Proof.
  intros Hp. unfold search_cventry, re_search.
  rewrite py_slice_from_skipn by assumption.
  destruct (re_search_from _ _ _) as [[i n]|] eqn:E; [|discriminate].
  intros [= <- <-].
  apply re_search_from_Some in E as (k & -> & _ & Hm & Hnone).
  unfold cventry_here in Hm, Hnone. rewrite skipn_skipn in Hm.
  destruct (strip_prefix _ _) as [r|] eqn:Er in Hm; [|discriminate].
  injection Hm as <-.
  split; [lia|]. split; [reflexivity|]. split.
  - unfold marker_at.
    replace (Z.to_nat (pos + (0 + Z.of_nat k))) with (k + Z.to_nat pos)%nat
      by lia.
    rewrite Er. destruct (Z.leb_spec 0 (pos + (0 + Z.of_nat k))); [reflexivity|lia].
  - intros j Hj. unfold marker_at.
    specialize (Hnone (Z.to_nat (j - pos))). rewrite skipn_skipn in Hnone.
    replace (Z.to_nat (j - pos) + Z.to_nat pos)%nat with (Z.to_nat j) in Hnone
      by lia.
    assert (Z.to_nat (j - pos) < k)%nat as Hlt by lia.
    specialize (Hnone Hlt).
    destruct (strip_prefix cventry_marker (skipn (Z.to_nat j) text));
      [discriminate|apply andb_false_r].
Qed.

Lemma search_cventry_None (text : str) (pos : Z) :
  0 <= pos ->
  search_cventry (py_slice_from text pos) = None ->
  forall k, pos <= k -> marker_at text k = false.
Proof.
  intros Hp. unfold search_cventry, re_search.
  rewrite py_slice_from_skipn by assumption.
  destruct (re_search_from _ _ _) as [[i n]|] eqn:E; [discriminate|].
  intros _ k Hk. unfold marker_at.
  pose proof (re_search_from_None _ _ _ E (Z.to_nat (k - pos))) as Hnone.
  unfold cventry_here in Hnone. rewrite skipn_skipn in Hnone.
  replace (Z.to_nat (k - pos) + Z.to_nat pos)%nat with (Z.to_nat k) in Hnone
    by lia.
  destruct (strip_prefix cventry_marker (skipn (Z.to_nat k) text));
    [discriminate|apply andb_false_r].
Qed.

(** ** One iteration of the scan *)

Lemma cventry_step_cases (text : str) (pos : Z) :
  0 <= pos ->
  (cventry_step text pos = Returns Break
   /\ forall k, pos <= k -> marker_at text k = false)
  \/ exists i,
       pos <= i /\ marker_at text i = true
       /\ (forall k, pos <= k < i -> marker_at text k = false)
       /\ ((exists e end_pos,
              entry_at text i = Some (e, end_pos)
              /\ cventry_step text pos = Returns (Parsed e end_pos)
              /\ i + len cventry_marker < end_pos <= len text)
           \/ (entry_at text i = None
               /\ cventry_step text pos
                  = Returns (Skipped (i + len cventry_marker + 1)))).
Proof.
  intros Hp. unfold cventry_step.
  destruct (search_cventry (py_slice_from text pos)) as [[a b]|] eqn:Es.
  - right. apply search_cventry_Some in Es as (Ha & -> & Hm & Hnone);
      [|assumption].
    exists (pos + a). split; [lia|]. split; [assumption|].
    split; [assumption|].
    unfold entry_at.
    replace (pos + (a + len cventry_marker))
      with (pos + a + len cventry_marker) by lia.
    apply marker_at_room in Hm as [H0 Hroom].
    destruct (extract_latex_args_spec text (pos + a + len cventry_marker) 4)
      as [->|(args & end_ & -> & Hn & _ & Hargs)].
    + pose proof (len_nonneg cventry_marker). lia.
    + right. split; reflexivity.
    + left. pose proof (args_from_length _ _ _ _ Hargs) as Hlen.
      assert (args <> []) as Hne by (intros ->; simpl in Hn; lia).
      pose proof (args_from_end _ _ _ _ Hargs Hne) as Hend.
      destruct args as [|a1 [|a2 [|a3 [|a4 [|a5 args]]]]];
        simpl in Hn; try lia.
      eexists _, _. split; [reflexivity|]. split; [reflexivity|].
      simpl length in Hlen. lia.
  - left. split; [reflexivity|]. now apply search_cventry_None.
Qed.

(** ** The scan loop *)

Lemma cventry_loop_spec (text : str) (fuel : nat) :
  forall (entries : list entry) (pos : Z),
  0 <= pos -> (Z.to_nat (len text - pos) <= fuel)%nat ->
  exists new,
    cventry_loop fuel text entries pos = Returns (entries ++ new)
    /\ scan_from text pos new.
Proof.
  induction fuel as [|fuel IH]; intros entries pos Hp Hf.
  - destruct (cventry_step_cases text pos Hp)
      as [[Hs Hnone]|(i & Hi & Hm & _)].
    + exists []. simpl. rewrite Hs. simpl. rewrite app_nil_r.
      split; [reflexivity|now constructor].
    + apply marker_at_room in Hm.
      change (len cventry_marker) with 8 in Hm. lia.
  - destruct (cventry_step_cases text pos Hp)
      as [[Hs Hnone]|(i & Hi & Hm & Hfirst & Hcase)].
    + exists []. simpl. rewrite Hs. simpl. rewrite app_nil_r.
      split; [reflexivity|now constructor].
    + pose proof (marker_at_room _ _ Hm) as [H0 Hroom].
      change (len cventry_marker) with 8 in *.
      destruct Hcase as [(e & end_pos & He & Hs & Hend)|[He Hs]].
      * destruct (IH (entries ++ [e]) end_pos) as (new & Hl & Hscan);
          [lia|lia|].
        exists (e :: new). cbn [cventry_loop]. rewrite Hs. cbn [bind].
        rewrite Hl, <- app_assoc. split; [reflexivity|].
        eapply scan_parsed; eauto.
      * destruct (IH entries (i + 8 + 1)) as (new & Hl & Hscan);
          [lia|lia|].
        exists new. cbn [cventry_loop]. rewrite Hs. cbn [bind].
        split; [exact Hl|]. eapply scan_skipped; eauto.
Qed.

(** ** The records of a separated document *)

Lemma in_offsets (a b x : Z) : In x (offsets a b) <-> a <= x < b.
Proof.
  unfold offsets. rewrite in_map_iff. split.
  - intros (k & <- & Hk). apply in_seq in Hk. lia.
  - intros Hx. exists (Z.to_nat (x - a)). split; [lia|].
    apply in_seq. lia.
Qed.

Lemma map_seq_shift {A : Type} (f : nat -> A) (n : nat) :
  forall s l : nat,
  map f (seq (n + s) l) = map (fun k => f (n + k)%nat) (seq s l).
Proof.
  intros s l. revert s. induction l as [|l IH]; intros s; [reflexivity|].
  simpl. f_equal. rewrite <- IH. do 2 f_equal. lia.
Qed.

Lemma offsets_split (a m b : Z) :
  a <= m <= b -> offsets a b = offsets a m ++ offsets m b.
Proof.
  intros Hm. unfold offsets.
  replace (Z.to_nat (b - a))
    with (Z.to_nat (m - a) + Z.to_nat (b - m))%nat by lia.
  rewrite seq_app, map_app. f_equal.
  replace (0 + Z.to_nat (m - a))%nat with (Z.to_nat (m - a) + 0)%nat by lia.
  rewrite map_seq_shift. apply map_ext. intros k. lia.
Qed.

Lemma offsets_first (a b : Z) : a < b -> offsets a b = a :: offsets (a + 1) b.
Proof.
  intros Hab. rewrite (offsets_split a (a + 1) b) by lia.
  unfold offsets at 1. replace (Z.to_nat (a + 1 - a)) with 1%nat by lia.
  simpl. f_equal. lia.
Qed.

Lemma filter_none {A : Type} (f : A -> bool) (l : list A) :
  (forall x, In x l -> f x = false) -> filter f l = [].
Proof.
  induction l as [|x l IH]; intros H; [reflexivity|]. simpl.
  rewrite (H x) by now left. apply IH. intros y Hy. apply H. now right.
Qed.

Lemma records_in_none (text : str) (a b : Z) :
  (forall k, a <= k < b -> marker_at text k = false) ->
  records_in text a b = [].
Proof.
  intros H. unfold records_in. rewrite filter_none; [reflexivity|].
  intros x Hx. apply H. now apply in_offsets.
Qed.

Lemma records_in_skip (text : str) (a m b : Z) :
  a <= m <= b ->
  (forall k, a <= k < m -> marker_at text k = false) ->
  records_in text a b = records_in text m b.
Proof.
  intros Hm H. unfold records_in.
  rewrite (offsets_split a m b Hm), filter_app, flat_map_app.
  fold (records_in text a m). now rewrite records_in_none.
Qed.

Lemma records_in_first (text : str) (i b : Z) :
  marker_at text i = true -> i < b ->
  records_in text i b = record_at text i ++ records_in text (i + 1) b.
Proof.
  intros Hm Hb. unfold records_in. rewrite offsets_first by assumption.
  simpl. now rewrite Hm.
Qed.

Lemma char_at_skipn (text : str) (i : Z) (k : nat) :
  0 <= i -> nth_error (skipn (Z.to_nat i) text) k = char_at text (i + Z.of_nat k).
Proof.
  intros Hi. unfold char_at. zcases; [lia|].
  rewrite nth_error_skipn. f_equal. lia.
Qed.

(** The marker holds a single backslash, so two occurrences do not overlap. *)
Lemma marker_no_overlap (text : str) (i j : Z) :
  marker_at text i = true -> i < j < i + len cventry_marker ->
  marker_at text j = false.
Proof.
  intros Hi Hj. destruct (marker_at text j) eqn:Ej; [|reflexivity].
  exfalso. unfold marker_at in Hi, Ej.
  apply andb_prop in Hi as [Hi0 Hi]. apply andb_prop in Ej as [Hj0 Ej].
  apply Z.leb_le in Hi0. apply Z.leb_le in Hj0.
  destruct (strip_prefix _ (skipn (Z.to_nat i) text)) as [ri|] eqn:Ei;
    [|discriminate].
  destruct (strip_prefix _ (skipn (Z.to_nat j) text)) as [rj|] eqn:Ejj;
    [|discriminate].
  apply strip_prefix_Some in Ei, Ejj.
  assert (char_at text j = Some backslash) as Hb.
  { replace j with (j + Z.of_nat 0) by lia.
    rewrite <- char_at_skipn by lia. now rewrite Ejj. }
  change (len cventry_marker) with 8 in Hj.
  assert (exists k, j = i + Z.of_nat k /\ (1 <= k <= 7)%nat) as (k & -> & Hk)
    by (exists (Z.to_nat (j - i)); lia).
  rewrite <- char_at_skipn, Ei in Hb by lia.
  destruct k as [|[|[|[|[|[|[|[|k]]]]]]]]; try lia; discriminate Hb.
Qed.

Lemma entry_at_bounds (text : str) (i : Z) (e : entry) (end_pos : Z) :
  0 <= i -> entry_at text i = Some (e, end_pos) ->
  i + len cventry_marker < end_pos <= len text.
Proof.
  intros Hi. unfold entry_at.
  destruct (extract_latex_args_spec text (i + len cventry_marker) 4)
    as [->|(args & end_ & -> & Hn & _ & Hargs)];
    [change (len cventry_marker) with 8; lia|discriminate|].
  pose proof (args_from_length _ _ _ _ Hargs) as Hlen.
  assert (args <> []) as Hne by (intros ->; simpl in Hn; lia).
  pose proof (args_from_end _ _ _ _ Hargs Hne) as Hend.
  destruct args as [|a1 [|a2 [|a3 [|a4 [|a5 args]]]]]; try discriminate.
  intros [= _ <-]. simpl length in Hlen. lia.
Qed.

Lemma scan_from_records (text : str) (pos : Z) (new : list entry) :
  separated text -> scan_from text pos new ->
  new = records_in text pos (len text + 1).
Proof.
  intros Hsep Hscan.
  induction Hscan
    as [pos Hnone|pos i e end_pos rest Hi Hm Hfirst He _ IH
        |pos i rest Hi Hm Hfirst He _ IH].
  - symmetry. apply records_in_none. intros k Hk. apply Hnone. lia.
  - pose proof (marker_at_room _ _ Hm) as [H0 Hroom].
    pose proof (entry_at_bounds _ _ _ _ H0 He) as Hend.
    change (len cventry_marker) with 8 in *.
    rewrite (records_in_skip text pos i) by (try assumption; lia).
    rewrite records_in_first by (try assumption; lia).
    unfold record_at at 1. rewrite He. simpl. f_equal.
    rewrite (records_in_skip text (i + 1) end_pos); [assumption|lia|].
    intros k Hk. specialize (Hsep i Hm). rewrite He in Hsep.
    apply Hsep. lia.
  - pose proof (marker_at_room _ _ Hm) as [H0 Hroom].
    specialize (Hsep i Hm). rewrite He in Hsep.
    change (len cventry_marker) with 8 in *.
    rewrite (records_in_skip text pos i) by (try assumption; lia).
    rewrite records_in_first by (try assumption; lia).
    unfold record_at at 1. rewrite He. simpl.
    rewrite (records_in_skip text (i + 1) (i + 8 + 1)); [assumption|lia|].
    intros k Hk. destruct (Z.eq_dec k (i + 8)) as [->|Hne]; [assumption|].
    apply (marker_no_overlap text i); [assumption|].
    change (len cventry_marker) with 8. lia.
Qed.

(** ** Trimming *)

Lemma lstrip_suffix (s : str) : exists pre, s = pre ++ lstrip s.
Proof.
  induction s as [|c s [pre IH]]; [now exists []|]. simpl.
  destruct (py_isspace c).
  - exists (c :: pre). simpl. now f_equal.
  - now exists [].
Qed.

Lemma lstrip_head (s : str) (c : ascii) (r : str) :
  lstrip s = c :: r -> py_isspace c = false.
Proof.
  induction s as [|a s IH]; simpl; [discriminate|].
  destruct (py_isspace a) eqn:E; [assumption|]. now intros [= <- _].
Qed.

Lemma rstrip_prefix (s : str) : exists post, s = rstrip s ++ post.
Proof.
  unfold rstrip. destruct (lstrip_suffix (rev s)) as [pre H].
  exists (rev pre). rewrite <- rev_app_distr, <- H. now rewrite rev_involutive.
Qed.

Lemma rstrip_last (s : str) (c : ascii) (r : str) :
  rstrip s = r ++ [c] -> py_isspace c = false.
Proof.
  unfold rstrip. intros H. apply (f_equal (@rev ascii)) in H.
  rewrite rev_involutive, rev_app_distr in H. simpl in H.
  now apply lstrip_head in H.
Qed.

Lemma strip_trimmed (s : str) : trimmed (strip s).
Proof.
  unfold strip. split; intros c r H.
  - destruct (rstrip_prefix (lstrip s)) as [post Hp].
    rewrite H in Hp. simpl in Hp. now apply lstrip_head in Hp.
  - now apply rstrip_last in H.
Qed.

Lemma make_entry_trimmed (t te l c : str) : trimmed_entry (make_entry t te l c).
Proof.
  unfold make_entry. destruct (split_link l) as [url txt].
  repeat split; simpl; apply strip_trimmed.
Qed.

Lemma entry_at_trimmed (text : str) (i : Z) (e : entry) (end_pos : Z) :
  entry_at text i = Some (e, end_pos) -> trimmed_entry e.
Proof.
  unfold entry_at.
  destruct (extract_latex_args _ _ _) as [[[args|] p]| |]; try discriminate.
  destruct args as [|a1 [|a2 [|a3 [|a4 [|a5 args]]]]]; try discriminate.
  intros [= <- _]. apply make_entry_trimmed.
Qed.

Lemma scan_from_trimmed (text : str) (pos : Z) (new : list entry) :
  scan_from text pos new -> Forall trimmed_entry new.
Proof.
  induction 1 as [| pos i e end_pos rest _ _ _ He _ IH|]; try assumption.
  - constructor.
  - constructor; [|assumption]. eapply entry_at_trimmed, He.
Qed.

(** ** The link wrapper *)

Lemma span_not_rbrace_spec (s g r : str) :
  span_not_rbrace s = (g, r) ->
  s = g ++ r /\ ~ In rbrace g /\ (r = [] \/ exists r', r = rbrace :: r').
Proof.
  revert g r. induction s as [|c s IH]; intros g r; simpl.
  - intros [= <- <-]. split; [reflexivity|]. split; [intros []|now left].
  - destruct (Ascii.eqb_spec c rbrace) as [->|Hne].
    + intros [= <- <-]. split; [reflexivity|]. split; [intros []|eauto].
    + destruct (span_not_rbrace s) as [g' r'].
      intros [= <- <-]. destruct (IH g' r' eq_refl) as (-> & Hg & Hr).
      repeat split; try assumption. simpl. intros [H|H]; congruence.
Qed.

Lemma span_not_rbrace_app (g r : str) :
  ~ In rbrace g -> span_not_rbrace (g ++ rbrace :: r) = (g, rbrace :: r).
Proof.
  induction g as [|c g IH]; intros Hg; simpl.
  - reflexivity.
  - destruct (Ascii.eqb_spec c rbrace) as [->|Hne].
    + exfalso. apply Hg. now left.
    + rewrite IH; [reflexivity|]. intros H. apply Hg. now right.
Qed.

Lemma href_here_spec (s u l : str) :
  href_here s = Some (u, l) <-> href_pattern_here s u l.
Proof.
  unfold href_here, href_pattern_here. split.
  - destruct (strip_prefix (lit "\href{") s) as [s1|] eqn:E1; [|discriminate].
    destruct (span_not_rbrace s1) as [g1 r1] eqn:Eg1.
    destruct g1 as [|c1 g1]; [discriminate|].
    destruct (strip_prefix (lit "}{") r1) as [s2|] eqn:E2; [|discriminate].
    destruct (span_not_rbrace s2) as [g2 r2] eqn:Eg2.
    destruct g2 as [|c2 g2]; [discriminate|].
    destruct (strip_prefix (lit "}") r2) as [s3|] eqn:E3; [|discriminate].
    intros [= <- <-].
    apply strip_prefix_Some in E1, E2, E3.
    apply span_not_rbrace_spec in Eg1 as (-> & Hg1 & _).
    apply span_not_rbrace_spec in Eg2 as (-> & Hg2 & _).
    repeat split; try assumption; try discriminate.
    exists s3. now rewrite E1, E2, E3.
  - intros (Hu & Hl & Hnu & Hnl & post & ->).
    rewrite (proj2 (strip_prefix_Some _ _ _) eq_refl).
    change (lit "}{" ++ l ++ lit "}" ++ post)
      with (rbrace :: lbrace :: l ++ rbrace :: post).
    rewrite span_not_rbrace_app by assumption.
    destruct u as [|cu u]; [congruence|].
    change (strip_prefix (lit "}{") (rbrace :: lbrace :: l ++ rbrace :: post))
      with (Some (l ++ rbrace :: post)). cbv iota beta.
    rewrite span_not_rbrace_app by assumption.
    destruct l as [|cl l]; [congruence|]. reflexivity.
Qed.



Lemma split_link_none (link : str) :
  no_href_pattern link -> split_link link = ([], link).
Proof.
  intros Hno. unfold split_link, search_href, re_search.
  destruct (re_search_from href_here 0 link) as [[j [u' l']]|] eqn:E;
    [|reflexivity].
  apply re_search_from_Some in E as (k' & _ & _ & Hk' & _).
  apply href_here_spec in Hk'. exfalso. eapply Hno, Hk'.
Qed.

(** In a third argument the pattern has a leftmost match or none. *)
Lemma href_pattern_cases (link : str) :
  (exists u l, first_href_pattern link u l) \/ no_href_pattern link.
Proof.
  destruct (re_search_from href_here 0 link) as [[j [u l]]|] eqn:E.
  - left. apply re_search_from_Some in E as (k & _ & _ & Hk & Hnone).
    exists u, l, k. split; [now apply href_here_spec|].
    intros k' u' l' Hlt H. apply href_here_spec in H.
    rewrite (Hnone k' Hlt) in H. discriminate.
  - right. intros k u l H. apply href_here_spec in H.
    rewrite (re_search_from_None _ _ _ E k) in H. discriminate.
Qed.

(** ** The run of backslashes, one step back *)

Lemma preceding_nonpos (text : str) (pos : Z) :
  pos <= 0 -> preceding_backslashes text pos = 0.
Proof.
  intros Hp. unfold preceding_backslashes.
  now replace (Z.to_nat pos) with O by lia.
Qed.

Lemma preceding_step (text : str) (pos : Z) :
  1 <= pos ->
  preceding_backslashes text pos
  = match char_at text (pos - 1) with
    | Some c =>
      if Ascii.eqb c backslash
      then 1 + preceding_backslashes text (pos - 1)
      else 0
    | None => 0
    end.
Proof.
  intros Hp. unfold preceding_backslashes.
  replace (Z.to_nat pos) with (S (Z.to_nat (pos - 1))) by lia.
  cbn [backslash_run]. unfold char_at.
  destruct (Z.ltb_spec (pos - 1) 0); [lia|].
  destruct (nth_error text (Z.to_nat (pos - 1))) as [c|]; [|reflexivity].
  destruct (Ascii.eqb c backslash); [lia|reflexivity].
Qed.

Lemma preceding_not_backslash (text : str) (pos : Z) :
  char_at text (pos - 1) <> Some backslash ->
  preceding_backslashes text pos = 0.
Proof.
  intros Hc. destruct (Z.le_gt_cases pos 0) as [Hle|Hgt].
  - now apply preceding_nonpos.
  - rewrite preceding_step by lia.
    destruct (char_at text (pos - 1)) as [c|]; [|reflexivity].
    destruct (Ascii.eqb_spec c backslash) as [->|_]; congruence.
Qed.

Lemma preceding_backslash (text : str) (pos : Z) :
  char_at text (pos - 1) = Some backslash ->
  preceding_backslashes text pos = 1 + preceding_backslashes text (pos - 1).
Proof.
  intros Hc. pose proof (char_at_Some_range _ _ _ Hc) as Hr.
  rewrite preceding_step by lia. rewrite Hc. reflexivity.
Qed.

Lemma preceding_run (text : str) (pos : Z) :
  0 <= pos ->
  0 <= preceding_backslashes text pos <= pos
  /\ (forall k, pos - preceding_backslashes text pos <= k < pos ->
      char_at text k = Some backslash)
  /\ char_at text (pos - preceding_backslashes text pos - 1) <> Some backslash.
Proof.
  intros Hp. unfold preceding_backslashes.
  pose proof (backslash_run_le text (Z.to_nat pos)) as Hle.
  split; [lia|]. split.
  - intros k Hk. replace k with (Z.of_nat (Z.to_nat k)) by lia.
    rewrite char_at_of_nat.
    apply (backslash_run_all text (Z.to_nat pos)). lia.
  - destruct (Nat.eq_dec (backslash_run text (Z.to_nat pos)) (Z.to_nat pos))
      as [He|Hne].
    + unfold char_at. destruct (Z.ltb_spec (pos - Z.of_nat (backslash_run text (Z.to_nat pos)) - 1) 0);
        [discriminate|lia].
    + pose proof (backslash_run_maximal text (Z.to_nat pos)) as Hm.
      replace (pos - Z.of_nat (backslash_run text (Z.to_nat pos)) - 1)
        with (Z.of_nat (Z.to_nat pos - backslash_run text (Z.to_nat pos) - 1))
        by lia.
      rewrite char_at_of_nat. apply Hm. lia.
Qed.

(** ** The claims about the Brace Matcher *)

(** C1 (as amended).  For every text and every start position
    [0 <= start_pos] the matcher returns; when it succeeds, the returned
    end position is the offset immediately after the unescaped closing
    brace that brings the running depth, started at 1, to zero for the
    first time, no earlier scanned prefix reaching depth zero; and it
    returns -1 exactly when the depth never reaches zero before the text is
    exhausted. *)
Theorem find_matching_brace_first_close (text : str) (start_pos : Z) :
  0 <= start_pos ->
  (exists e, find_matching_brace text start_pos = Returns e)
  /\ brace_matcher_claim text start_pos.
Proof.
  intros Hs. unfold brace_matcher_claim, never_closes.
  destruct (find_matching_brace_cases text start_pos Hs)
    as [(e & He & Hc)|[He Hpos]]; rewrite He.
  - pose proof (closes_at_range _ _ _ Hc) as Hr.
    split; [eauto|]. split.
    + intros e' [= <-] _. assumption.
    + split.
      * intros [= ->]. lia.
      * intros Hnever. destruct Hc as (Hr' & _ & Hd & _).
        exfalso. apply (Hnever e); [lia|assumption].
  - split; [eauto|]. split.
    + intros e [= <-] Hne. congruence.
    + split; [|reflexivity].
      intros _ k Hk. specialize (Hpos k). lia.
Qed.

Lemma find_matching_brace_first_close_witness :
  (exists e, find_matching_brace (lit "hello {world {nested} text} end") 7
             = Returns e)
  /\ brace_matcher_claim (lit "hello {world {nested} text} end") 7.
Proof.
  apply (find_matching_brace_first_close
           (lit "hello {world {nested} text} end") 7).
  lia.
Defined.

(** C1 as stated fails for a negative start position: from -5 in a text of
    one letter the depth never reaches zero, yet the matcher does not
    return -1, it raises [IndexError]. *)
Lemma brace_matcher_claim_negative_start :
  find_matching_brace (lit "a") (-5) = Raises IndexError
  /\ ~ brace_matcher_claim (lit "a") (-5).
Proof.
  split; [reflexivity|].
  intros [_ [_ H]].
  assert (never_closes (lit "a") (-5)) as Hn.
  { intros k Hk. change (len (lit "a")) with 1 in Hk.
    assert (k = -4 \/ k = -3 \/ k = -2 \/ k = -1 \/ k = 0 \/ k = 1)
      as [->|[->|[->|[->|[->| ->]]]]] by lia; vm_compute; discriminate. }
  specialize (H Hn). discriminate H.
Qed.

(** C2 (as amended).  At every scanned position inside the text,
    [0 <= pos < len text]: the backward scan counts the consecutive
    backslashes immediately preceding the position; the character is
    escaped exactly when that number is odd; an escaped brace leaves the
    depth unchanged, an unescaped opening brace adds one and an unescaped
    closing brace subtracts one.  In particular a character preceded by
    exactly two backslashes is unescaped, and a closing brace preceded by a
    single backslash is escaped and never ends a match started at a
    position [0 <= start]. *)
Theorem escape_parity (text : str) (pos : Z) :
  0 <= pos < len text ->
  count_backslashes text pos = Returns (preceding_backslashes text pos)
  /\ (forall k, pos - preceding_backslashes text pos <= k < pos ->
      char_at text k = Some backslash)
  /\ char_at text (pos - preceding_backslashes text pos - 1) <> Some backslash
  /\ escaped text pos = Z.odd (preceding_backslashes text pos)
  /\ escape_rule_claim text pos
  /\ (escaped text pos = true -> depth_change text pos = 0)
  /\ (unescaped text pos lbrace -> depth_change text pos = 1)
  /\ (unescaped text pos rbrace -> depth_change text pos = -1)
  /\ (char_at text (pos - 1) = Some backslash ->
      char_at text (pos - 2) = Some backslash ->
      char_at text (pos - 3) <> Some backslash ->
      escaped text pos = false)
  /\ (char_at text pos = Some rbrace ->
      char_at text (pos - 1) = Some backslash ->
      char_at text (pos - 2) <> Some backslash ->
      escaped text pos = true
      /\ forall start, 0 <= start ->
         find_matching_brace text start <> Returns (pos + 1)).
Proof.
  intros Hp.
  destruct (preceding_run text pos) as (_ & Hall & Hmax); [lia|].
  split; [apply count_backslashes_spec; lia|].
  split; [exact Hall|]. split; [exact Hmax|]. split; [reflexivity|].
  split.
  { intros count c _. unfold offset_read.
    destruct (Z.ltb_spec pos 0); [lia|]. now apply brace_body_spec. }
  split.
  { intros He. unfold depth_change. rewrite He. now destruct (char_at text pos). }
  split.
  { intros [Hc He]. unfold depth_change. now rewrite Hc, He. }
  split.
  { intros [Hc He]. unfold depth_change. now rewrite Hc, He. }
  split.
  { intros H1 H2 H3. unfold escaped.
    rewrite (preceding_backslash text pos H1).
    replace (pos - 2) with (pos - 1 - 1) in H2 by lia.
    rewrite (preceding_backslash text (pos - 1) H2).
    replace (pos - 3) with (pos - 1 - 1 - 1) in H3 by lia.
    now rewrite (preceding_not_backslash text (pos - 1 - 1) H3). }
  intros Hc H1 H2.
  assert (escaped text pos = true) as He.
  { unfold escaped. rewrite (preceding_backslash text pos H1).
    replace (pos - 2) with (pos - 1 - 1) in H2 by lia.
    now rewrite (preceding_not_backslash text (pos - 1) H2). }
  split; [exact He|].
  intros start Hs.
  destruct (find_matching_brace_cases text start Hs)
    as [(e & -> & Hclose)|[-> _]].
  - intros [= ->]. destruct Hclose as (_ & [_ Hu] & _).
    replace (pos + 1 - 1) with pos in Hu by lia. congruence.
  - intros [= H]. lia.
Qed.

Lemma escape_parity_witness :
  escaped (lit "{a\}b}") 3 = true
  /\ find_matching_brace (lit "{a\}b}") 1 <> Returns 4
  /\ escaped (lit "\\{") 2 = false.
Proof.
  pose proof (escape_parity (lit "{a\}b}") 3) as H3.
  pose proof (escape_parity (lit "\\{") 2) as H2.
  destruct H3 as (_ & _ & _ & _ & _ & _ & _ & _ & _ & Hsingle).
  { unfold len. simpl. lia. }
  destruct H2 as (_ & _ & _ & _ & _ & _ & _ & _ & Hdouble & _).
  { unfold len. simpl. lia. }
  destruct Hsingle as [He Hno];
    [reflexivity|reflexivity|vm_compute; discriminate|].
  split; [exact He|]. split.
  - apply (Hno 1). lia.
  - apply Hdouble; [reflexivity|reflexivity|vm_compute; discriminate].
Defined.

(** C2 as stated fails at a scanned position below zero: started at -1 in
    the text [\}] the matcher reads the closing brace, which one backslash
    precedes, counts no backslash, and ends the match on it. *)
Lemma escape_rule_claim_negative_position :
  find_matching_brace (lit "\}") (-1) = Returns 0
  /\ escaped (lit "\}") (offset_read (lit "\}") (-1)) = true
  /\ ~ escape_rule_claim (lit "\}") (-1).
Proof.
  split; [reflexivity|]. split; [reflexivity|].
  intros H. specialize (H 1 rbrace eq_refl). vm_compute in H. discriminate H.
Qed.

(** C7 (as amended).  For every text and every integer start position, if
    the text is empty or [start_pos >= len text], the matcher returns -1.
    (A negative start position is not checked.) *)
Theorem find_matching_brace_guard (text : str) (start_pos : Z) :
  text = [] \/ len text <= start_pos ->
  find_matching_brace text start_pos = Returns (-1).
Proof.
  intros [->|Hge]; [reflexivity|].
  unfold find_matching_brace.
  rewrite Z.geb_leb. destruct (Z.leb_spec (len text) start_pos); [|lia].
  now rewrite orb_true_r.
Qed.

Lemma find_matching_brace_guard_witness :
  find_matching_brace (lit "hello") 5 = Returns (-1).
Proof.
  apply (find_matching_brace_guard (lit "hello") 5).
  right. unfold len. simpl. lia.
Defined.

(** C7 as stated fails below zero: -1 is not within [0, len text], yet
    from -1 in the text [}] the matcher returns 0. *)
Lemma position_check_claim_negative_start :
  find_matching_brace (lit "}") (-1) = Returns 0
  /\ ~ position_check_claim (lit "}") (-1).
Proof.
  split; [reflexivity|].
  intros H. unfold position_check_claim in H.
  assert (find_matching_brace (lit "}") (-1) = Returns (-1)) as E.
  { apply H. right. left. lia. }
  discriminate E.
Qed.

(** ** The claims about the Argument Extractor *)

Lemma args_from_last (text : str) (pos : Z) (args : list str) (end_ : Z) :
  args_from text pos args end_ -> args <> [] ->
  unescaped text (end_ - 1) rbrace.
Proof.
  induction 1 as [pos|pos o e rest end_ _ _ Hc Hr IH]; [congruence|].
  intros _. destruct rest as [|a rest].
  - inversion Hr; subst. apply Hc.
  - apply IH. discriminate.
Qed.

(** C3 (as amended).  For every text, every start position [0 <= start]
    and every [num_args >= 1] on which the extractor succeeds, it returns
    exactly [num_args] strings in left-to-right order, each the substring
    strictly between an opening brace, found after a run of space, tab or
    newline characters, and its matching closing brace, and the returned
    cursor is the position immediately after the last closing brace;
    conversely, where [num_args] such brace groups follow [start] the
    extractor succeeds with them.  Four arguments extracted just after the
    marker of [\cventry{Title}{Tech}{Link}{Content}] are Title, Tech, Link
    and Content, with the cursor at 36. *)
Theorem extract_latex_args_success (text : str) (start num_args : Z) :
  0 <= start ->
  extractor_claim text start num_args
  /\ (forall args end_,
      1 <= num_args ->
      extract_latex_args text start num_args = Returns (Some args, end_) ->
      unescaped text (end_ - 1) rbrace /\ start < end_ <= len text)
  /\ (forall args end_,
      1 <= num_args -> Z.of_nat (length args) = num_args ->
      args_from text start args end_ ->
      extract_latex_args text start num_args = Returns (Some args, end_))
  /\ extract_latex_args doc_cventry 8 4
     = Returns (Some [lit "Title"; lit "Tech"; lit "Link"; lit "Content"], 36).
Proof.
  intros Hs.
  assert (forall args end_,
          1 <= num_args ->
          extract_latex_args text start num_args = Returns (Some args, end_) ->
          Z.of_nat (length args) = num_args
          /\ args_from text start args end_) as Hclaim.
  { intros args end_ Hn He.
    destruct (extract_latex_args_spec text start num_args Hs)
      as [Hf|(args' & end' & Hr & Hlen & _ & Ha)]; rewrite He in *.
    - discriminate Hf.
    - injection Hr as <- <-. split; assumption. }
  split; [exact Hclaim|]. split; [|split; [|reflexivity]].
  - intros args end_ Hn He.
    destruct (Hclaim args end_ Hn He) as [Hlen Ha].
    assert (args <> []) as Hne by (intros ->; simpl in Hlen; lia).
    split; [eapply args_from_last; eauto|].
    pose proof (args_from_length _ _ _ _ Ha).
    pose proof (args_from_end _ _ _ _ Ha Hne). lia.
  - intros args end_ Hn Hlen Ha. rewrite <- Hlen.
    apply extract_latex_args_complete; try assumption.
    intros ->. simpl in Hlen. lia.
Qed.

Lemma extract_latex_args_success_witness :
  Z.of_nat (length [lit "Title"; lit "Tech"; lit "Link"; lit "Content"]) = 4
  /\ args_from doc_cventry 8
       [lit "Title"; lit "Tech"; lit "Link"; lit "Content"] 36.
Proof.
  destruct (extract_latex_args_success doc_cventry 8 4)
    as (Hclaim & _ & _ & He);
    [lia|].
  apply Hclaim; [lia|exact He].
Defined.

(** C3 as stated fails for a negative start position: from -4 in the text
    [{a\}] the extractor succeeds with the argument [a\], although the only
    closing brace of the text is escaped and matches nothing. *)
Lemma extractor_claim_negative_start :
  extract_latex_args (lit "{a\}") (-4) 1 = Returns (Some [lit "a\"], 0)
  /\ escaped (lit "{a\}") 3 = true
  /\ ~ extractor_claim (lit "{a\}") (-4) 1.
Proof.
  split; [reflexivity|]. split; [reflexivity|].
  intros H. destruct (H [lit "a\"] 0) as [_ Ha]; [lia|reflexivity|].
  inversion Ha as [|pos o e rest end_ [Hle Hblank] Hopen _ _]; subst.
  apply char_at_Some_range in Hopen.
  destruct (Hblank (-4)) as (c & Hc & _); [lia|]. discriminate Hc.
Qed.

(** C4 (as amended).  For every text, start and [num_args]: an empty text,
    [start >= len text] or [num_args <= 0] make the extractor return the
    failure with the original [start]; whenever the extractor returns a
    failure the returned position is the original [start], and whenever it
    returns a list the list has exactly [num_args] strings; its loops
    always end; and from a start position [0 <= start] every call returns,
    the failure with the original [start] or the complete list.  (A
    negative start is not checked and is read as an index from the end.) *)
Theorem extract_latex_args_failure (text : str) (start num_args : Z) :
  (text = [] \/ len text <= start \/ num_args <= 0 ->
   extract_latex_args text start num_args = Returns (None, start))
  /\ (forall r p,
      extract_latex_args text start num_args = Returns (r, p) ->
      match r with
      | None => p = start
      | Some args => Z.of_nat (length args) = num_args
      end)
  /\ extract_latex_args text start num_args <> OutOfFuel
  /\ (0 <= start -> extractor_failure_claim text start num_args).
Proof.
  assert (text = [] \/ len text <= start \/ num_args <= 0 ->
          extract_latex_args text start num_args = Returns (None, start))
    as Hguard.
  { unfold extract_latex_args. intros [->|[Hge|Hn]]; [reflexivity| |].
    - rewrite Z.geb_leb. destruct (Z.leb_spec (len text) start); [|lia].
      now rewrite orb_true_r.
    - destruct (Z.leb_spec num_args 0); [|lia]. now rewrite orb_true_r. }
  split; [exact Hguard|]. split.
  - intros r p H. apply extract_latex_args_result in H.
    destruct r; [apply H|exact H].
  - split; [apply extract_latex_args_fuel|].
    intros Hs. split.
    + intros [H|[H|H]]; [auto|lia|auto].
    + destruct (extract_latex_args_spec text start num_args Hs)
        as [Hf|(args & end_ & Hr & Hlen & _)]; [now left|].
      right. eauto.
Qed.

Lemma extract_latex_args_failure_witness :
  extract_latex_args doc_truncated 21 2 = Returns (None, 21)
  /\ extractor_failure_claim doc_truncated 8 4.
Proof.
  destruct (extract_latex_args_failure doc_truncated 21 2) as (Hguard & _).
  destruct (extract_latex_args_failure doc_truncated 8 4)
    as (_ & _ & _ & Hclaim).
  split.
  - apply Hguard. right. left. unfold len. simpl. lia.
  - apply Hclaim. lia.
Defined.

(** C4 as stated fails for a start position out of range below zero: from
    -5 in a text of one letter the call neither returns the failure with
    the original start nor succeeds, it raises [IndexError]. *)
Lemma extractor_failure_claim_negative_start :
  extract_latex_args (lit "a") (-5) 1 = Raises IndexError
  /\ ~ extractor_failure_claim (lit "a") (-5) 1.
Proof.
  split; [reflexivity|].
  intros [_ [H|(args & end_ & H & _)]]; discriminate H.
Qed.

(** ** The claims about the Entry Scanner *)

Lemma cventry_loop_fuel_mono (text : str) (fuel : nat) :
  forall (fuel' : nat) (entries : list entry) (pos : Z) (es : list entry),
  (fuel <= fuel')%nat ->
  cventry_loop fuel text entries pos = Returns es ->
  cventry_loop fuel' text entries pos = Returns es.
Proof.
  induction fuel as [|fuel IH]; intros fuel' entries pos es Hle.
  - destruct fuel'; cbn [cventry_loop];
      destruct (cventry_step text pos) as [[|e p|p]| |]; cbn [bind];
      try discriminate; auto.
  - destruct fuel' as [|fuel']; [lia|]. cbn [cventry_loop].
    destruct (cventry_step text pos) as [[|e p|p]| |]; cbn [bind];
      try discriminate; auto; apply IH; lia.
Qed.

Lemma marker_at_nil (k : Z) : marker_at [] k = false.
Proof.
  destruct (marker_at [] k) eqn:E; [|reflexivity].
  apply marker_at_room in E. change (len []) with 0 in E.
  change (len cventry_marker) with 8 in E. lia.
Qed.

Lemma parse_cventry_scan (text : str) :
  exists new,
    parse_cventry (Some text) = Returns new
    /\ scan_from text 0 new
    /\ forall fuel, (length text <= fuel)%nat ->
       cventry_loop fuel text [] 0 = Returns new.
Proof.
  destruct (cventry_loop_spec text (length text) [] 0) as (new & Hl & Hs);
    [lia|unfold len; lia|].
  simpl in Hl. exists new.
  assert (forall fuel, (length text <= fuel)%nat ->
          cventry_loop fuel text [] 0 = Returns new) as Hfuel.
  { intros fuel Hf. eapply cventry_loop_fuel_mono; eauto. }
  destruct text as [|c text]; [|now repeat split].
  inversion Hs as [pos Hnone| |]; subst.
  - now repeat split.
  - rewrite marker_at_nil in *. discriminate.
  - rewrite marker_at_nil in *. discriminate.
Qed.

Lemma parse_cventry_returns (text : option str) :
  exists entries,
    parse_cventry text = Returns entries /\ Forall trimmed_entry entries.
Proof.
  destruct text as [text|]; [|exists []; now split].
  destruct (parse_cventry_scan text) as (new & Hp & Hs & _).
  exists new. split; [assumption|]. eapply scan_from_trimmed, Hs.
Qed.

Lemma separatedb_sound (text : str) : separatedb text = true -> separated text.
Proof.
  unfold separatedb. rewrite forallb_forall. intros H i Hm.
  pose proof (marker_at_room _ _ Hm) as [H0 Hroom].
  change (len cventry_marker) with 8 in Hroom.
  specialize (H i). rewrite Hm in H. cbn [negb orb] in H.
  assert (In i (offsets 0 (len text + 1))) as Hin by (apply in_offsets; lia).
  specialize (H Hin).
  destruct (entry_at text i) as [[e end_pos]|].
  - rewrite forallb_forall in H. intros j Hj.
    apply negb_true_iff, H, in_offsets. lia.
  - now apply negb_true_iff in H.
Qed.

(** An occurrence is well-formed exactly when four brace groups follow
    its marker. *)
Lemma well_formed_args (text : str) (i : Z) :
  0 <= i ->
  well_formed text i = true
  <-> exists a b c d end_,
        args_from text (i + len cventry_marker) [a; b; c; d] end_.
Proof.
  intros Hi. unfold well_formed, entry_at.
  assert (0 <= i + len cventry_marker) as Hs
    by (change (len cventry_marker) with 8; lia).
  split.
  - destruct (extract_latex_args_spec text (i + len cventry_marker) 4 Hs)
      as [->|(args & end_ & -> & Hn & _ & Ha)]; [discriminate|].
    destruct args as [|a [|b [|c [|d [|x args]]]]]; simpl in Hn; try lia.
    intros _. eauto 6.
  - intros (a & b & c & d & end_ & Ha).
    apply extract_latex_args_complete in Ha; [|assumption|discriminate].
    simpl length in Ha. change (Z.of_nat 4) with 4 in Ha.
    now rewrite Ha.
Qed.

(** C5 (as amended).  For every document the scan returns, without
    raising, the records it collects going from one occurrence to the next
    ([scan_from]): a well-formed occurrence yields its record and the
    cursor moves after its last argument; on an extraction failure the
    cursor moves exactly one character past the marker's end and the scan
    continues.  An occurrence is well-formed exactly when four brace
    groups follow its marker.  When no occurrence starts inside the
    arguments of a well-formed occurrence nor right after the marker of a
    malformed one, the records are those of exactly the well-formed
    occurrences, in document order. *)
Theorem parse_cventry_records (text : str) :
  (exists new, parse_cventry (Some text) = Returns new /\ scan_from text 0 new)
  /\ (forall pos next,
      0 <= pos -> cventry_step text pos = Returns (Skipped next) ->
      exists i,
        pos <= i /\ marker_at text i = true
        /\ (forall k, pos <= k < i -> marker_at text k = false)
        /\ entry_at text i = None
        /\ next = i + len cventry_marker + 1)
  /\ (forall i, 0 <= i ->
      well_formed text i = true
      <-> exists a b c d end_,
            args_from text (i + len cventry_marker) [a; b; c; d] end_)
  /\ (separated text -> scanner_claim text).
Proof.
  destruct (parse_cventry_scan text) as (new & Hp & Hs & _).
  split; [eauto|]. split; [|split; [apply well_formed_args|]].
  - intros pos next Hpos Hstep.
    destruct (cventry_step_cases text pos Hpos)
      as [[Hb _]|(i & Hi & Hm & Hfirst & Hcase)]; [congruence|].
    destruct Hcase as [(e & end_pos & _ & Hparsed & _)|[He Hskip]];
      [congruence|].
    exists i. rewrite Hskip in Hstep. injection Hstep as <-.
    repeat split; assumption.
  - intros Hsep. unfold scanner_claim. rewrite Hp. f_equal.
    now apply scan_from_records.
Qed.

Lemma parse_cventry_records_witness :
  occurrences doc_three = [0; 21; 35]
  /\ map (well_formed doc_three) (occurrences doc_three) = [true; false; true]
  /\ parse_cventry (Some doc_three)
     = Returns [make_entry (lit "a") (lit "b") (lit "c") (lit "d");
                make_entry (lit "e") (lit "f") (lit "g") (lit "h")].
Proof.
  split; [reflexivity|]. split; [reflexivity|].
  destruct (parse_cventry_records doc_three) as (_ & _ & _ & Hclaim).
  unfold scanner_claim in Hclaim. rewrite Hclaim.
  - reflexivity.
  - apply separatedb_sound. reflexivity.
Defined.

(** C5 as stated fails when the next occurrence directly follows the
    marker of a malformed one: the document has two well-formed occurrences
    and a malformed one between them, and the scan returns one record. *)
Lemma scanner_claim_adjacent_marker :
  occurrences doc_adjacent = [0; 20; 28]
  /\ map (well_formed doc_adjacent) (occurrences doc_adjacent)
     = [true; false; true]
  /\ parse_cventry (Some doc_adjacent)
     = Returns [make_entry (lit "a") (lit "b") (lit "c") (lit "d")]
  /\ ~ scanner_claim doc_adjacent.
Proof.
  split; [reflexivity|]. split; [reflexivity|]. split; [reflexivity|].
  unfold scanner_claim. intros H. vm_compute in H. discriminate H.
Qed.

(** C6.  The scan terminates on every document: the loop returns with the
    fuel [length text], and with any larger fuel it returns the same list;
    every iteration that does not leave the loop strictly increases the
    cursor: after a success the cursor is the extractor's end position,
    which lies past the marker, after a failure it is one character past
    the marker's end. *)
Theorem parse_cventry_terminates (text : str) :
  (exists entries,
     parse_cventry (Some text) = Returns entries
     /\ forall fuel, (length text <= fuel)%nat ->
        cventry_loop fuel text [] 0 = Returns entries)
  /\ (forall pos, 0 <= pos ->
      exists r,
        cventry_step text pos = Returns r
        /\ forall next, next_cursor r = Some next -> pos < next)
  /\ (forall pos, 0 <= pos ->
      cventry_step text pos = Returns Break
      \/ exists i,
           pos <= i /\ marker_at text i = true
           /\ ((exists e end_pos,
                  cventry_step text pos = Returns (Parsed e end_pos)
                  /\ i + len cventry_marker < end_pos)
               \/ cventry_step text pos
                  = Returns (Skipped (i + len cventry_marker + 1)))).
Proof.
  split; [|split].
  - destruct (parse_cventry_scan text) as (new & Hp & _ & Hfuel). eauto.
  - intros pos Hpos.
    destruct (cventry_step_cases text pos Hpos)
      as [[Hb _]|(i & Hi & Hm & _ & Hcase)].
    + exists Break. split; [assumption|]. discriminate.
    + change (len cventry_marker) with 8 in Hcase.
      destruct Hcase as [(e & end_pos & _ & Hparsed & Hend)|[_ Hskip]].
      * exists (Parsed e end_pos). split; [assumption|].
        simpl. intros next [= <-]. lia.
      * exists (Skipped (i + 8 + 1)). split; [assumption|].
        simpl. intros next [= <-]. lia.
  - intros pos Hpos.
    destruct (cventry_step_cases text pos Hpos)
      as [[Hb _]|(i & Hi & Hm & _ & Hcase)]; [now left|].
    right. exists i. split; [assumption|]. split; [assumption|].
    destruct Hcase as [(e & end_pos & _ & Hparsed & Hend)|[_ Hskip]].
    + left. exists e, end_pos. split; [assumption|]. lia.
    + now right.
Qed.

Lemma parse_cventry_terminates_witness :
  (exists entries, cventry_loop 1000 doc_adjacent [] 0 = Returns entries)
  /\ exists r, cventry_step doc_adjacent 20 = Returns r
               /\ forall next, next_cursor r = Some next -> 20 < next.
Proof.
  destruct (parse_cventry_terminates doc_adjacent) as ((es & _ & Hfuel) & Hstep & _).
  split.
  - exists es. apply Hfuel. vm_compute. lia.
  - apply Hstep. lia.
Defined.






(** A position that [find_matching_brace] returns is the position after
    the matching brace. *)
Lemma find_matching_brace_closed (text : str) (start e : Z) :
  0 <= start -> find_matching_brace text start = Returns e -> e <> -1 ->
  closes_at text start e.
Proof.
  intros Hs He Hne.
  destruct (find_matching_brace_cases text start Hs)
    as [(e' & He' & Hc)|[He' _]];
    rewrite He' in He; injection He as <-; [assumption|congruence].
Qed.




(** The pattern of [search_href] ends a group at the first closing brace,
    where the Brace Matcher goes on to the matching one: of the wrapper
    [\href{http://x}{\textbf{Demo}}], whose label is [\textbf{Demo}], the
    record keeps the label [\textbf{Demo].  The label holds braces, so
    [link_fields_amended] says nothing of this entry. *)
Example link_label_cut_at_first_brace :
  link_wrapper_at (lit "\href{http://x}{\textbf{Demo}}") 0
                  (lit "http://x") (lit "\textbf{Demo}")
  /\ exists e,
       entry_at doc_braced_label 0 = Some (e, 49)
       /\ link_url e = lit "http://x"
       /\ link_text e = lit "\textbf{Demo".
Proof.
  split.
  - split; [exists []; reflexivity|].
    split; apply find_matching_brace_closed;
      first [reflexivity | vm_compute; discriminate].
  - eexists. split; [vm_compute; reflexivity|]. split; reflexivity.
Qed.

(** C9.  For the empty document, absent or of length zero, the scan returns
    the empty list of records and raises nothing. *)
Theorem parse_cventry_empty :
  parse_cventry None = Returns [] /\ parse_cventry (Some []) = Returns [].
Proof. split; reflexivity. Qed.

(** C10.  The scan of every document returns, and in every record it
    returns the five fields, title, tech, link_url, link_text and content,
    have no leading and no trailing whitespace. *)
Theorem parse_cventry_fields_trimmed (text : option str) :
  exists entries,
    parse_cventry text = Returns entries /\ Forall trimmed_entry entries.
Proof. apply parse_cventry_returns. Qed.


(** ** Replacing *)

Lemma replace_from_char (c : ascii) (new s : str) :
  replace_from [c] new 0 s
  = flat_map (fun x => if Ascii.eqb c x then new else [x]) s.
Proof.
  induction s as [|x s IH]; [reflexivity|].
  cbn [replace_from strip_prefix flat_map length Nat.sub].
  destruct (Ascii.eqb c x); cbn [app]; now rewrite IH.
Qed.

Lemma flat_map_flat_map {A B C : Type} (f : A -> list B) (g : B -> list C)
    (l : list A) :
  flat_map g (flat_map f l) = flat_map (fun x => flat_map g (f x)) l.
Proof.
  induction l as [|x l IH]; [reflexivity|].
  simpl. now rewrite flat_map_app, IH.
Qed.

Lemma escape_latex_chars_flat_map (text : str) :
  escape_latex_chars text = flat_map escaped_char text.
Proof.
  unfold escape_latex_chars, latex_escapes.
  cbn [fold_left fst snd lit list_ascii_of_string py_replace].
  rewrite !replace_from_char, !flat_map_flat_map.
  apply flat_map_ext. intros c.
  destruct c as [[|] [|] [|] [|] [|] [|] [|] [|]]; reflexivity.
Qed.

(** ** The escape state, forwards *)

Lemma skipn_cons_inv {A : Type} (n : nat) (l : list A) (x : A) (r : list A) :
  skipn n l = x :: r -> nth_error l n = Some x /\ skipn (S n) l = r.
Proof.
  revert l. induction n as [|n IH]; intros l H.
  - destruct l; [discriminate|]. injection H as -> ->. now split.
  - destruct l; [discriminate|]. simpl in H. now apply IH.
Qed.

Lemma skipn_char_at (text : str) (p : Z) (c : ascii) (r : str) :
  0 <= p -> skipn (Z.to_nat p) text = c :: r ->
  char_at text p = Some c /\ skipn (Z.to_nat (p + 1)) text = r.
Proof.
  intros Hp H. apply skipn_cons_inv in H as [Hc Hr].
  replace (Z.to_nat (p + 1)) with (S (Z.to_nat p)) by lia.
  split; [|assumption]. unfold char_at.
  destruct (Z.ltb_spec p 0); [lia|assumption].
Qed.

Lemma escaped_next (text : str) (p : Z) (c : ascii) :
  0 <= p -> char_at text p = Some c ->
  escaped text (p + 1) = esc_step (escaped text p) c.
Proof.
  intros Hp Hc. unfold escaped, esc_step.
  rewrite (preceding_step text (p + 1)) by lia.
  replace (p + 1 - 1) with p by lia. rewrite Hc.
  destruct (Ascii.eqb c backslash); [|reflexivity].
  replace (1 + preceding_backslashes text p)
    with (Z.succ (preceding_backslashes text p)) by lia.
  rewrite Z.odd_succ. now rewrite <- Z.negb_odd.
Qed.

Lemma depth_step_change (text : str) (p d : Z) (c : ascii) :
  char_at text p = Some c ->
  depth_step (escaped text p) d c = d + depth_change text p.
Proof.
  intros Hc. unfold depth_step, depth_change. rewrite Hc.
  destruct (escaped text p); [lia|].
  destruct (Ascii.eqb c lbrace); [lia|].
  destruct (Ascii.eqb c rbrace); lia.
Qed.

Lemma scan_close_depth (text : str) (start : Z) :
  forall (s : str) (p : Z),
  0 <= start <= p ->
  skipn (Z.to_nat p) text = s ->
  (forall k, start <= k <= p -> depth text start k > 0) ->
  match scan_close (escaped text p) (depth text start p) s with
  | Some n => closes_at text start (p + n)
  | None => forall k, start <= k <= len text -> depth text start k > 0
  end.
Proof.
  induction s as [|c s IH]; intros p Hp Hs Hpos.
  - simpl. intros k Hk. apply Hpos.
    apply (f_equal (@length ascii)) in Hs. rewrite length_skipn in Hs.
    simpl in Hs. unfold len in Hk. lia.
  - destruct (skipn_char_at text p c s) as [Hc Hs']; [lia|assumption|].
    pose proof (char_at_Some_range _ _ _ Hc) as Hr.
    cbn [scan_close]. rewrite (depth_step_change text p _ c Hc).
    rewrite <- (depth_succ text start p) by lia.
    rewrite <- (escaped_next text p c) by (assumption || lia).
    pose proof (depth_change_bounds text p) as Hb.
    pose proof (depth_succ text start p ltac:(lia)) as Hd.
    pose proof (Hpos p ltac:(lia)) as Hdp.
    destruct (Z.eqb_spec (depth text start (p + 1)) 0) as [H0|Hne].
    + unfold closes_at. split; [lia|]. split.
      * replace (p + 1 - 1) with p by lia.
        apply depth_change_closing. lia.
      * split; [assumption|]. intros k Hk. apply Hpos. lia.
    + specialize (IH (p + 1) ltac:(lia) Hs').
      destruct (scan_close _ _ s) as [n|].
      * replace (p + (n + 1)) with (p + 1 + n) by lia. apply IH.
        intros k Hk. destruct (Z.eq_dec k (p + 1)) as [->|Hk'];
          [lia|apply Hpos; lia].
      * apply IH. intros k Hk.
        destruct (Z.eq_dec k (p + 1)) as [->|Hk']; [lia|apply Hpos; lia].
Qed.

Lemma find_matching_brace_scan (text : str) (start_pos : Z) :
  0 <= start_pos ->
  find_matching_brace text start_pos
  = Returns match scan_close (escaped text start_pos) 1
                             (py_slice_from text start_pos) with
            | Some n => start_pos + n
            | None => -1
            end.
Proof.
  intros Hs. rewrite py_slice_from_skipn by assumption.
  pose proof (scan_close_depth text start_pos
                (skipn (Z.to_nat start_pos) text) start_pos
                ltac:(lia) eq_refl) as H.
  rewrite depth_start in H.
  assert (forall k, start_pos <= k <= start_pos ->
                    depth text start_pos k > 0) as Hpos.
  { intros k Hk. replace k with start_pos by lia. rewrite depth_start. lia. }
  specialize (H Hpos).
  destruct (scan_close _ _ _) as [n|].
  - now apply find_matching_brace_closes.
  - destruct (find_matching_brace_cases text start_pos Hs)
      as [(e & _ & Hc)|[He _]]; [|assumption].
    destruct Hc as (Hr & _ & Hd & _). specialize (H e). lia.
Qed.

(** ** The escapes under the brace scan *)

Lemma scan_close_escaped_char (c : ascii) (d : Z) (r : str) :
  1 <= d ->
  scan_close false d (escaped_char c ++ r)
  = match scan_close false d r with
    | Some n => Some (n + len (escaped_char c))
    | None => None
    end.
Proof.
  intros Hd.
  assert ((d =? 0) = false) as E0 by (apply Z.eqb_neq; lia).
  assert ((d + 1 =? 0) = false) as E1 by (apply Z.eqb_neq; lia).
  assert (d + 1 - 1 = d) as E2 by lia.
  destruct c as [[|] [|] [|] [|] [|] [|] [|] [|]];
    cbn -[Z.add Z.sub Z.eqb];
    rewrite ?E1, ?E2, ?E0; cbn -[Z.add Z.sub Z.eqb];
    rewrite ?E1, ?E2, ?E0;
    destruct (scan_close false d r) as [n|]; try reflexivity;
    f_equal; unfold len; simpl; lia.
Qed.

Lemma len_app (a b : str) : len (a ++ b) = len a + len b.
Proof. unfold len. rewrite length_app. lia. Qed.

Lemma scan_close_escape (s r : str) (d : Z) :
  1 <= d ->
  scan_close false d (escape_latex_chars s ++ r)
  = match scan_close false d r with
    | Some n => Some (n + len (escape_latex_chars s))
    | None => None
    end.
Proof.
  intros Hd. rewrite escape_latex_chars_flat_map.
  induction s as [|c s IH].
  - simpl. destruct (scan_close false d r); [|reflexivity].
    f_equal. unfold len. simpl. lia.
  - cbn [flat_map]. rewrite <- app_assoc, scan_close_escaped_char by assumption.
    rewrite IH. destruct (scan_close false d r); [|reflexivity].
    f_equal. rewrite len_app. lia.
Qed.

(** ** Brace groups of escaped fields *)

Lemma skipn_len_ge (text : str) (p : Z) (s : str) :
  0 <= p -> skipn (Z.to_nat p) text = s -> s <> [] -> p + len s = len text.
Proof.
  intros Hp Hs Hne. apply (f_equal (@length ascii)) in Hs.
  rewrite length_skipn in Hs. unfold len.
  destruct s; [congruence|]. simpl in *. lia.
Qed.

Lemma skipn_more (text : str) (p : Z) (a r : str) :
  0 <= p -> skipn (Z.to_nat p) text = a ++ r ->
  skipn (Z.to_nat (p + len a)) text = r.
Proof.
  intros Hp Hs. unfold len.
  replace (Z.to_nat (p + Z.of_nat (length a)))
    with (length a + Z.to_nat p)%nat by lia.
  rewrite <- skipn_skipn, Hs, skipn_app, Nat.sub_diag.
  now rewrite skipn_all.
Qed.

Lemma brace_group_closes (text : str) (p : Z) (f r : str) :
  0 <= p ->
  skipn (Z.to_nat p) text = lbrace :: escape_latex_chars f ++ rbrace :: r ->
  char_at text p = Some lbrace
  /\ find_matching_brace text (p + 1)
     = Returns (p + len (escape_latex_chars f) + 2)
  /\ between text (p + 1) (p + len (escape_latex_chars f) + 1)
     = escape_latex_chars f
  /\ skipn (Z.to_nat (p + len (escape_latex_chars f) + 2)) text = r.
Proof.
  intros Hp Hs.
  destruct (skipn_char_at text p _ _ Hp Hs) as [Hc Hs1].
  split; [assumption|]. split; [|split].
  - rewrite find_matching_brace_scan by lia.
    rewrite (escaped_next text p lbrace Hp Hc).
    rewrite py_slice_from_skipn by lia. rewrite Hs1.
    rewrite scan_close_escape by lia.
    change (esc_step (escaped text p) lbrace) with false.
    cbn [scan_close depth_step]. simpl Ascii.eqb. simpl Z.eqb. cbv iota.
    f_equal. lia.
  - unfold between. rewrite Hs1.
    replace (Z.to_nat (p + len (escape_latex_chars f) + 1 - (p + 1)))
      with (length (escape_latex_chars f) + 0)%nat by (unfold len; lia).
    rewrite firstn_app_2. simpl. apply app_nil_r.
  - assert (skipn (Z.to_nat (p + 1)) text
            = (escape_latex_chars f ++ [rbrace]) ++ r) as H2
      by (rewrite <- app_assoc; exact Hs1).
    apply skipn_more in H2; [|lia].
    rewrite len_app in H2. change (len [rbrace]) with 1 in H2.
    replace (p + len (escape_latex_chars f) + 2)
      with (p + 1 + (len (escape_latex_chars f) + 1)) by lia.
    exact H2.
Qed.

Lemma skip_whitespace_nonblank (text : str) (p : Z) (c : ascii) :
  0 <= p -> char_at text p = Some c -> is_blank c = false ->
  skip_whitespace text p = Returns p.
Proof.
  intros Hp Hc Hb.
  destruct (skip_whitespace_spec text p Hp) as (o & -> & [Hle Hall] & _).
  f_equal. destruct (Z.eq_dec o p) as [->|Hne]; [reflexivity|].
  destruct (Hall p) as (c' & Hc' & Hblank); [lia|].
  rewrite Hc in Hc'. injection Hc' as <-.
  apply is_blank_spec in Hblank. congruence.
Qed.

Lemma brace_groups_cons (f : str) (fs : list str) (r : str) :
  brace_groups (f :: fs) ++ r = lbrace :: f ++ rbrace :: brace_groups fs ++ r.
Proof.
  unfold brace_groups. cbn [flat_map]. cbn [app].
  now rewrite <- !app_assoc.
Qed.

Lemma extract_loop_groups (text : str) (start : Z) :
  forall (fs : list str) (p : Z) (args : list str) (r : str),
  0 <= p ->
  skipn (Z.to_nat p) text = brace_groups (map escape_latex_chars fs) ++ r ->
  extract_loop text start (length fs) args p
  = Returns (Some (args ++ map escape_latex_chars fs),
             p + len (brace_groups (map escape_latex_chars fs))).
Proof.
  induction fs as [|f fs IH]; intros p args r Hp Hs.
  - simpl. rewrite app_nil_r. do 2 f_equal. unfold len. simpl. lia.
  - cbn [map] in *. rewrite brace_groups_cons in Hs.
    destruct (brace_group_closes text p f _ Hp Hs) as (Hc & Hf & Hb & Hs').
    pose proof (char_at_Some_range _ _ _ Hc) as Hr.
    assert (p + len (escape_latex_chars f) + 2 <= len text) as Hend.
    { pose proof (skipn_len_ge text p _ Hp Hs ltac:(discriminate)) as Hl.
      rewrite <- Hl. unfold len. simpl length. rewrite length_app.
      simpl length. lia. }
    cbn [length extract_loop].
    rewrite (skip_whitespace_nonblank text p lbrace Hp Hc eq_refl).
    cbn [bind]. rewrite Z.geb_leb.
    destruct (Z.leb_spec (len text) p); [lia|].
    destruct (py_index_in_range text p Hr) as (c & -> & Hat).
    rewrite Hc in Hat. injection Hat as <-. cbn [bind].
    rewrite Ascii.eqb_refl. cbn [negb]. rewrite Hf. cbn [bind].
    pose proof (len_nonneg (escape_latex_chars f)).
    destruct (Z.eqb_spec (p + len (escape_latex_chars f) + 2) (-1)); [lia|].
    rewrite py_slice_between by lia.
    replace (p + len (escape_latex_chars f) + 2 - 1)
      with (p + len (escape_latex_chars f) + 1) by lia.
    rewrite Hb. rewrite (IH _ _ r) by (assumption || lia).
    rewrite <- app_assoc. do 2 f_equal.
    replace (brace_groups (escape_latex_chars f :: map escape_latex_chars fs))
      with (brace_groups (escape_latex_chars f :: map escape_latex_chars fs)
            ++ []) by apply app_nil_r.
    rewrite brace_groups_cons, app_nil_r.
    unfold len. simpl length. rewrite length_app. simpl length. lia.
Qed.

Lemma extract_latex_args_groups (text : str) (p : Z) (fs : list str) (r : str) :
  0 <= p -> fs <> [] ->
  skipn (Z.to_nat p) text = brace_groups (map escape_latex_chars fs) ++ r ->
  extract_latex_args text p (Z.of_nat (length fs))
  = Returns (Some (map escape_latex_chars fs),
             p + len (brace_groups (map escape_latex_chars fs))).
Proof.
  intros Hp Hne Hs. unfold extract_latex_args.
  assert (p < len text) as Hlt.
  { destruct fs as [|f fs]; [congruence|]. cbn [map] in Hs.
    rewrite brace_groups_cons in Hs.
    apply skipn_char_at in Hs as [Hc _]; [|assumption].
    apply char_at_Some_range in Hc. lia. }
  replace (match text with [] => true | _ :: _ => false end) with false
    by (destruct text; [unfold len in Hlt; simpl in Hlt; lia|reflexivity]).
  rewrite Z.geb_leb. destruct (Z.leb_spec (len text) p); [lia|].
  destruct (Z.leb_spec (Z.of_nat (length fs)) 0) as [Hz|_].
  { destruct fs; [congruence|simpl length in Hz; lia]. }
  cbn [orb]. rewrite Nat2Z.id.
  now rewrite (extract_loop_groups text p fs p [] r Hp Hs).
Qed.

(** ** What escaping leaves of the special characters *)

Lemma escaped_char_length (c : ascii) :
  (if latex_special c then 2 <= length (escaped_char c)
   else escaped_char c = [c])%nat.
Proof.
  destruct c as [[|] [|] [|] [|] [|] [|] [|] [|]]; vm_compute;
    try reflexivity; repeat constructor.
Qed.

Lemma escape_latex_chars_length (text : str) :
  (length text <= length (escape_latex_chars text))%nat
  /\ (forallb (fun c => negb (latex_special c)) text = true ->
      escape_latex_chars text = text)
  /\ (forallb (fun c => negb (latex_special c)) text = false ->
      (length text < length (escape_latex_chars text))%nat).
Proof.
  rewrite escape_latex_chars_flat_map.
  induction text as [|c text (IHle & IHid & IHlt)].
  - simpl. repeat split; [lia|discriminate].
  - cbn [flat_map forallb]. rewrite length_app.
    pose proof (escaped_char_length c) as Hc.
    destruct (latex_special c); cbn [negb andb].
    + split; [simpl; lia|]. split; [discriminate|]. intros _. simpl. lia.
    + rewrite Hc. simpl. split; [lia|]. split.
      * intros H. now rewrite IHid.
      * intros H. specialize (IHlt H). lia.
Qed.

Lemma specials_escaped_char (c : ascii) (r : str) :
  specials_escaped false (escaped_char c ++ r) = specials_escaped false r.
Proof.
  destruct c as [[|] [|] [|] [|] [|] [|] [|] [|]]; reflexivity.
Qed.

Lemma specials_escaped_escape (text : str) :
  specials_escaped false (escape_latex_chars text) = true.
Proof.
  rewrite escape_latex_chars_flat_map.
  induction text as [|c text IH]; [reflexivity|].
  cbn [flat_map]. now rewrite specials_escaped_char.
Qed.

Lemma specials_escaped_sound (text : str) :
  forall (s : str) (p : Z),
  0 <= p -> skipn (Z.to_nat p) text = s ->
  specials_escaped (escaped text p) s = true ->
  forall i c, p <= i -> char_at text i = Some c ->
              backslash_escaped c = true -> escaped text i = true.
Proof.
  induction s as [|x s IH]; intros p Hp Hs Hok i c Hi Hc Hsp.
  - apply char_at_Some_range in Hc.
    apply (f_equal (@length ascii)) in Hs. rewrite length_skipn in Hs.
    simpl in Hs. unfold len in Hc. lia.
  - destruct (skipn_char_at text p x s Hp Hs) as [Hx Hs'].
    cbn [specials_escaped] in Hok. apply andb_prop in Hok as [Hhere Hrest].
    destruct (Z.eq_dec i p) as [->|Hne].
    + rewrite Hx in Hc. injection Hc as ->. rewrite Hsp in Hhere.
      exact Hhere.
    + rewrite <- (escaped_next text p x Hp Hx) in Hrest.
      apply (IH (p + 1) ltac:(lia) Hs' Hrest i c); (assumption || lia).
Qed.

Lemma escaped_preceded (text : str) (i : Z) :
  escaped text i = true -> char_at text (i - 1) = Some backslash.
Proof.
  intros He. destruct (char_at text (i - 1)) as [c|] eqn:Hc.
  - destruct (Ascii.eqb_spec c backslash) as [->|Hne]; [reflexivity|].
    unfold escaped in He. rewrite preceding_not_backslash in He;
      [discriminate|congruence].
  - unfold escaped in He. rewrite preceding_not_backslash in He;
      [discriminate|congruence].
Qed.

(** ** Escaped text holds no link wrapper *)

Lemma skipn_flat_map_block {A B : Type} (f : A -> list B) (l : list A) :
  forall k : nat,
  skipn k (flat_map f l) = []
  \/ exists x l' j, (j < length (f x))%nat
                    /\ skipn k (flat_map f l) = skipn j (f x) ++ flat_map f l'.
Proof.
  induction l as [|x l IH]; intros k.
  - left. simpl. apply skipn_nil.
  - cbn [flat_map]. rewrite skipn_app.
    destruct (Nat.lt_ge_cases k (length (f x))) as [Hlt|Hge].
    + right. exists x, l, k. split; [assumption|].
      replace (k - length (f x))%nat with O by lia. reflexivity.
    + rewrite skipn_all2 by assumption. simpl.
      apply IH.
Qed.

Lemma strip_prefix_app_None (p q s : str) :
  strip_prefix p s = None -> strip_prefix (p ++ q) s = None.
Proof.
  intros H. destruct (strip_prefix (p ++ q) s) as [r|] eqn:E; [|reflexivity].
  apply strip_prefix_Some in E. rewrite <- app_assoc in E.
  apply strip_prefix_Some in E. congruence.
Qed.

Lemma latex_special_cases (c : ascii) :
  latex_special c = true ->
  In c [backslash; chr 95; chr 38; chr 35; chr 37; chr 36;
        lbrace; rbrace; chr 94; chr 126].
Proof.
  unfold latex_special, latex_escapes. cbn [existsb fst lit list_ascii_of_string].
  rewrite !orb_true_iff, !Ascii.eqb_eq. cbn [In]. intuition (subst; auto 20; discriminate).
Qed.

Lemma escaped_char_no_href (c : ascii) (j : nat) (r : str) :
  (j < length (escaped_char c))%nat ->
  strip_prefix (lit "\h") (skipn j (escaped_char c) ++ r) = None.
Proof.
  intros Hj. pose proof (escaped_char_length c) as Hc.
  destruct (latex_special c) eqn:E.
  - apply latex_special_cases in E. cbn [In] in E.
    repeat (destruct E as [<-|E]; [
      cbn in Hj;
      do 18 (destruct j as [|j]; [first [reflexivity|exfalso; lia]|]);
      exfalso; lia|]).
    destruct E.
  - rewrite Hc in *. simpl in Hj. destruct j as [|j]; [|lia].
    change (lit "\h") with [backslash; chr 104].
    cbn [skipn app strip_prefix].
    destruct (Ascii.eqb_spec backslash c) as [<-|_]; [|reflexivity].
    discriminate E.
Qed.

Lemma href_here_escape (text : str) (k : nat) :
  href_here (skipn k (escape_latex_chars text)) = None.
Proof.
  unfold href_here.
  assert (strip_prefix (lit "\href{") (skipn k (escape_latex_chars text))
          = None) as ->; [|reflexivity].
  change (lit "\href{") with (lit "\h" ++ lit "ref{").
  apply strip_prefix_app_None.
  rewrite escape_latex_chars_flat_map.
  destruct (skipn_flat_map_block escaped_char text k)
    as [->|(c & l' & j & Hj & ->)]; [reflexivity|].
  now apply escaped_char_no_href.
Qed.

Lemma split_link_escape (text : str) :
  split_link (escape_latex_chars text) = ([], escape_latex_chars text).
Proof.
  apply split_link_none. intros k u l H.
  apply href_here_spec in H. rewrite href_here_escape in H. discriminate.
Qed.

(** ** Escaping and trimming commute *)

Section LstripFlatMap.
Variable g : ascii -> str.
Hypothesis g_space : forall c, py_isspace c = true -> g c = [c].
Hypothesis g_other :
  forall c, py_isspace c = false ->
  exists x t, g c = x :: t /\ py_isspace x = false.

Lemma lstrip_flat_map (s : str) :
  lstrip (flat_map g s) = flat_map g (lstrip s).
Proof.
  induction s as [|c s IH]; [reflexivity|].
  cbn [flat_map lstrip]. destruct (py_isspace c) eqn:E.
  - rewrite (g_space c E). cbn [app lstrip]. now rewrite E.
  - destruct (g_other c E) as (x & t & Hg & Hx).
    rewrite Hg. cbn [app lstrip flat_map]. rewrite Hx.
    cbn [flat_map]. now rewrite Hg.
Qed.
End LstripFlatMap.

Lemma rev_flat_map {A B : Type} (f : A -> list B) (l : list A) :
  rev (flat_map f l) = flat_map (fun x => rev (f x)) (rev l).
Proof.
  induction l as [|x l IH]; [reflexivity|].
  cbn [flat_map rev]. rewrite rev_app_distr, IH, flat_map_app.
  simpl. now rewrite app_nil_r.
Qed.

(** A check that holds of the 256 characters holds of every character. *)
Lemma all_ascii (P : ascii -> bool) :
  forallb P (map ascii_of_nat (seq 0 256)) = true -> forall c, P c = true.
Proof.
  intros H c. rewrite forallb_forall in H. apply H.
  rewrite <- (ascii_nat_embedding c). apply in_map, in_seq.
  pose proof (nat_ascii_bounded c). lia.
Qed.


Lemma escaped_char_space (c : ascii) :
  py_isspace c = true -> escaped_char c = [c].
Proof.
  intros Hs. pose proof (escaped_char_length c) as H.
  destruct (latex_special c) eqn:E; [|assumption].
  apply latex_special_cases in E. cbn [In] in E.
  repeat (destruct E as [<-|E]; [discriminate Hs|]). destruct E.
Qed.

Lemma escaped_char_ends (c : ascii) :
  py_isspace c = false ->
  head_not_space (escaped_char c) = true
  /\ head_not_space (rev (escaped_char c)) = true.
Proof.
  intros Hs. pose proof (escaped_char_length c) as H.
  destruct (latex_special c) eqn:E.
  - apply latex_special_cases in E. cbn [In] in E.
    repeat (destruct E as [<-|E]; [split; reflexivity|]). destruct E.
  - rewrite H. simpl. now rewrite Hs.
Qed.

Lemma head_not_space_cons (s : str) :
  head_not_space s = true -> exists x t, s = x :: t /\ py_isspace x = false.
Proof.
  destruct s as [|x t]; [discriminate|]. simpl. intros H.
  exists x, t. split; [reflexivity|]. now apply negb_true_iff.
Qed.

Lemma strip_escape (text : str) :
  strip (escape_latex_chars text) = escape_latex_chars (strip text).
Proof.
  unfold strip, rstrip. rewrite !escape_latex_chars_flat_map.
  rewrite (lstrip_flat_map escaped_char).
  - rewrite rev_flat_map.
    rewrite (lstrip_flat_map (fun x => rev (escaped_char x))).
    + rewrite rev_flat_map. apply flat_map_ext. intros c.
      apply rev_involutive.
    + intros c E. now rewrite (escaped_char_space c E).
    + intros c E. apply head_not_space_cons, escaped_char_ends, E.
  - apply escaped_char_space.
  - intros c E. apply head_not_space_cons, escaped_char_ends, E.
Qed.

Lemma make_entry_escape (a b c d : str) :
  make_entry (escape_latex_chars a) (escape_latex_chars b)
             (escape_latex_chars c) (escape_latex_chars d)
  = row_entry (a, b, c, d).
Proof.
  unfold make_entry, row_entry. rewrite split_link_escape.
  now rewrite !strip_escape.
Qed.

(** ** A document written from rows *)

Lemma cventry_row_shape (a b c d : str) (rest : str) :
  cventry_row (a, b, c, d) ++ rest
  = (newline :: cventry_marker)
    ++ brace_groups (map escape_latex_chars [a; b; c; d]) ++ rest.
Proof.
  unfold cventry_row. cbn [app]. now rewrite <- app_assoc.
Qed.

Lemma cventry_step_row (text : str) (p : Z) (a b c d : str) (rest : str) :
  0 <= p ->
  skipn (Z.to_nat p) text = cventry_row (a, b, c, d) ++ rest ->
  cventry_step text p
  = Returns (Parsed (row_entry (a, b, c, d))
                    (p + len (cventry_row (a, b, c, d))))
    /\ skipn (Z.to_nat (p + len (cventry_row (a, b, c, d)))) text = rest.
Proof.
  intros Hp Hs. split; [|now apply skipn_more].
  rewrite cventry_row_shape in Hs.
  pose proof (skipn_more text p _ _ Hp Hs) as Hg.
  change (len (newline :: cventry_marker)) with 9 in Hg.
  unfold cventry_step. rewrite py_slice_from_skipn by assumption.
  rewrite Hs.
  change (search_cventry
            ((newline :: cventry_marker)
             ++ brace_groups (map escape_latex_chars [a; b; c; d]) ++ rest))
    with (Some (1, 9)).
  cbv iota beta.
  pose proof (extract_latex_args_groups text (p + 9) [a; b; c; d] rest
                ltac:(lia) ltac:(discriminate) Hg) as He.
  change (Z.of_nat (length [a; b; c; d])) with 4 in He.
  rewrite He. cbn [bind map]. rewrite make_entry_escape.
  do 2 f_equal. unfold cventry_row. unfold len. cbn [length].
  rewrite length_app. change (length cventry_marker) with 8%nat.
  cbn [map]. lia.
Qed.

Lemma cventry_loop_rows (text : str) :
  forall (rows : list (str * str * str * str)) (p : Z) (fuel : nat)
         (acc : list entry),
  0 <= p ->
  skipn (Z.to_nat p) text = cventry_rows rows ->
  (length rows <= fuel)%nat ->
  cventry_loop fuel text acc p = Returns (acc ++ map row_entry rows).
Proof.
  induction rows as [|[[[a b] c] d] rows IH]; intros p fuel acc Hp Hs Hf.
  - assert (cventry_step text p = Returns Break) as Hb.
    { unfold cventry_step. rewrite py_slice_from_skipn by assumption.
      now rewrite Hs. }
    simpl. rewrite app_nil_r.
    destruct fuel; cbn [cventry_loop]; now rewrite Hb.
  - destruct fuel as [|fuel]; [simpl in Hf; lia|].
    unfold cventry_rows in Hs. cbn [flat_map] in Hs.
    fold (cventry_rows rows) in Hs.
    destruct (cventry_step_row text p a b c d _ Hp Hs) as [Hstep Hrest].
    cbn [cventry_loop]. rewrite Hstep. cbn [bind].
    rewrite (IH _ fuel); [| |assumption|simpl in Hf; lia].
    + cbn [map]. now rewrite <- app_assoc.
    + pose proof (len_nonneg (cventry_row (a, b, c, d))). lia.
Qed.

Lemma cventry_rows_length (rows : list (str * str * str * str)) :
  (length rows <= length (cventry_rows rows))%nat.
Proof.
  induction rows as [|[[[a b] c] d] rows IH]; [simpl; lia|].
  unfold cventry_rows in *. cbn [flat_map]. rewrite length_app.
  assert (1 <= length (cventry_row (a, b, c, d)))%nat
    by (unfold cventry_row; simpl length; lia).
  cbn [length]. lia.
Qed.

Lemma parse_cventry_rows (rows : list (str * str * str * str)) :
  parse_cventry (Some (cventry_rows rows)) = Returns (map row_entry rows).
Proof.
  unfold parse_cventry.
  destruct (cventry_rows rows) as [|c t] eqn:E.
  - destruct rows as [|[[[a b] c] d] rows]; [reflexivity|].
    discriminate E.
  - rewrite <- E.
    rewrite (cventry_loop_rows (cventry_rows rows) rows 0 _ []);
      [reflexivity|lia|reflexivity|apply cventry_rows_length].
Qed.

(** ** Trimming keeps a part of the string *)

Lemma strip_part (s : str) : exists pre post, s = pre ++ strip s ++ post.
Proof.
  unfold strip. destruct (lstrip_suffix s) as [pre Hpre].
  destruct (rstrip_prefix (lstrip s)) as [post Hpost].
  exists pre, post. now rewrite <- Hpost.
Qed.

Lemma strip_Forall (P : ascii -> Prop) (s : str) :
  Forall P s -> Forall P (strip s).
Proof.
  intros H. destruct (strip_part s) as (pre & post & E).
  rewrite E in H. apply Forall_app in H as [_ H].
  now apply Forall_app in H as [H _].
Qed.

(** ** Splitting *)

Lemma py_split_cons (sep : ascii) (s : str) :
  exists piece pieces, py_split sep s = piece :: pieces.
Proof.
  induction s as [|c s (piece & pieces & IH)]; simpl; [eauto|].
  destruct (Ascii.eqb c sep); [eauto|]. rewrite IH. eauto.
Qed.

Lemma py_split_length (sep : ascii) (s : str) :
  length (py_split sep s) = S (count_occ ascii_dec s sep).
Proof.
  induction s as [|c s IH]; [reflexivity|]. cbn [py_split count_occ].
  destruct (Ascii.eqb_spec c sep) as [->|Hne].
  - destruct (ascii_dec sep sep); [|congruence]. simpl. now rewrite IH.
  - destruct (ascii_dec c sep); [congruence|].
    destruct (py_split_cons sep s) as (piece & pieces & E).
    rewrite E in *. exact IH.
Qed.

Lemma py_split_no_sep (sep : ascii) (s : str) :
  Forall (fun piece => ~ In sep piece) (py_split sep s).
Proof.
  induction s as [|c s IH]; simpl.
  - constructor; [intros []|constructor].
  - destruct (Ascii.eqb_spec c sep) as [->|Hne].
    + constructor; [intros []|assumption].
    + destruct (py_split sep s) as [|piece pieces];
        [constructor; [|constructor]; intros [H|[]]; congruence|].
      inversion IH as [|? ? Hp Hr]; subst. constructor; [|assumption].
      intros [H|H]; [congruence|auto].
Qed.

Lemma py_split_Forall (P : ascii -> Prop) (sep : ascii) (s : str) :
  Forall P s -> Forall (Forall P) (py_split sep s).
Proof.
  induction s as [|c s IH]; intros H; simpl.
  - repeat constructor.
  - inversion H as [|? ? Hc Hs]; subst. specialize (IH Hs).
    destruct (Ascii.eqb c sep); [constructor; [constructor|assumption]|].
    destruct (py_split sep s) as [|piece pieces]; [repeat constructor; assumption|].
    inversion IH; subst. constructor; [constructor|]; assumption.
Qed.

Lemma py_join_cons (sep : ascii) (p q : str) (r : list str) :
  py_join sep (p :: q :: r) = p ++ sep :: py_join sep (q :: r).
Proof. reflexivity. Qed.

Lemma py_join_split (sep : ascii) (s : str) :
  py_join sep (py_split sep s) = s.
Proof.
  induction s as [|c s IH]; [reflexivity|]. cbn [py_split].
  destruct (py_split_cons sep s) as (piece & pieces & E).
  rewrite E in *.
  destruct (Ascii.eqb_spec c sep) as [->|Hne].
  - rewrite py_join_cons, IH. reflexivity.
  - destruct pieces as [|p2 pieces].
    + simpl in *. now rewrite IH.
    + rewrite py_join_cons in *. cbn [app]. now rewrite IH.
Qed.

(** ** Substituting *)

Section SubFacts.
Variable match_here : str -> option (str * nat).

Lemma re_sub_from_Forall (P : ascii -> Prop) :
  (forall s repl n, Forall P s -> match_here s = Some (repl, n) ->
                    Forall P repl) ->
  forall s skip, Forall P s -> Forall P (re_sub_from match_here skip s).
Proof.
  intros Hrepl. induction s as [|c s IH]; intros skip H; [constructor|].
  inversion H as [|? ? Hc Hs]; subst. cbn [re_sub_from].
  destruct skip; [|now apply IH].
  destruct (match_here (c :: s)) as [[repl n]|] eqn:E.
  - apply Forall_app. split; [exact (Hrepl _ _ _ H E)|now apply IH].
  - constructor; [assumption|now apply IH].
Qed.

Lemma re_sub_unchanged (ok : ascii -> bool) :
  (forall c r, ok c = true -> match_here (c :: r) = None) ->
  forall s, forallb ok s = true -> re_sub match_here s = s.
Proof.
  intros Hnone. unfold re_sub. induction s as [|c s IH]; intros H;
    [reflexivity|].
  cbn [forallb] in H. apply andb_prop in H as [Hc Hs].
  cbn [re_sub_from]. rewrite (Hnone c s Hc). now rewrite IH.
Qed.
End SubFacts.

Lemma strip_prefix_Forall (P : ascii -> Prop) (p s r : str) :
  strip_prefix p s = Some r -> Forall P s -> Forall P r.
Proof.
  intros E H. apply strip_prefix_Some in E. subst s.
  now apply Forall_app in H as [_ H].
Qed.

Lemma span_not_rbrace_Forall (P : ascii -> Prop) (s g r : str) :
  span_not_rbrace s = (g, r) -> Forall P s -> Forall P g.
Proof.
  intros E H. apply span_not_rbrace_spec in E as (-> & _).
  now apply Forall_app in H as [H _].
Qed.

Lemma command_group_Forall (P : ascii -> Prop) (name s g : str) (n : nat) :
  Forall P s -> command_group_here name s = Some (g, n) -> Forall P g.
Proof.
  intros H. unfold command_group_here.
  destruct (strip_prefix _ s) as [s1|] eqn:E1; [|discriminate].
  destruct (span_not_rbrace s1) as [g' r] eqn:Eg.
  destruct g' as [|x g']; [discriminate|].
  destruct (strip_prefix [rbrace] r); [|discriminate].
  intros [= <- _]. eapply span_not_rbrace_Forall; [exact Eg|].
  eapply strip_prefix_Forall; eauto.
Qed.

Lemma href_here_Forall (P : ascii -> Prop) (s g1 g2 : str) :
  Forall P s -> href_here s = Some (g1, g2) -> Forall P g2.
Proof.
  intros H E. apply href_here_spec in E as (_ & _ & _ & _ & post & ->).
  apply Forall_app in H as [_ H]. apply Forall_app in H as [_ H].
  apply Forall_app in H as [_ H]. now apply Forall_app in H as [H _].
Qed.

(** ** [clean_latex_to_plain] leaves no comment character *)


Lemma re_sub_comment (s : str) (skip : nat) :
  Forall not_percent (re_sub_from comment_here skip s).
Proof.
  revert skip. induction s as [|c s IH]; intros skip; [constructor|].
  cbn [re_sub_from]. destruct skip; [|apply IH].
  cbn [comment_here]. destruct (Ascii.eqb_spec c percent) as [->|Hne].
  - cbn [app]. apply IH.
  - constructor; [exact Hne|apply IH].
Qed.

Lemma drop_group_repl (P : ascii -> Prop) (name s repl : str) (n : nat) :
  drop_group_here name s = Some (repl, n) -> Forall P repl.
Proof.
  unfold drop_group_here.
  destruct (command_group_here name s) as [[g k]|]; [|discriminate].
  intros [= <- _]. constructor.
Qed.

Lemma literal_repl (P : ascii -> Prop) (pattern r s repl : str) (n : nat) :
  Forall P r -> literal_here pattern r s = Some (repl, n) -> Forall P repl.
Proof.
  unfold literal_here. destruct (strip_prefix pattern s); [|discriminate].
  now intros H [= <- _].
Qed.

Lemma linebreak_repl (s repl : str) (n : nat) :
  linebreak_here s = Some (repl, n) -> repl = [newline].
Proof.
  unfold linebreak_here.
  destruct (strip_prefix [backslash; backslash] s) as [r|]; [|discriminate].
  destruct (strip_prefix [chr 91] r) as [r1|]; [|now intros [= <- _]].
  destruct (take_while is_digit r1); [now intros [= <- _]|].
  destruct (strip_prefix (lit "pt]") _); now intros [= <- _].
Qed.

Lemma spacing_repl (s repl : str) (n : nat) :
  spacing_here s = Some (repl, n) -> repl = [].
Proof.
  unfold spacing_here. destruct (strip_prefix _ s); [|discriminate].
  destruct (first_literal _ _); [|discriminate]. now intros [= <- _].
Qed.

Lemma blank_lines_repl (s repl : str) (n : nat) :
  blank_lines_here s = Some (repl, n) -> repl = [newline; newline].
Proof.
  unfold blank_lines_here. destruct s as [|c r]; [discriminate|].
  destruct (Ascii.eqb c newline); [|discriminate].
  destruct (_ <=? _)%nat; [|discriminate]. now intros [= <- _].
Qed.

Ltac chars_not_percent :=
  repeat constructor;
  let E := fresh "E" in intro E; vm_compute in E; discriminate E.

Ltac sub_step tac :=
  apply re_sub_from_Forall; [intros ?s ?repl ?n ?Hs ?Hm; tac|].

Lemma clean_latex_to_plain_Forall (text : str) :
  Forall not_percent (clean_latex_to_plain text).
Proof.
  unfold clean_latex_to_plain. apply strip_Forall. unfold re_sub.
  sub_step ltac:(idtac; match goal with
                 | H : blank_lines_here _ = _ |- _ =>
                   rewrite (blank_lines_repl _ _ _ H);
                   chars_not_percent
                 end).
  sub_step ltac:(eapply drop_group_repl; eassumption).
  sub_step ltac:(eapply drop_group_repl; eassumption).
  sub_step ltac:(eapply literal_repl; [|eassumption];
                 chars_not_percent).
  sub_step ltac:(eapply literal_repl; [|eassumption]; constructor).
  sub_step ltac:(idtac; match goal with
                 | H : linebreak_here _ = _ |- _ =>
                   rewrite (linebreak_repl _ _ _ H);
                   chars_not_percent
                 end).
  sub_step ltac:(eapply drop_group_repl; eassumption).
  sub_step ltac:(idtac; match goal with
                 | H : spacing_here _ = _ |- _ =>
                   rewrite (spacing_repl _ _ _ H); constructor
                 end).
  sub_step ltac:(eapply command_group_Forall; eassumption).
  sub_step ltac:(idtac; match goal with
                 | H : href_label_here ?s = _ |- _ =>
                   unfold href_label_here in H;
                   destruct (href_here s) as [[g1 g2]|] eqn:E;
                   [|discriminate]; injection H as <- _;
                   eapply href_here_Forall; eassumption
                 end).
  sub_step ltac:(eapply command_group_Forall; eassumption).
  sub_step ltac:(eapply command_group_Forall; eassumption).
  apply re_sub_comment.
Qed.

(** ** Plain text goes through [clean_latex_to_plain] *)

Lemma plain_char_spec (c : ascii) :
  plain_char c = true ->
  Ascii.eqb backslash c = false /\ Ascii.eqb c percent = false
  /\ Ascii.eqb c newline = false.
Proof.
  unfold plain_char. rewrite negb_true_iff, !orb_false_iff.
  intros ((Hb & Hp) & Hn). repeat split; try assumption.
Qed.

Lemma strip_prefix_backslash (p r : str) (c : ascii) :
  Ascii.eqb backslash c = false -> strip_prefix (backslash :: p) (c :: r) = None.
Proof. intros H. cbn [strip_prefix]. now rewrite H. Qed.

Ltac plain_step m :=
  let c := fresh "c" in
  let r := fresh "r" in
  let Hc := fresh "Hc" in
  rewrite (re_sub_unchanged m plain_char);
  [| intros c r Hc;
     destruct (plain_char_spec c Hc) as (?Hb & ?Hp & ?Hn);
     try (cbv beta delta [unwrap_here drop_group_here command_group_here
                          spacing_here linebreak_here literal_here];
          rewrite strip_prefix_backslash by assumption; reflexivity)
   | assumption ].

Lemma clean_latex_to_plain_plain (text : str) :
  forallb plain_char text = true -> clean_latex_to_plain text = strip text.
Proof.
  intros H. unfold clean_latex_to_plain.
  plain_step comment_here.
  2: { unfold comment_here. now rewrite Hp. }
  plain_step (unwrap_here (lit "textbf")).
  plain_step (unwrap_here (lit "textit")).
  plain_step href_label_here.
  2: { unfold href_label_here, href_here.
       change (lit "\href{") with (backslash :: lit "href{").
       now rewrite strip_prefix_backslash by assumption. }
  plain_step (unwrap_here (lit "section")).
  plain_step spacing_here.
  plain_step (drop_group_here (lit "vspace")).
  plain_step linebreak_here.
  plain_step (literal_here (lit "\item") []).
  2: { unfold literal_here.
       change (lit "\item") with (backslash :: lit "item").
       now rewrite strip_prefix_backslash by assumption. }
  plain_step (literal_here (lit "\textbar{}") (lit "|")).
  2: { unfold literal_here.
       change (lit "\textbar{}") with (backslash :: lit "textbar{}").
       now rewrite strip_prefix_backslash by assumption. }
  plain_step (drop_group_here (lit "begin")).
  plain_step (drop_group_here (lit "end")).
  plain_step blank_lines_here.
  2: { unfold blank_lines_here. now rewrite Hn. }
  reflexivity.
Qed.

(** ** The projects *)

Lemma not_in_Forall (x : ascii) (s : str) :
  ~ In x s <-> Forall (fun c => c <> x) s.
Proof.
  rewrite Forall_forall. split.
  - intros H c Hc ->. auto.
  - intros H Hx. now apply (H x Hx).
Qed.

Lemma strip_not_in (x : ascii) (s : str) : ~ In x s -> ~ In x (strip s).
Proof. rewrite !not_in_Forall. apply strip_Forall. Qed.

Lemma keywords_of_entry (e : entry) :
  length (p_keywords (project_of e)) = S (count_occ ascii_dec (tech e) comma)
  /\ Forall (fun k => trimmed k /\ ~ In comma k) (p_keywords (project_of e))
  /\ exists pieces,
       py_join comma pieces = tech e
       /\ p_keywords (project_of e) = map strip pieces.
Proof.
  cbn [project_of p_keywords]. split; [|split].
  - now rewrite length_map, py_split_length.
  - apply Forall_map.
    eapply Forall_impl; [|apply (py_split_no_sep comma (tech e))].
    intros piece Hp. split; [apply strip_trimmed|now apply strip_not_in].
  - exists (py_split comma (tech e)). split; [apply py_join_split|reflexivity].
Qed.

Lemma highlights_of_spec (plain : str) (h : str) :
  In h (highlights_of plain) ->
  h <> [] /\ trimmed h /\ startswith h [backslash] = false
  /\ ~ In newline h
  /\ (Forall not_percent plain -> ~ In percent h).
Proof.
  unfold highlights_of. rewrite filter_In, in_map_iff.
  intros [(piece & <- & Hin) Hkeep].
  apply andb_prop in Hkeep as [Hne Hb]. apply negb_true_iff in Hb.
  split; [destruct (strip piece); [discriminate|discriminate]|].
  split; [apply strip_trimmed|]. split; [assumption|]. split.
  - apply strip_not_in.
    pose proof (py_split_no_sep newline plain) as H.
    rewrite Forall_forall in H. now apply H.
  - intros Hp. apply not_in_Forall, strip_Forall.
    pose proof (py_split_Forall not_percent newline plain Hp) as H.
    rewrite Forall_forall in H. now apply H.
Qed.

Lemma project_of_highlights (e : entry) :
  (forall h, In h (p_highlights (project_of e)) ->
     h <> [] /\ trimmed h /\ startswith h [backslash] = false
     /\ ~ In newline h /\ ~ In percent h)
  /\ p_description (project_of e)
     = match p_highlights (project_of e) with
       | h :: _ => h
       | [] => title e
       end.
Proof.
  cbn [project_of p_highlights p_description]. split; [|reflexivity].
  intros h Hh. apply highlights_of_spec in Hh as (H1 & H2 & H3 & H4 & H5).
  repeat split; try assumption; try apply H2.
  apply H5, clean_latex_to_plain_Forall.
Qed.

Lemma parse_projects_returns (content : option str) :
  exists entries projects,
    parse_cventry content = Returns entries
    /\ parse_projects_from_latex content = Returns projects
    /\ map p_name projects = map title entries
    /\ map p_url projects = map link_url entries
    /\ length projects = length entries.
Proof.
  destruct (parse_cventry_returns content) as (entries & He & _).
  exists entries, (map project_of entries).
  split; [assumption|]. split.
  - destruct content as [[|c t]|]; cbn [parse_projects_from_latex].
    + injection He as <-. reflexivity.
    + now rewrite He.
    + injection He as <-. reflexivity.
  - rewrite !map_map, length_map. repeat split.
    apply map_ext. intros e. cbn [project_of p_url].
    now destruct (link_url e).
Qed.

(** ** The profile user name *)

Lemma py_last_cons (x y : str) (l : list str) :
  py_last (x :: y :: l) = py_last (y :: l).
Proof.
  unfold py_last. cbn [rev].
  destruct (rev l ++ [y]) as [|z t] eqn:E.
  - destruct (rev l); discriminate.
  - reflexivity.
Qed.

Lemma profile_username_spec (sep : ascii) (s : str) :
  exists u pre,
    py_last (py_split sep s) = Returns u
    /\ ~ In sep u
    /\ s = pre ++ u
    /\ (pre = [] \/ exists pre', pre = pre' ++ [sep]).
Proof.
  induction s as [|c s (u & pre & Hl & Hu & Hs & Hpre)].
  - exists [], []. repeat split; auto.
  - cbn [py_split]. destruct (py_split_cons sep s) as (piece & pieces & E).
    rewrite E in *. destruct (Ascii.eqb_spec c sep) as [->|Hne].
    + rewrite py_last_cons. exists u, (sep :: pre).
      split; [assumption|]. split; [assumption|].
      split; [now rewrite Hs|]. right.
      destruct Hpre as [->|(pre' & ->)]; [now exists []|].
      now exists (sep :: pre').
    + destruct pieces as [|p2 pieces].
      * assert (~ In sep s) as Hnone.
        { apply (count_occ_not_In ascii_dec).
          pose proof (py_split_length sep s) as Hlen. rewrite E in Hlen.
          simpl in Hlen. lia. }
        assert (pre = []) as ->.
        { destruct Hpre as [->|(pre' & ->)]; [reflexivity|].
          exfalso. apply Hnone. rewrite Hs. apply in_or_app. left.
          apply in_or_app. right. now left. }
        simpl in Hs. subst u. cbv in Hl. injection Hl as ->.
        exists (c :: s), []. split; [reflexivity|]. split; [|auto].
        intros [H|H]; [congruence|auto].
      * rewrite py_last_cons in *. exists u, (c :: pre).
        split; [assumption|]. split; [assumption|].
        split; [now rewrite Hs|]. right.
        destruct Hpre as [->|(pre' & ->)].
        -- exfalso. simpl in Hs. subst s.
           pose proof (py_split_length sep u) as Hlen. rewrite E in Hlen.
           simpl in Hlen. assert (count_occ ascii_dec u sep = O) as H0
             by now apply count_occ_not_In.
           lia.
        -- now exists (c :: pre').
Qed.

(** ** The matcher decides the language of a pattern *)

Lemma matches_never_inv (s : str) : ~ matches Never s.
Proof. intros H. inversion H. Qed.

Lemma matches_eps_inv (s : str) : matches Eps s -> s = [].
Proof. intros H. now inversion H. Qed.

Lemma matches_chars_inv (p : ascii -> bool) (s : str) :
  matches (Chars p) s -> exists c, s = [c] /\ p c = true.
Proof. intros H. inversion H; subst. eauto. Qed.

Lemma matches_cat_inv (r1 r2 : regex) (s : str) :
  matches (Cat r1 r2) s ->
  exists s1 s2, s = s1 ++ s2 /\ matches r1 s1 /\ matches r2 s2.
Proof. intros H. inversion H; subst. eauto. Qed.

Lemma matches_alt_inv (r1 r2 : regex) (s : str) :
  matches (Alt r1 r2) s -> matches r1 s \/ matches r2 s.
Proof. intros H. inversion H; subst; auto. Qed.

Lemma matches_cat_nil (r1 r2 : regex) (s : str) :
  matches r1 [] -> matches r2 s -> matches (Cat r1 r2) s.
Proof. intros H1 H2. change s with ([] ++ s). now constructor. Qed.

Lemma matches_cat_cons (r1 r2 : regex) (c : ascii) (s1 s2 : str) :
  matches r1 (c :: s1) -> matches r2 s2 -> matches (Cat r1 r2) (c :: s1 ++ s2).
Proof.
  intros H1 H2. change (c :: s1 ++ s2) with ((c :: s1) ++ s2).
  now constructor.
Qed.

Lemma nullable_matches (r : regex) : nullable r = true <-> matches r [].
Proof.
  induction r as [| |p|r1 IH1 r2 IH2|r1 IH1 r2 IH2|r IH]; simpl.
  - split; [discriminate|]. intros H. now apply matches_never_inv in H.
  - split; [constructor|reflexivity].
  - split; [discriminate|]. intros H.
    apply matches_chars_inv in H as (c & E & _). discriminate.
  - rewrite andb_true_iff, IH1, IH2. split.
    + intros [H1 H2]. now apply matches_cat_nil.
    + intros H. apply matches_cat_inv in H as (s1 & s2 & E & H1 & H2).
      symmetry in E. apply app_eq_nil in E as [-> ->]. now split.
  - rewrite orb_true_iff, IH1, IH2. split.
    + intros [H|H]; [now apply matches_alt_l|now apply matches_alt_r].
    + apply matches_alt_inv.
  - split; [constructor|reflexivity].
Qed.

Lemma cat_matches (r1 r2 : regex) (s : str) :
  matches (cat r1 r2) s <-> matches (Cat r1 r2) s.
Proof.
  split.
  - intros H. destruct r1; destruct r2; simpl in H;
      try exact H; try (now apply matches_never_inv in H);
      apply matches_cat_nil; first [assumption|constructor].
  - intros H. apply matches_cat_inv in H as (s1 & s2 & -> & H1 & H2).
    destruct r1; destruct r2; simpl;
      try (now apply matches_never_inv in H1);
      try (now apply matches_never_inv in H2);
      try (now constructor);
      apply matches_eps_inv in H1; subst; simpl; assumption.
Qed.

Lemma alt_matches (r1 r2 : regex) (s : str) :
  matches (alt r1 r2) s <-> matches (Alt r1 r2) s.
Proof.
  split.
  - intros H. destruct r1; destruct r2; simpl in H;
      try exact H;
      first [ now apply matches_alt_l | now apply matches_alt_r ].
  - intros H. apply matches_alt_inv in H.
    destruct r1; destruct r2; simpl;
      destruct H as [H|H];
      try (now apply matches_never_inv in H);
      try assumption;
      first [ now apply matches_alt_l | now apply matches_alt_r ].
Qed.

Lemma star_cons_inv (r : regex) (c : ascii) (s : str) :
  matches (Star r) (c :: s) ->
  exists s1 s2, s = s1 ++ s2 /\ matches r (c :: s1) /\ matches (Star r) s2.
Proof.
  intros H. remember (Star r) as r' eqn:Er. remember (c :: s) as t eqn:Et.
  revert c s Et.
  induction H as [| | | | | |r0 s1 s2 H1 _ H2 IH2]; try discriminate.
  injection Er as ->. intros c s Et.
  destruct s1 as [|c1 s1].
  - simpl in Et. now apply IH2.
  - simpl in Et. injection Et as -> <-. eauto.
Qed.

Lemma deriv_cat_matches (r1 r2 : regex) (c : ascii) (s : str) :
  (forall s, matches (deriv c r1) s <-> matches r1 (c :: s)) ->
  matches (Cat (deriv c r1) r2) s
  <-> exists s1 s2, s = s1 ++ s2 /\ matches r1 (c :: s1) /\ matches r2 s2.
Proof.
  intros IH1. split.
  - intros H. apply matches_cat_inv in H as (s1 & s2 & -> & H1 & H2).
    apply IH1 in H1. eauto.
  - intros (s1 & s2 & -> & H1 & H2).
    constructor; [now apply IH1|assumption].
Qed.

Lemma cat_cons_inv (r1 r2 : regex) (c : ascii) (s : str) :
  matches (Cat r1 r2) (c :: s) ->
  (matches r1 [] /\ matches r2 (c :: s))
  \/ exists s1 s2, s = s1 ++ s2 /\ matches r1 (c :: s1) /\ matches r2 s2.
Proof.
  intros H. apply matches_cat_inv in H as (s1 & s2 & E & H1 & H2).
  destruct s1 as [|c1 s1].
  - simpl in E. subst s2. now left.
  - simpl in E. injection E as -> ->. right. eauto.
Qed.

Lemma deriv_matches (r : regex) :
  forall (c : ascii) (s : str), matches (deriv c r) s <-> matches r (c :: s).
Proof.
  induction r as [| |p|r1 IH1 r2 IH2|r1 IH1 r2 IH2|r IH]; intros c s;
    cbn [deriv].
  - split; intros H; now apply matches_never_inv in H.
  - split; intros H; [now apply matches_never_inv in H|].
    apply matches_eps_inv in H. discriminate.
  - destruct (p c) eqn:E; split; intros H.
    + apply matches_eps_inv in H. subst. now constructor.
    + apply matches_chars_inv in H as (c' & [= <- ->] & _). constructor.
    + now apply matches_never_inv in H.
    + apply matches_chars_inv in H as (c' & [= <- ->] & H). congruence.
  - pose proof (deriv_cat_matches r1 r2 c s (IH1 c)) as Hcat.
    destruct (nullable r1) eqn:En.
    + rewrite alt_matches. split.
      * intros H. apply matches_alt_inv in H as [Hl|Hr].
        -- apply cat_matches, Hcat in Hl as (s1 & s2 & -> & H1 & H2).
           now apply matches_cat_cons.
        -- apply IH2 in Hr. apply nullable_matches in En.
           now apply matches_cat_nil.
      * intros H. apply cat_cons_inv in H as [[_ H2]|H].
        -- apply matches_alt_r. now apply IH2.
        -- apply matches_alt_l, cat_matches, Hcat, H.
    + rewrite cat_matches, Hcat. split.
      * intros (s1 & s2 & -> & H1 & H2). now apply matches_cat_cons.
      * intros H. apply cat_cons_inv in H as [[H1 _]|H]; [|exact H].
        apply nullable_matches in H1. congruence.
  - rewrite alt_matches. split.
    + intros H. apply matches_alt_inv in H as [H|H];
        [apply matches_alt_l; now apply IH1|apply matches_alt_r; now apply IH2].
    + intros H. apply matches_alt_inv in H as [H|H];
        [apply matches_alt_l; now apply IH1|apply matches_alt_r; now apply IH2].
  - rewrite cat_matches. split.
    + intros H. apply matches_cat_inv in H as (s1 & s2 & -> & H1 & H2).
      apply IH in H1.
      change (c :: s1 ++ s2) with ((c :: s1) ++ s2). now constructor.
    + intros H. apply star_cons_inv in H as (s1 & s2 & -> & H1 & H2).
      constructor; [now apply IH|assumption].
Qed.

Lemma accepts_matches (s : str) :
  forall r : regex, accepts r s = true <-> matches r s.
Proof.
  induction s as [|c s IH]; intros r; cbn [accepts].
  - apply nullable_matches.
  - rewrite IH. apply deriv_matches.
Qed.

(** ** The languages of the pieces *)

Lemma matches_star_chars (p : ascii -> bool) (s : str) :
  matches (Star (Chars p)) s <-> forallb p s = true.
Proof.
  split.
  - intros H. remember (Star (Chars p)) as r eqn:Er.
    induction H as [| | | | | |r0 s1 s2 H1 _ _ IH2]; try discriminate.
    + reflexivity.
    + injection Er as ->. apply matches_chars_inv in H1 as (c & -> & Hc).
      simpl. rewrite Hc. now apply IH2.
  - induction s as [|c s IH]; intros H; [constructor|].
    simpl in H. apply andb_prop in H as [Hc Hs].
    change (c :: s) with ([c] ++ s). constructor; [now constructor|auto].
Qed.

Lemma matches_plus_chars (p : ascii -> bool) (s : str) :
  matches (Plus (Chars p)) s <-> s <> [] /\ forallb p s = true.
Proof.
  unfold Plus. split.
  - intros H. apply matches_cat_inv in H as (s1 & s2 & -> & H1 & H2).
    apply matches_chars_inv in H1 as (c & -> & Hc).
    apply matches_star_chars in H2. simpl. rewrite Hc.
    split; [discriminate|assumption].
  - intros [Hne H]. destruct s as [|c s]; [congruence|].
    simpl in H. apply andb_prop in H as [Hc Hs].
    change (c :: s) with ([c] ++ s).
    constructor; [now constructor|now apply matches_star_chars].
Qed.

Lemma matches_chr (c : ascii) (s : str) : matches (Chr c) s <-> s = [c].
Proof.
  unfold Chr. split.
  - intros H. apply matches_chars_inv in H as (x & -> & Hx).
    now apply Ascii.eqb_eq in Hx as ->.
  - intros ->. constructor. apply Ascii.eqb_refl.
Qed.

Lemma matches_atleast2_chars (p : ascii -> bool) (s : str) :
  matches (AtLeast 2 (Chars p)) s
  <-> (2 <= length s)%nat /\ forallb p s = true.
Proof.
  unfold AtLeast. cbn [Times]. split.
  - intros H. apply matches_cat_inv in H as (s1 & s2 & -> & H1 & H2).
    apply matches_cat_inv in H1 as (a & s3 & -> & Ha & H3).
    apply matches_cat_inv in H3 as (b & s4 & -> & Hb & H4).
    apply matches_eps_inv in H4 as ->.
    apply matches_chars_inv in Ha as (ca & -> & Hca).
    apply matches_chars_inv in Hb as (cb & -> & Hcb).
    apply matches_star_chars in H2. simpl. rewrite Hca, Hcb.
    split; [lia|assumption].
  - intros [Hlen H]. destruct s as [|a [|b s]]; simpl in Hlen; try lia.
    simpl in H. apply andb_prop in H as [Ha H]. apply andb_prop in H as [Hb H].
    change (a :: b :: s) with (([a] ++ [b] ++ []) ++ s).
    constructor; [|now apply matches_star_chars].
    constructor; [now constructor|].
    constructor; [now constructor|constructor].
Qed.

Lemma match_to_end_spec (r : regex) (s : str) :
  match_to_end r s = true
  <-> matches r s \/ exists t, s = t ++ [newline] /\ matches r t.
Proof.
  unfold match_to_end. rewrite orb_true_iff, accepts_matches. split.
  - intros [H|H]; [now left|]. right.
    destruct (rev s) as [|c t] eqn:E; [discriminate|].
    apply andb_prop in H as [Hc Ht]. apply Ascii.eqb_eq in Hc. subst c.
    apply accepts_matches in Ht. exists (rev t). split; [|assumption].
    rewrite <- (rev_involutive s), E. reflexivity.
  - intros [H|(t & -> & H)]; [now left|]. right.
    rewrite rev_unit, Ascii.eqb_refl, rev_involutive.
    now apply accepts_matches.
Qed.

(** ** [validate_email] *)

Lemma email_pattern_shape (s : str) : matches email_pattern s <-> email_shape s.
Proof.
  unfold email_pattern, email_shape. split.
  - intros H. apply matches_cat_inv in H as (loc & s1 & -> & Hloc & H).
    apply matches_cat_inv in H as (a & s2 & -> & Ha & H).
    apply matches_cat_inv in H as (dom & s3 & -> & Hdom & H).
    apply matches_cat_inv in H as (d & tld & -> & Hd & Htld).
    apply matches_chr in Ha as ->. apply matches_chr in Hd as ->.
    apply matches_plus_chars in Hloc as [Hl1 Hl2].
    apply matches_plus_chars in Hdom as [Hd1 Hd2].
    apply matches_atleast2_chars in Htld as [Ht1 Ht2].
    exists loc, dom, tld. repeat split; assumption.
  - intros (loc & dom & tld & -> & Hl1 & Hl2 & Hd1 & Hd2 & Ht1 & Ht2).
    constructor; [now apply matches_plus_chars|].
    change (at_sign :: dom ++ dot :: tld)
      with ([at_sign] ++ dom ++ [dot] ++ tld).
    constructor; [now apply matches_chr|].
    constructor; [now apply matches_plus_chars|].
    constructor; [now apply matches_chr|].
    now apply matches_atleast2_chars.
Qed.

Lemma count_occ_class (p : ascii -> bool) (x : ascii) (s : str) :
  p x = false -> forallb p s = true -> count_occ ascii_dec s x = O.
Proof.
  intros Hx H. apply count_occ_not_In. intros Hin.
  rewrite forallb_forall in H. rewrite (H x Hin) in Hx. discriminate.
Qed.

Lemma email_shape_one_at (s : str) :
  email_shape s -> count_occ ascii_dec s at_sign = 1%nat.
Proof.
  intros (loc & dom & tld & -> & _ & Hl & _ & Hd & _ & Ht).
  rewrite count_occ_app. cbn [count_occ].
  destruct (ascii_dec at_sign at_sign); [|congruence].
  rewrite count_occ_app. cbn [count_occ].
  destruct (ascii_dec dot at_sign); [discriminate|].
  rewrite (count_occ_class email_local_char at_sign loc eq_refl Hl).
  rewrite (count_occ_class email_domain_char at_sign dom eq_refl Hd).
  now rewrite (count_occ_class (fun c => is_lower c || is_upper c)
                 at_sign tld eq_refl Ht).
Qed.

(** ** [validate_url] *)

Lemma matches_chars_within (P : ascii -> bool) (r : regex) (s : str) :
  chars_within P r = true -> matches r s -> forallb P s = true.
Proof.
  intros Hr H. revert Hr.
  induction H as [|p c Hc|r1 r2 s1 s2 _ IH1 _ IH2|r1 r2 s1 _ IH1
                 |r1 r2 s1 _ IH1| |r1 s1 s2 _ IH1 _ IH2];
    cbn [chars_within]; intros Hr.
  - reflexivity.
  - simpl. rewrite andb_true_r.
    pose proof (all_ascii _ Hr c) as Hi. simpl in Hi.
    rewrite Hc in Hi. exact Hi.
  - apply andb_prop in Hr as [Hr1 Hr2].
    rewrite forallb_app. now rewrite IH1, IH2.
  - apply andb_prop in Hr as [Hr1 Hr2]. auto.
  - apply andb_prop in Hr as [Hr1 Hr2]. auto.
  - reflexivity.
  - rewrite forallb_app. now rewrite IH1, IH2.
Qed.

Lemma matches_lit_ci (l s : str) :
  matches (ignore_case (Lit l)) s -> eq_ci l s = true.
Proof.
  revert s. induction l as [|d l IH]; intros s H; cbn [Lit ignore_case] in H.
  - now apply matches_eps_inv in H as ->.
  - apply matches_cat_inv in H as (s1 & s2 & -> & H1 & H2).
    apply matches_chars_inv in H1 as (c & -> & Hc).
    cbn [app eq_ci]. rewrite Hc. now apply IH.
Qed.

Lemma eq_ci_app (l1 l2 s1 s2 : str) :
  eq_ci l1 s1 = true -> eq_ci l2 s2 = true -> eq_ci (l1 ++ l2) (s1 ++ s2) = true.
Proof.
  revert s1. induction l1 as [|d l1 IH]; intros [|c s1] H1 H2;
    simpl in *; try discriminate; [assumption|].
  apply andb_prop in H1 as [Hc H1]. rewrite Hc. now apply IH.
Qed.

Lemma eq_ci_length (l s : str) : eq_ci l s = true -> length s = length l.
Proof.
  revert s. induction l as [|d l IH]; intros [|c s] H;
    cbn [eq_ci] in H; try discriminate H; [reflexivity|].
  apply andb_prop in H as [_ H]. cbn [length]. f_equal. now apply IH.
Qed.

(** The colon and the slash have no other case. *)
Lemma eq_ci_colon_slash (s : str) : eq_ci (lit "://") s = true -> s = lit "://".
Proof.
  assert (forall d c, In d [chr 58; chr 47] ->
            Ascii.eqb d c || Ascii.eqb d (swapcase c) = true -> c = d) as Hc.
  { intros d c Hd H.
    assert (forallb (fun x => implb (Ascii.eqb d x || Ascii.eqb d (swapcase x))
                                    (Ascii.eqb d x)) all_chars = true) as Hall
      by (destruct Hd as [<-|[<-|[]]]; vm_compute; reflexivity).
    pose proof (all_ascii _ Hall c) as Hi. cbv beta in Hi.
    rewrite H in Hi. cbn [implb] in Hi.
    apply Ascii.eqb_eq in Hi. now subst. }
  change (lit "://") with [chr 58; chr 47; chr 47].
  intros H. destruct s as [|a [|b [|c [|x s]]]];
    cbn [eq_ci] in H; try discriminate H;
    repeat match goal with
           | Hx : _ && _ = true |- _ => apply andb_prop in Hx as [? ?]
           end;
    try match goal with Hx : false = true |- _ => discriminate Hx end.
  repeat match goal with
         | Hx : Ascii.eqb _ _ || _ = true |- _ =>
           apply Hc in Hx; [subst|cbn [In]; auto]
         end.
  reflexivity.
Qed.

Lemma url_pattern_http (t tail : str) :
  matches url_pattern t ->
  eq_ci (lit "http") (firstn 4 (t ++ tail)) = true
  /\ exists rest,
       skipn 4 (t ++ tail) = lit "://" ++ rest
       \/ exists c, skipn 4 (t ++ tail) = c :: lit "://" ++ rest.
Proof.
  unfold url_pattern, url_pattern_cased. cbn [ignore_case]. intros H.
  apply matches_cat_inv in H as (s1 & t1 & -> & H1 & H).
  apply matches_cat_inv in H as (s2 & t2 & -> & H2 & H).
  apply matches_cat_inv in H as (s3 & rest & -> & H3 & _).
  apply matches_lit_ci in H1. apply matches_lit_ci in H3.
  apply eq_ci_colon_slash in H3. subst s3.
  pose proof (eq_ci_length _ _ H1) as Hlen.
  change (length (lit "http")) with 4%nat in Hlen.
  destruct s1 as [|a [|b [|c [|d [|x s1]]]]]; try discriminate Hlen.
  split; [exact H1|].
  exists (rest ++ tail).
  apply matches_alt_inv in H2 as [H2|H2].
  - right. apply matches_chars_inv in H2 as (c' & -> & _).
    exists c'. rewrite <- !app_assoc. reflexivity.
  - left. apply matches_eps_inv in H2 as ->.
    rewrite <- !app_assoc. reflexivity.
Qed.

(** ** The tests of the other functions *)

Example test_escape_latex_chars :
  escape_latex_chars (lit "Test_with#special$chars&more%stuff")
  = lit "Test\_with\#special\$chars\&more\%stuff".
Proof. reflexivity. Qed.

Example test_clean_latex_to_plain :
  clean_latex_to_plain (lit "\textbf{Bold} and \textit{italic} text")
  = lit "Bold and italic text"
  /\ clean_latex_to_plain (lit "\href{http://example.com}{Link Text}")
     = lit "Link Text".
Proof. split; reflexivity. Qed.

Example test_validate_url :
  validate_url (lit "https://github.com/user/repo") = true
  /\ validate_url (lit "http://example.com") = true
  /\ validate_url (lit "not-a-url") = false
  /\ validate_url (lit "ftp://example.com") = false.
Proof. repeat split; vm_compute; reflexivity. Qed.

Example test_validate_email :
  validate_email (lit "test@example.com") = true
  /\ validate_email (lit "user.name+tag@example.co.uk") = true
  /\ validate_email (lit "invalid@") = false
  /\ validate_email (lit "@example.com") = false
  /\ validate_email (lit "notanemail") = false.
Proof. repeat split; vm_compute; reflexivity. Qed.

(** The user names that [generate_json_resume] writes for the two
    addresses of [config.py]. *)
Example config_profile_usernames :
  profile_username linkedin_url = Returns []
  /\ profile_username github_url = Returns (lit "SumitWiki").
Proof. split; reflexivity. Qed.

(** ** Properties of [escape_latex_chars] *)

(** X1. The ten replacements of [escape_latex_chars], made one after the
    other over the whole text, amount to one pass that replaces every
    character by its image in the table [escaped_char].  In that table a
    backslash goes to [\textbackslash\{\}], not to [\textbackslash{}]: the
    braces written by the first replacement are escaped by the seventh and
    the eighth. *)
Theorem escape_latex_chars_per_char (text : str) :
  escape_latex_chars text = flat_map escaped_char text.
Proof. apply escape_latex_chars_flat_map. Qed.

(** X2. [escape_latex_chars] returns a text without any of the ten special
    characters unchanged, and makes every other text strictly longer. *)
Theorem escape_latex_chars_identity_or_longer (text : str) :
  if forallb (fun c => negb (latex_special c)) text
  then escape_latex_chars text = text
  else (length text < length (escape_latex_chars text))%nat.
Proof.
  destruct (escape_latex_chars_length text) as (_ & Hid & Hlong).
  destruct (forallb _ text); auto.
Qed.

(** X3. In the result of [escape_latex_chars] every underscore, ampersand,
    hash, percent and dollar sign is escaped in the sense of the brace
    matcher (an odd number of backslashes stands right before it), so a
    backslash is the character before it. *)
Theorem escape_latex_chars_specials_escaped (text : str) (i : Z) (c : ascii) :
  char_at (escape_latex_chars text) i = Some c ->
  backslash_escaped c = true ->
  escaped (escape_latex_chars text) i = true
  /\ char_at (escape_latex_chars text) (i - 1) = Some backslash.
Proof.
  intros Hc Hb.
  assert (escaped (escape_latex_chars text) i = true) as He.
  { pose proof (char_at_Some_range _ _ _ Hc) as Hr.
    apply (specials_escaped_sound (escape_latex_chars text)
             (escape_latex_chars text) 0) with (c := c);
      try assumption; try lia; [reflexivity|].
    unfold escaped. rewrite preceding_nonpos by lia.
    apply specials_escaped_escape. }
  split; [assumption|now apply escaped_preceded].
Qed.

Lemma escape_latex_chars_specials_escaped_witness :
  escaped (escape_latex_chars (lit "a_b")) 2 = true
  /\ char_at (escape_latex_chars (lit "a_b")) (2 - 1) = Some backslash.
Proof.
  apply (escape_latex_chars_specials_escaped (lit "a_b") 2 (chr 95));
    reflexivity.
Defined.

(** X4. Trimming and escaping commute: [escape_latex_chars(t).strip()] is
    [escape_latex_chars(t.strip())]. *)
Theorem escape_latex_chars_strip (text : str) :
  strip (escape_latex_chars text) = escape_latex_chars (strip text).
Proof. apply strip_escape. Qed.

(** ** Properties of the brace matcher and the extractor *)

(** X5. From a start position that is not negative, [find_matching_brace],
    which counts the backslashes before every brace backwards, returns what
    one forward pass over the text from [start_pos] returns that carries
    the escape state and the depth along: the result depends on the text
    before [start_pos] only through whether [start_pos] is escaped. *)
Theorem find_matching_brace_forward (text : str) (start_pos : Z) :
  0 <= start_pos ->
  find_matching_brace text start_pos
  = Returns match scan_close (escaped text start_pos) 1
                             (py_slice_from text start_pos) with
            | Some n => start_pos + n
            | None => -1
            end.
Proof. apply find_matching_brace_scan. Qed.

Lemma find_matching_brace_forward_witness :
  find_matching_brace (lit "hello {world {nested} text} end") 7
  = Returns match scan_close
                    (escaped (lit "hello {world {nested} text} end") 7) 1
                    (py_slice_from (lit "hello {world {nested} text} end") 7)
            with
            | Some n => 7 + n
            | None => -1
            end.
Proof.
  apply (find_matching_brace_forward (lit "hello {world {nested} text} end") 7).
  lia.
Defined.

(** X6. Where the text at [p] is a row of brace groups whose contents are
    results of [escape_latex_chars], [extract_latex_args] asked for as many
    arguments as there are groups returns exactly these contents, and the
    position after the last group: escaped text never unbalances the
    braces. *)
Theorem extract_latex_args_escaped_groups
    (text : str) (p : Z) (fs : list str) (r : str) :
  0 <= p -> fs <> [] ->
  skipn (Z.to_nat p) text = brace_groups (map escape_latex_chars fs) ++ r ->
  extract_latex_args text p (Z.of_nat (length fs))
  = Returns (Some (map escape_latex_chars fs),
             p + len (brace_groups (map escape_latex_chars fs))).
Proof. apply extract_latex_args_groups. Qed.

Lemma extract_latex_args_escaped_groups_witness :
  extract_latex_args (lit "ab{x\_y}{\{\textbackslash\{\}}, rest") 2 2
  = Returns (Some [lit "x\_y"; lit "\{\textbackslash\{\}"], 30).
Proof.
  apply (extract_latex_args_escaped_groups
           (lit "ab{x\_y}{\{\textbackslash\{\}}, rest") 2
           [lit "x_y"; lit "{\"] (lit ", rest"));
    [lia|discriminate|reflexivity].
Defined.

(** X7. A document written as one [\cventry] with four brace groups per
    row, each group holding the result of [escape_latex_chars] on a field,
    is read back by [parse_cventry] row by row: every record holds the
    escaped, trimmed fields of its row, with an empty link address, since
    escaped text holds no link wrapper. *)
Theorem parse_cventry_escaped_rows (rows : list (str * str * str * str)) :
  parse_cventry (Some (cventry_rows rows)) = Returns (map row_entry rows).
Proof. apply parse_cventry_rows. Qed.

(** ** Properties of [clean_latex_to_plain] *)

(** X8. The result of [clean_latex_to_plain] holds no percent sign, also
    where the input had an escaped one, and neither starts nor ends with
    white space. *)
Theorem clean_latex_to_plain_no_comment (text : str) :
  Forall not_percent (clean_latex_to_plain text)
  /\ trimmed (clean_latex_to_plain text).
Proof.
  split; [apply clean_latex_to_plain_Forall|].
  unfold clean_latex_to_plain. apply strip_trimmed.
Qed.

(** X9. A text without backslash, percent sign and newline goes through
    [clean_latex_to_plain] unchanged but for the trimming: braces, dollar
    signs and inner white space stay. *)
Theorem clean_latex_to_plain_plain_text (text : str) :
  forallb plain_char text = true -> clean_latex_to_plain text = strip text.
Proof. apply clean_latex_to_plain_plain. Qed.

Lemma clean_latex_to_plain_plain_text_witness :
  clean_latex_to_plain (lit "  a {REST}  API for $5 ")
  = strip (lit "  a {REST}  API for $5 ").
Proof.
  apply (clean_latex_to_plain_plain_text (lit "  a {REST}  API for $5 ")).
  reflexivity.
Defined.

(** ** Properties of [parse_projects_from_latex] *)

(** X10. The keywords of a project are the pieces of the technology field
    between its commas, trimmed: there is one more keyword than there are
    commas (so an empty field gives the one keyword [""]), no keyword holds
    a comma or has white space at an end, and joining the untrimmed pieces
    with commas gives the field back. *)
Theorem project_keywords (e : entry) :
  length (p_keywords (project_of e)) = S (count_occ ascii_dec (tech e) comma)
  /\ Forall (fun k => trimmed k /\ ~ In comma k) (p_keywords (project_of e))
  /\ exists pieces,
       py_join comma pieces = tech e
       /\ p_keywords (project_of e) = map strip pieces.
Proof. apply keywords_of_entry. Qed.

(** X11. Every highlight of a project is a non-empty trimmed line that does
    not start with a backslash and holds neither a newline nor a percent
    sign; the description is the first highlight, or the title when there
    is no highlight. *)
Theorem project_highlights (e : entry) :
  Forall (fun h => h <> [] /\ trimmed h /\ startswith h [backslash] = false
                   /\ ~ In newline h /\ ~ In percent h)
         (p_highlights (project_of e))
  /\ p_description (project_of e)
     = match p_highlights (project_of e) with
       | h :: _ => h
       | [] => title e
       end.
Proof.
  destruct (project_of_highlights e) as [H1 H2]. split; [|assumption].
  apply Forall_forall. exact H1.
Qed.

(** X12. [parse_projects_from_latex] returns for every content, present or
    not: it gives one project per record of [parse_cventry], in the order
    of the records, with the title as name and the link address as url. *)
Theorem parse_projects_from_latex_returns (content : option str) :
  exists entries projects,
    parse_cventry content = Returns entries
    /\ parse_projects_from_latex content = Returns projects
    /\ map p_name projects = map title entries
    /\ map p_url projects = map link_url entries
    /\ length projects = length entries.
Proof. apply parse_projects_returns. Qed.

(** ** The profile user names *)

(** X13. The user name of a profile is the part of the address after its
    last slash (the whole address when it has none): it is returned for
    every address, holds no slash, and is empty for an address that ends
    with a slash. *)
Theorem profile_username_last_segment (url : str) :
  (exists u pre,
     profile_username url = Returns u
     /\ ~ In slash u
     /\ url = pre ++ u
     /\ (pre = [] \/ exists pre', pre = pre' ++ [slash]))
  /\ profile_username (url ++ [slash]) = Returns [].
Proof.
  split; [apply profile_username_spec|].
  destruct (profile_username_spec slash (url ++ [slash]))
    as (u & pre & Hu & Hn & Hs & _).
  unfold profile_username. rewrite Hu. f_equal.
  destruct (rev u) as [|x t] eqn:E.
  - rewrite <- (rev_involutive u), E. reflexivity.
  - exfalso. apply Hn.
    assert (u = rev t ++ [x]) as ->
      by (rewrite <- (rev_involutive u), E; reflexivity).
    rewrite app_assoc in Hs. apply app_inj_tail in Hs as [_ <-].
    apply in_or_app. right. now left.
Qed.

(** ** Properties of the validators *)

(** X14. [validate_email] accepts exactly the strings
    [local@domain.tld], with a non-empty local part of letters, digits and
    [._%+-], a non-empty domain of letters, digits and [.-], and at least
    two letters after the last dot of the match, and these strings
    followed by one newline, which [$] lets through. *)
Theorem validate_email_shape (s : str) :
  validate_email s = true
  <-> email_shape s \/ exists t, s = t ++ [newline] /\ email_shape t.
Proof.
  unfold validate_email. rewrite match_to_end_spec, email_pattern_shape.
  split; (intros [H|(t & E & H)]; [now left|right; exists t; split; auto]);
    now apply email_pattern_shape.
Qed.

(** X15. A string that [validate_email] accepts holds exactly one [@]. *)
Theorem validate_email_one_at (s : str) :
  validate_email s = true -> count_occ ascii_dec s at_sign = 1%nat.
Proof.
  unfold validate_email. rewrite match_to_end_spec.
  intros [H|(t & -> & H)]; apply email_pattern_shape, email_shape_one_at in H;
    [assumption|].
  rewrite count_occ_app, H. reflexivity.
Qed.

Lemma validate_email_one_at_witness :
  count_occ ascii_dec (lit "user.name+tag@example.co.uk") at_sign = 1%nat.
Proof.
  apply (validate_email_one_at (lit "user.name+tag@example.co.uk")).
  vm_compute. reflexivity.
Defined.

(** X16. A string that [validate_url] accepts starts with the letters
    [http], each in either case, has [://] right after them or after one
    more character, and holds no white space, but for one newline that may
    end it. *)
Theorem validate_url_http_no_space (s : str) :
  validate_url s = true ->
  eq_ci (lit "http") (firstn 4 s) = true
  /\ (exists rest,
        skipn 4 s = lit "://" ++ rest
        \/ exists c, skipn 4 s = c :: lit "://" ++ rest)
  /\ (exists t tail,
        s = t ++ tail /\ (tail = [] \/ tail = [newline])
        /\ forallb not_space t = true).
Proof.
  unfold validate_url. rewrite match_to_end_spec.
  assert (chars_within not_space url_pattern = true) as Hw
    by (vm_compute; reflexivity).
  intros [H|(t & -> & H)].
  - destruct (url_pattern_http s [] H) as [H1 H2].
    rewrite app_nil_r in H1, H2.
    split; [exact H1|]. split; [exact H2|].
    exists s, []. rewrite app_nil_r.
    split; [reflexivity|]. split; [left; reflexivity|].
    exact (matches_chars_within not_space url_pattern s Hw H).
  - destruct (url_pattern_http t [newline] H) as [H1 H2].
    split; [exact H1|]. split; [exact H2|].
    exists t, [newline].
    split; [reflexivity|]. split; [right; reflexivity|].
    exact (matches_chars_within not_space url_pattern t Hw H).
Qed.

Lemma validate_url_http_no_space_witness :
  eq_ci (lit "http") (firstn 4 (lit "HTTPS://github.com/user/repo")) = true
  /\ (exists rest,
        skipn 4 (lit "HTTPS://github.com/user/repo") = lit "://" ++ rest
        \/ exists c,
             skipn 4 (lit "HTTPS://github.com/user/repo")
             = c :: lit "://" ++ rest)
  /\ (exists t tail,
        lit "HTTPS://github.com/user/repo" = t ++ tail
        /\ (tail = [] \/ tail = [newline])
        /\ forallb not_space t = true).
Proof.
  apply (validate_url_http_no_space (lit "HTTPS://github.com/user/repo")).
  vm_compute. reflexivity.
Defined.

(** X17. Where [validate_url] accepts a string, it accepts the string
    followed by a newline exactly when the string holds no newline
    itself: [$] lets one final newline through, and only one. *)
Theorem validate_url_trailing_newline (s : str) :
  validate_url s = true ->
  (validate_url (s ++ [newline]) = true <-> ~ In newline s).
Proof.
  unfold validate_url. rewrite !match_to_end_spec.
  assert (forall t, matches url_pattern t -> ~ In newline t) as Hno.
  { intros t Ht Hin.
    assert (chars_within not_space url_pattern = true) as Hw
      by (vm_compute; reflexivity).
    pose proof (matches_chars_within not_space url_pattern t Hw Ht) as Hf.
    rewrite forallb_forall in Hf. apply Hf in Hin. discriminate Hin. }
  intros Hs. split.
  - intros [H|(t & E & H)].
    + apply Hno in H. exfalso. apply H, in_or_app. right. now left.
    + apply app_inj_tail in E as [-> _]. now apply Hno.
  - intros Hn. right. exists s. split; [reflexivity|].
    destruct Hs as [H|(t & -> & H)]; [assumption|].
    exfalso. apply Hn, in_or_app. right. now left.
Qed.

Lemma validate_url_trailing_newline_witness :
  validate_url (lit "http://example.com" ++ [newline]) = true
  <-> ~ In newline (lit "http://example.com").
Proof.
  apply (validate_url_trailing_newline (lit "http://example.com")).
  vm_compute. reflexivity.
Defined.
